(** * Arxiv_Paper_Translator: masking engine and translation pipeline

    A shallow embedding of [src/parser.py] (structural masker and
    unmasker) and [src/translator.py] (chunk segmenter and the
    translate / critique / fix graph), followed by the properties the
    specification states about them.

    Python [str] values are lists of characters (the 256 characters of
    [ascii]); offsets and lengths reported by the LaTeX parser are
    natural numbers.  The third-party pieces the code calls into (the
    pylatexenc parser, [json.loads], the language-model services, the
    graph runner's recursion limit) are parameters of the model. *)

From Stdlib Require Import String Ascii List Arith Lia Bool ZArith.
From Stdlib Require Import DecimalString DecimalNat.
Import ListNotations.

Set Warnings "-register-all".

(** ** Python string built-ins used by the program *)

Module PyStr.

Definition str := list ascii.

Definition lit (s : string) : str := list_ascii_of_string s.

Definition nl : ascii := "010"%char.
Definition dq : ascii := "034"%char.

Fixpoint str_eqb (a b : str) : bool :=
  match a, b with
  | [], [] => true
  | x :: a', y :: b' => Ascii.eqb x y && str_eqb a' b'
  | _, _ => false
  end.

(** [s.startswith(pre)] *)
Fixpoint startswith (s pre : str) {struct pre} : bool :=
  match pre, s with
  | [], _ => true
  | _ :: _, [] => false
  | a :: pre', b :: s' => Ascii.eqb a b && startswith s' pre'
  end.

(** [s.endswith(suf)] *)
Definition endswith (s suf : str) : bool := startswith (rev s) (rev suf).

(** [sub in s] *)
Fixpoint contains (s sub : str) : bool :=
  startswith s sub ||
  match s with
  | [] => false
  | _ :: t => contains t sub
  end.

(** [x in names] for a list or set of strings *)
Definition mem (x : str) (names : list str) : bool := existsb (str_eqb x) names.

(** [s[i:j]] for non-negative [i], [j] (both clamp to the length; an
    inverted range is empty). *)
Definition slice (s : str) (i j : nat) : str := firstn (j - i) (skipn i s).

(** [w[i:j] = x] on a list, for non-negative [i], [j]. *)
Definition slice_assign (w : str) (i j : nat) (x : str) : str :=
  firstn i w ++ x ++ skipn (Nat.max i j) w.

(** [s.replace(old, new)]: every non-overlapping occurrence of [old],
    scanning from the left.  [skip] counts the characters of an occurrence
    just replaced that are still to be passed over. *)
Fixpoint replace_scan (old new : str) (skip : nat) (s : str) : str :=
  match s with
  | [] => []
  | c :: t =>
      match skip with
      | S k => replace_scan old new k t
      | O =>
          if startswith s old
          then new ++ replace_scan old new (length old - 1) t
          else c :: replace_scan old new 0 t
      end
  end.

Definition replace (s old new : str) : str :=
  match old with
  | [] => new ++ flat_map (fun c => c :: new) s
  | _ :: _ => replace_scan old new 0 s
  end.

(** [s.split(sep)] for a non-empty separator. *)
Fixpoint split_scan (sep : str) (skip : nat) (cur : str) (s : str) : list str :=
  match s with
  | [] => [cur]
  | c :: t =>
      match skip with
      | S k => split_scan sep k cur t
      | O =>
          if startswith s sep
          then cur :: split_scan sep (length sep - 1) [] t
          else split_scan sep 0 (cur ++ [c]) t
      end
  end.

Definition split (s sep : str) : list str := split_scan sep 0 [] s.

(** [sep.join(parts)] *)
Fixpoint join (sep : str) (parts : list str) : str :=
  match parts with
  | [] => []
  | [p] => p
  | p :: rest => p ++ sep ++ join sep rest
  end.

(** [c.isspace()] on code points below 256. *)
Definition isspace (c : ascii) : bool :=
  let n := nat_of_ascii c in
  ((9 <=? n) && (n <=? 13)) || ((28 <=? n) && (n <=? 32))
  || (n =? 133) || (n =? 160).

Fixpoint lstrip (s : str) : str :=
  match s with
  | [] => []
  | c :: t => if isspace c then lstrip t else s
  end.

Definition rstrip (s : str) : str := rev (lstrip (rev s)).

(** [s.strip()] *)
Definition strip (s : str) : str := rstrip (lstrip s).

(** [s.upper()] on the ASCII letters. *)
Definition upper_char (c : ascii) : ascii :=
  let n := nat_of_ascii c in
  if (97 <=? n) && (n <=? 122) then ascii_of_nat (n - 32) else c.

Definition upper (s : str) : str := map upper_char s.

(** [f"{n:04d}"]: decimal digits, padded with zeros to four places. *)
Definition decimal (n : nat) : str := lit (NilEmpty.string_of_uint (Nat.to_uint n)).

Definition fmt04 (n : nat) : str :=
  let d := decimal n in
  repeat "0"%char (4 - length d) ++ d.

(** A Python [dict] from strings to strings: insertion-ordered; assigning
    to an existing key keeps its place. *)
Definition dict := list (str * str).

Fixpoint dict_set (d : dict) (k v : str) : dict :=
  match d with
  | [] => [(k, v)]
  | (k', v') :: r =>
      if str_eqb k' k then (k', v) :: r else (k', v') :: dict_set r k v
  end.

Definition keys (d : dict) : list str := map fst d.

End PyStr.

Import PyStr.

(** ** src/parser.py *)

Module Parser.

(** The node tree pylatexenc returns.  Only the attributes the masker
    reads are kept: [pos], [len], the macro or environment name, and
    [nodelist] for the three node classes that have one. *)
Inductive LatexNode : Type :=
| LatexCharsNode (pos len : nat)
| LatexCommentNode (pos len : nat)
| LatexSpecialsNode (pos len : nat)
| LatexMacroNode (pos len : nat) (macroname : str)
| LatexGroupNode (pos len : nat) (nodelist : list LatexNode)
| LatexMathNode (pos len : nat) (nodelist : list LatexNode)
| LatexEnvironmentNode (pos len : nat) (environmentname : str)
                       (nodelist : list LatexNode).

Definition node_pos (n : LatexNode) : nat :=
  match n with
  | LatexCharsNode p _ | LatexCommentNode p _ | LatexSpecialsNode p _
  | LatexMacroNode p _ _ | LatexGroupNode p _ _ | LatexMathNode p _ _
  | LatexEnvironmentNode p _ _ _ => p
  end.

Definition node_len (n : LatexNode) : nat :=
  match n with
  | LatexCharsNode _ l | LatexCommentNode _ l | LatexSpecialsNode _ l
  | LatexMacroNode _ l _ | LatexGroupNode _ l _ | LatexMathNode _ l _
  | LatexEnvironmentNode _ l _ _ => l
  end.

Definition node_end (n : LatexNode) : nat := node_pos n + node_len n.

(** [node.nodelist] where [hasattr(node, 'nodelist')], else nothing. *)
Definition node_children (n : LatexNode) : list LatexNode :=
  match n with
  | LatexGroupNode _ _ l | LatexMathNode _ _ l
  | LatexEnvironmentNode _ _ _ l => l
  | _ => []
  end.

(** An entry of [mask_ranges]: (start_pos, end_pos, type_hint). *)
Definition MaskRange : Type := nat * nat * str.

Definition range_start (r : MaskRange) : nat := fst (fst r).
Definition range_end (r : MaskRange) : nat := snd (fst r).
Definition range_hint (r : MaskRange) : str := snd r.

Definition OPAQUE_ENVS : list str :=
  [lit "equation"; lit "align"; lit "gather"; lit "eqnarray"; lit "tabular";
   lit "tikzpicture"; lit "axuodraw"; lit "algorithmic"].

Definition CODE_ENVS : list str :=
  [lit "lstlisting"; lit "verbatim"; lit "minted"].

Definition MASKED_MACROS : list str :=
  [lit "cite"; lit "ref"; lit "cref"; lit "label"; lit "input";
   lit "include"; lit "includegraphics"].

Definition STAR : str := lit "*".

(** The nest of tests under "1. OPAQUE": [true] when one of the two
    inner branches appends the whole-environment range and continues. *)
Definition opaque_masked (env_name : str) : bool :=
  if mem env_name OPAQUE_ENVS || endswith env_name STAR then
    if negb (mem env_name [lit "figure*"; lit "table*"])
       && (mem env_name OPAQUE_ENVS || endswith env_name STAR)
    then
      if mem env_name OPAQUE_ENVS then true
      else if mem (replace env_name STAR []) OPAQUE_ENVS then true
      else false
    else false
  else false.

Definition env_hint (env_name : str) : str :=
  lit "ENV_" ++ replace (upper env_name) STAR (lit "S").

Definition cmd_hint (macroname : str) : str := lit "CMD_" ++ upper macroname.

Definition code_hint (env_name : str) : str := lit "CODE_" ++ upper env_name.

(** One iteration of the loop of [traverse_nodes]; the ranges it
    appends to [mask_ranges], in order. *)
Fixpoint traverse_node (node : LatexNode) : list MaskRange :=
  match node with
  | LatexMathNode pos len _ => [(pos, pos + len, lit "MATH")]
  | LatexMacroNode pos len macroname =>
      if mem macroname MASKED_MACROS
      then [(pos, pos + len, cmd_hint macroname)]
      else []
  | LatexEnvironmentNode pos len env_name nodelist =>
      if opaque_masked env_name
      then [(pos, pos + len, env_hint env_name)]
      else if mem env_name CODE_ENVS then
        match nodelist with
        | [] => []
        | first :: _ =>
            let final := last nodelist first in
            [(node_pos first, node_pos final + node_len final,
              code_hint env_name)]
        end
      else flat_map traverse_node nodelist
  | LatexGroupNode _ _ nodelist => flat_map traverse_node nodelist
  | LatexCharsNode _ _ | LatexCommentNode _ _ | LatexSpecialsNode _ _ => []
  end.

Definition traverse_nodes (node_list : list LatexNode) : list MaskRange :=
  flat_map traverse_node node_list.

(** [mask_ranges.sort(key=lambda x: x[0], reverse=True)]: a stable sort,
    larger start first; entries with equal starts keep their order. *)
Fixpoint insert_desc (r : MaskRange) (l : list MaskRange) : list MaskRange :=
  match l with
  | [] => [r]
  | r' :: l' =>
      if range_start r <? range_start r' then r' :: insert_desc r l'
      else r :: l
  end.

Fixpoint sort_by_start_desc (l : list MaskRange) : list MaskRange :=
  match l with
  | [] => []
  | r :: l' => insert_desc r (sort_by_start_desc l')
  end.

(** [f"[MASK_{type_hint}_{mask_counter:04d}]"] *)
Definition token (type_hint : str) (mask_counter : nat) : str :=
  lit "[MASK_" ++ type_hint ++ lit "_" ++ fmt04 mask_counter ++ lit "]".

Record MaskState : Type := mkMaskState {
  working_text : str;
  masks : dict;
  mask_counter : nat
}.

(** The guard of the replacement loop; [true] means [continue]. *)
Definition out_of_bounds (text : str) (r : MaskRange) : bool :=
  (range_start r <? 0) || (length text <? range_end r).

(** Body of the replacement loop. *)
Definition replace_range (text : str) (st : MaskState) (r : MaskRange)
  : MaskState :=
  if out_of_bounds text r then st
  else
    let original_segment := slice text (range_start r) (range_end r) in
    let tok := token (range_hint r) (mask_counter st) in
    {| working_text :=
         slice_assign (working_text st) (range_start r) (range_end r) tok;
       masks := dict_set (masks st) tok original_segment;
       mask_counter := S (mask_counter st) |}.

Definition replace_ranges (text : str) (ranges : list MaskRange)
  (st : MaskState) : MaskState :=
  fold_left (replace_range text) ranges st.

(** The [try] block of [mask_content] once the walker has returned. *)
Definition mask_nodes (text : str) (nodes : list LatexNode) : str * dict :=
  let mask_ranges := sort_by_start_desc (traverse_nodes nodes) in
  let st := replace_ranges text mask_ranges (mkMaskState text [] 0) in
  (working_text st, masks st).

(** *** mask_content_regex_fallback *)

Definition is_dollar (c : ascii) : bool := Ascii.eqb c "$"%char.
Definition is_backslash (c : ascii) : bool := Ascii.eqb c "\"%char.

(** [replacer]: [masks] and [mask_counter] are the closure's state. *)
Definition replacer (st : dict * nat) (original : str) : str * (dict * nat) :=
  let tok := lit "[MASK_R_MATH_" ++ fmt04 (snd st) ++ lit "]" in
  (tok, (dict_set (fst st) tok original, S (snd st))).

(** Offset of the first occurrence of [sub] in [s]. *)
Fixpoint find (s sub : str) : option nat :=
  if startswith s sub then Some 0
  else match s with
       | [] => None
       | _ :: t => option_map S (find t sub)
       end.

(** [re.sub(r'\$\$.*?\$\$', replacer, text, flags=re.DOTALL)]: at each
    position not inside an earlier match, a match starts when the text
    there begins with two dollars and two dollars occur again later; it
    ends at the nearest such pair. *)
Fixpoint sub_display (skip : nat) (st : dict * nat) (s : str)
  : str * (dict * nat) :=
  match s with
  | [] => ([], st)
  | c :: t =>
      match skip with
      | S k => sub_display k st t
      | O =>
          match (if startswith s (lit "$$")
                 then find (skipn 2 s) (lit "$$") else None) with
          | Some k =>
              let (tok, st') := replacer st (firstn (k + 4) s) in
              let (out, st'') := sub_display (k + 3) st' t in
              (tok ++ out, st'')
          | None =>
              let (out, st') := sub_display 0 st t in
              (c :: out, st')
          end
      end
  end.

(** Offset in [s] of the first dollar not preceded by a backslash, [prev]
    being the character before [s]. *)
Fixpoint find_close (prev : ascii) (s : str) : option nat :=
  match s with
  | [] => None
  | c :: t =>
      if is_dollar c && negb (is_backslash prev) then Some 0
      else option_map S (find_close c t)
  end.

Definition preceded_by_backslash (prev : option ascii) : bool :=
  match prev with
  | Some p => is_backslash p
  | None => false
  end.

(** [re.sub(r'(?<!\\)\$.*?(?<!\\)\$', replacer, text, flags=re.DOTALL)] *)
Fixpoint sub_inline (skip : nat) (prev : option ascii) (st : dict * nat)
  (s : str) : str * (dict * nat) :=
  match s with
  | [] => ([], st)
  | c :: t =>
      match skip with
      | S k => sub_inline k (Some c) st t
      | O =>
          match (if is_dollar c && negb (preceded_by_backslash prev)
                 then find_close c t else None) with
          | Some k =>
              let (tok, st') := replacer st (firstn (k + 2) s) in
              let (out, st'') := sub_inline (k + 1) (Some c) st' t in
              (tok ++ out, st'')
          | None =>
              let (out, st') := sub_inline 0 (Some c) st t in
              (c :: out, st')
          end
      end
  end.

Definition mask_content_regex_fallback (text : str) : str * dict :=
  let (text1, st1) := sub_display 0 ([], 0) text in
  let (text2, st2) := sub_inline 0 None st1 text1 in
  (text2, fst st2).

(** *** mask_content

    [get_latex_nodes text] is what [LatexWalker(text, ...).get_latex_nodes()]
    gives for the custom context: the top-level node list, or [None] when
    the walker raises. *)
Definition mask_content (get_latex_nodes : str -> option (list LatexNode))
  (text : str) : str * dict :=
  match get_latex_nodes text with
  | Some nodes => mask_nodes text nodes
  | None => mask_content_regex_fallback text
  end.

(** *** unmask_content *)
Definition unmask_content (text : str) (masks : dict) : str :=
  fold_left (fun text kv => replace text (fst kv) (snd kv)) masks text.

End Parser.

(** ** src/translator.py *)

Module Translator.

(** *** smart_split *)

Definition is_nl (c : ascii) : bool := Ascii.eqb c nl.

(** [re.split(r'(\n\n+)', text)]: the text cut at every maximal run of two
    or more newlines, the runs themselves kept (the pattern is a capture
    group).  [cur] is the piece read so far, [run] the run being read. *)
Fixpoint re_split_paragraphs (cur : str) (s : str) : list str :=
  match s with
  | [] => [cur]
  | c :: t =>
      if is_nl c then
        match t with
        | c2 :: t2 =>
            if is_nl c2 then cur :: newline_run [c; c2] t2
            else re_split_paragraphs (cur ++ [c]) t
        | [] => [cur ++ [c]]
        end
      else re_split_paragraphs (cur ++ [c]) t
  end
with newline_run (run : str) (s : str) : list str :=
  match s with
  | [] => [run; []]
  | c :: t =>
      if is_nl c then newline_run (run ++ [c]) t
      else run :: re_split_paragraphs [c] t
  end.

Record SplitState : Type := mkSplitState {
  chunks : list str;
  current_chunk : list str;
  current_length : Z
}.

Definition len (s : str) : Z := Z.of_nat (length s).

Definition nonempty {A : Type} (l : list A) : bool :=
  match l with
  | [] => false
  | _ :: _ => true
  end.

(** Body of the loop over [paragraphs]. *)
Definition split_step (max_chars : Z) (st : SplitState) (para : str)
  : SplitState :=
  if (max_chars <? current_length st + len para)%Z
     && nonempty (current_chunk st)
  then mkSplitState (chunks st ++ [concat (current_chunk st)])
                    [para] (len para)
  else mkSplitState (chunks st) (current_chunk st ++ [para])
                    (current_length st + len para)%Z.

Definition smart_split (text : str) (max_chars : Z) : list str :=
  let paragraphs := re_split_paragraphs [] text in
  let st := fold_left (split_step max_chars) paragraphs
                      (mkSplitState [] [] 0%Z) in
  if nonempty (current_chunk st)
  then chunks st ++ [concat (current_chunk st)]
  else chunks st.

(** *** Values read from the critic's JSON answer *)

(** What [json.loads] can return.  A number is observed by the code only
    through its truth value, so it is kept as an integer (zero or not). *)
Inductive json : Type :=
| JNull
| JBool (b : bool)
| JNum (z : Z)
| JStr (s : str)
| JArr (items : list json)
| JObj (fields : list (str * json)).

(** Python truth value. *)
Definition truthy (v : json) : bool :=
  match v with
  | JNull => false
  | JBool b => b
  | JNum z => negb (z =? 0)%Z
  | JStr s => nonempty s
  | JArr l => nonempty l
  | JObj f => nonempty f
  end.

(** [result.get(key, default)] on a dict ([JObj] lists the entries of the
    dict, one per key). *)
Fixpoint dict_get (fields : list (str * json)) (key : str) (default : json)
  : json :=
  match fields with
  | [] => default
  | (k, v) :: rest => if str_eqb k key then v else dict_get rest key default
  end.

(** *** State *)

Record TranslationState : Type := mkState {
  chunk_index : nat;
  original_chunk : str;
  translated_chunk : str;   (* absent until translate_node writes it *)
  terminology : dict;
  failed_attempts : nat;
  critic_errors : json
}.

(** The three language-model calls ([llm.invoke], [chain.invoke]); the
    clients themselves are taken to be constructed without error.  Each
    call is given the number of calls already made to it and the values
    the node passes; [None] stands for a raised exception, [Some c] for
    [response.content]. *)
Record Services : Type := mkServices {
  translate_llm : nat -> dict -> str -> option str;
  critic_llm : nat -> str -> str -> option str;
  fixer_llm : nat -> str -> str -> json -> dict -> option str
}.

Inductive LogEvent : Type :=
| TranslationCallFailed
| CriticParseFailed
| FixerCallFailed
| TooManyFailures (failures : nat).

(** A run of the graph: the channel values, the calls made so far and
    the error and warning records written to the logger. *)
Record Run : Type := mkRun {
  state : TranslationState;
  translate_calls : nat;
  critic_calls : nat;
  fixer_calls : nat;
  log : list LogEvent
}.

Definition set_translated (s : TranslationState) (t : str) (fa : nat)
  : TranslationState :=
  mkState (chunk_index s) (original_chunk s) t (terminology s) fa
          (critic_errors s).

Definition set_errors (s : TranslationState) (e : json) : TranslationState :=
  mkState (chunk_index s) (original_chunk s) (translated_chunk s)
          (terminology s) (failed_attempts s) e.

Section Graph.

Variable json_loads : str -> option json.   (* [None]: json.loads raises *)
Variable svc : Services.

(** **** translate_node *)
Definition translate_node (r : Run) : Run :=
  let s := state r in
  let original := original_chunk s in
  match translate_llm svc (translate_calls r) (terminology s) original with
  | Some content =>
      mkRun (set_translated s (strip content) 0)
            (S (translate_calls r)) (critic_calls r) (fixer_calls r) (log r)
  | None =>
      mkRun (set_errors (set_translated s original 999)
                        (JArr [JStr (lit "LLM Call Failed")]))
            (S (translate_calls r)) (critic_calls r) (fixer_calls r)
            (log r ++ [TranslationCallFailed])
  end.

(** **** critic_node *)

Definition FENCE_JSON : str := lit "```json".
Definition FENCE : str := lit "```".

(** The fence stripping before [json.loads]; [None] is an IndexError. *)
Definition unfence (content : str) : option str :=
  if contains content FENCE_JSON then
    match nth_error (split content FENCE_JSON) 1 with
    | Some inner =>
        match nth_error (split inner FENCE) 0 with
        | Some body => Some (strip body)
        | None => None
        end
    | None => None
    end
  else if contains content FENCE then
    match nth_error (split content FENCE) 1 with
    | Some body => Some (strip body)
    | None => None
    end
  else Some content.

Definition PARSE_FAILED : json := JArr [JStr (lit "Critic parsing failed")].

(** The value of [critic_errors] the node returns for a parsed answer;
    [None] where the [try] body raises (no [get] on a non-dict, no
    [append] on a non-list). *)
Definition judge (result : json) : option json :=
  match result with
  | JObj fields =>
      let is_safe := dict_get fields (lit "safe") (JBool false) in
      let is_syntax := dict_get fields (lit "syntax_valid") (JBool false) in
      let is_quality := dict_get fields (lit "quality_pass") (JBool false) in
      let errors := dict_get fields (lit "errors") (JArr []) in
      if truthy is_safe && truthy is_syntax && truthy is_quality
      then Some (JArr [])
      else if negb (truthy errors) then
        match errors with
        | JArr l => Some (JArr (l ++ [JStr (lit "Unknown failure")]))
        | _ => None
        end
      else Some errors
  | _ => None
  end.

(** [critic_errors] as [critic_node] returns it, from the outcome of
    [chain.invoke]. *)
Definition critique (response : option str) : json * list LogEvent :=
  let parsed :=
    match response with
    | Some raw =>
        match unfence (strip raw) with
        | Some content =>
            match json_loads content with
            | Some result => judge result
            | None => None
            end
        | None => None
        end
    | None => None
    end in
  match parsed with
  | Some errors => (errors, [])
  | None => (PARSE_FAILED, [CriticParseFailed])
  end.

Definition critic_node (r : Run) : Run :=
  let s := state r in
  let response :=
    critic_llm svc (critic_calls r) (original_chunk s) (translated_chunk s) in
  let (errors, events) := critique response in
  mkRun (set_errors s errors)
        (translate_calls r) (S (critic_calls r)) (fixer_calls r)
        (log r ++ events).

(** **** fixer_node *)
Definition fixer_node (r : Run) : Run :=
  let s := state r in
  let failures := failed_attempts s + 1 in
  if 3 <? failures then
    mkRun (set_errors (set_translated s (original_chunk s) failures) (JArr []))
          (translate_calls r) (critic_calls r) (fixer_calls r)
          (log r ++ [TooManyFailures failures])
  else
    let original := original_chunk s in
    let translated := translated_chunk s in
    match fixer_llm svc (fixer_calls r) original translated
                    (critic_errors s) (terminology s) with
    | Some content =>
        mkRun (set_translated s (strip content) failures)
              (translate_calls r) (critic_calls r) (S (fixer_calls r)) (log r)
    | None =>
        mkRun (set_translated s translated failures)
              (translate_calls r) (critic_calls r) (S (fixer_calls r))
              (log r ++ [FixerCallFailed])
    end.

(** **** check_critic *)
Inductive Verdict : Type := pass | fail.

Definition check_critic (s : TranslationState) : Verdict :=
  if negb (truthy (critic_errors s)) then pass else fail.

(** **** build_graph *)
Inductive GraphNode : Type := translate | critic | fixer | END.

(** [workflow.add_node]: the function attached to each node name. *)
Definition run_node (n : GraphNode) (r : Run) : Run :=
  match n with
  | translate => translate_node r
  | critic => critic_node r
  | fixer => fixer_node r
  | END => r
  end.

(** The edges: translate -> critic; critic -> END on "pass", fixer on
    "fail"; fixer -> critic.  [r] is the run after the node has written. *)
Definition next_node (n : GraphNode) (r : Run) : GraphNode :=
  match n with
  | translate => critic
  | critic =>
      match check_critic (state r) with
      | pass => END
      | fail => fixer
      end
  | fixer => critic
  | END => END
  end.

(** What [workflow.compile()] returns: the entry point, the node
    functions and the edges. *)
Record CompiledGraph : Type := mkGraph {
  entry_point : GraphNode;
  node_action : GraphNode -> Run -> Run;
  successor : GraphNode -> Run -> GraphNode
}.

Definition build_graph : CompiledGraph := mkGraph translate run_node next_node.

End Graph.

(** Execution of a compiled graph from node [n] with [steps] steps left.
    Every node execution takes a step, and so does finding that END is
    next: a run of [N] node executions returns only when more than [N]
    steps are allowed.  [None] when the steps are used up first (the
    graph library then raises its recursion-limit error). *)
Fixpoint run_from (app : CompiledGraph) (steps : nat) (n : GraphNode)
  (r : Run) : option Run :=
  match steps with
  | O => None
  | S k =>
      match n with
      | END => Some r
      | _ =>
          let r' := node_action app n r in
          run_from app k (successor app n r') r'
      end
  end.

(** The nodes executed, in order, within [steps] executions. *)
Fixpoint trace_from (app : CompiledGraph) (steps : nat) (n : GraphNode)
  (r : Run) : list GraphNode :=
  match n with
  | END => []
  | _ =>
      match steps with
      | O => []
      | S k =>
          let r' := node_action app n r in
          n :: trace_from app k (successor app n r') r'
      end
  end.

(** The node about to run and the run reached after [steps] executions. *)
Fixpoint advance (app : CompiledGraph) (steps : nat) (n : GraphNode)
  (r : Run) : GraphNode * Run :=
  match steps with
  | O => (n, r)
  | S k =>
      match n with
      | END => (END, r)
      | _ =>
          let r' := node_action app n r in
          advance app k (successor app n r') r'
      end
  end.

(** [initial_state] of [translate_file_content] for one chunk. *)
Definition initial_run (chunk : str) (i : nat) (terms : dict) : Run :=
  mkRun (mkState i chunk [] terms 0 (JArr [])) 0 0 0 [].

(** [app.invoke(initial_state)] under a recursion limit. *)
Definition invoke (app : CompiledGraph) (recursion_limit : nat) (r : Run)
  : option Run :=
  run_from app recursion_limit (entry_point app) r.


End Translator.

(** ** Concrete inputs used by the examples below *)

Module Scenarios.

Import Parser Translator.

(** A critic answer: a JSON object with the three flags and no error
    list, written as the service would send it. *)
Definition flags_answer (safe syntax quality : str) : str :=
  lit "{" ++ [dq] ++ lit "safe" ++ [dq] ++ lit ": " ++ safe ++ lit ", "
  ++ [dq] ++ lit "syntax_valid" ++ [dq] ++ lit ": " ++ syntax ++ lit ", "
  ++ [dq] ++ lit "quality_pass" ++ [dq] ++ lit ": " ++ quality ++ lit "}".

Definition quoted (s : str) : str := [dq] ++ s ++ [dq].

Definition flags_fields (safe syntax quality : json) : list (str * json) :=
  [(lit "safe", safe); (lit "syntax_valid", syntax);
   (lit "quality_pass", quality)].

Definition flags_object (safe syntax quality : json) : json :=
  JObj (flags_fields safe syntax quality).

(** [json.loads] on the answers that occur in the examples; anything else
    is taken as undecodable. *)
Definition loads (content : str) : option json :=
  if str_eqb content (flags_answer (lit "true") (lit "true") (lit "true"))
  then Some (flags_object (JBool true) (JBool true) (JBool true))
  else if str_eqb content
            (flags_answer (lit "false") (lit "true") (lit "true"))
  then Some (flags_object (JBool false) (JBool true) (JBool true))
  else if str_eqb content
            (flags_answer (quoted (lit "false")) (quoted (lit "false"))
                          (quoted (lit "false")))
  then Some (flags_object (JStr (lit "false")) (JStr (lit "false"))
                          (JStr (lit "false")))
  else None.

Definition answer_pass : str :=
  flags_answer (lit "true") (lit "true") (lit "true").
Definition answer_fail : str :=
  flags_answer (lit "false") (lit "true") (lit "true").
Definition answer_strings : str :=
  flags_answer (quoted (lit "false")) (quoted (lit "false"))
               (quoted (lit "false")).

(** Translation and repair succeed, the critic rejects every time. *)
Definition svc_critic_rejects : Services :=
  mkServices (fun _ _ _ => Some (lit "Bonjour"))
             (fun _ _ _ => Some answer_fail)
             (fun _ _ _ _ _ => Some (lit "Bonjour bis")).

(** The translation service is down, the critic accepts. *)
Definition svc_outage : Services :=
  mkServices (fun _ _ _ => None)
             (fun _ _ _ => Some answer_pass)
             (fun _ _ _ _ _ => None).

(** The critic sends its three flags as the strings "false". *)
Definition svc_string_flags : Services :=
  mkServices (fun _ _ _ => Some (lit "Bonjour"))
             (fun _ _ _ => Some answer_strings)
             (fun _ _ _ _ _ => Some (lit "Bonjour bis")).

(** The translation service is down and the critic rejects. *)
Definition svc_outage_rejected : Services :=
  mkServices (fun _ _ _ => None)
             (fun _ _ _ => Some answer_fail)
             (fun _ _ _ _ _ => None).

(** The walker returning a given tree. *)
Definition walker_for (nodes : list LatexNode) : str -> option (list LatexNode) :=
  fun _ => Some nodes.

(** [The $E=mc^2$ law is due to \cite{einstein}.] and its parse: text,
    inline math at 4..12, text, the [\cite] macro with its argument at
    27..42, the final full stop. *)
Definition einstein_text : str :=
  lit "The $E=mc^2$ law is due to \cite{einstein}.".

Definition einstein_nodes : list LatexNode :=
  [LatexCharsNode 0 4;
   LatexMathNode 4 8 [LatexCharsNode 5 6];
   LatexCharsNode 12 15;
   LatexMacroNode 27 15 (lit "cite");
   LatexCharsNode 42 1].

(** The listing of the second scenario; the bracketed options are an
    argument of the environment, its body is the single run of
    characters between the options and [\end]. *)
Definition listing_text : str :=
  lit "\begin{lstlisting}[language=Python]" ++ [nl] ++ lit "print(1)"
  ++ [nl] ++ lit "\end{lstlisting}".

Definition listing_nodes : list LatexNode :=
  [LatexEnvironmentNode 0 61 (lit "lstlisting") [LatexCharsNode 35 10]].

(** A text in which a token-shaped string already occurs. *)
Definition preexisting_text : str := lit "[MASK_MATH_0000] $x$".

Definition preexisting_nodes : list LatexNode :=
  [LatexCharsNode 0 17; LatexMathNode 17 3 [LatexCharsNode 18 1]].

(** A starred equation-like environment between two words. *)
Definition align_text : str :=
  lit "A \begin{align*}x\end{align*} B".

Definition align_nodes : list LatexNode :=
  [LatexCharsNode 0 2;
   LatexEnvironmentNode 2 27 (lit "align*") [LatexCharsNode 16 1];
   LatexCharsNode 29 2].

Definition hello : str := lit "Hello".

(** A verbatim environment and its parse: the parser reads the body of
    [verbatim] as an argument of the environment, which has no child
    nodes. *)
Definition verbatim_text : str :=
  lit "\begin{verbatim}" ++ [nl] ++ lit "x = 1" ++ [nl]
  ++ lit "\end{verbatim}".

Definition verbatim_nodes : list LatexNode :=
  [LatexEnvironmentNode 0 37 (lit "verbatim") []].

(** A table whose first original is the token of its second entry. *)
Definition chained_table : dict :=
  [(token (lit "MATH") 0, token (lit "MATH") 1);
   (token (lit "MATH") 1, lit "z")].

End Scenarios.

(** ** Vocabulary of the statements *)

Module Vocabulary.

Import Parser Translator.

(** The critic's call returned, the fences could be stripped and the
    content decoded to a JSON object with these fields. *)
Definition decoded (json_loads : str -> option json)
  (response : option str) (fields : list (str * json)) : Prop :=
  exists raw content,
    response = Some raw /\
    unfence (strip raw) = Some content /\
    json_loads content = Some (JObj fields).

Definition flag (fields : list (str * json)) (name : string) : json :=
  dict_get fields (lit name) (JBool false).

(** The answers [critic_node] accepts: decoded, and the three flags are
    true in Python's sense. *)
Definition accepted (json_loads : str -> option json)
  (response : option str) : Prop :=
  exists fields,
    decoded json_loads response fields /\
    truthy (flag fields "safe") = true /\
    truthy (flag fields "syntax_valid") = true /\
    truthy (flag fields "quality_pass") = true.

(** The answer the critic gets for the chunk held in run [r]. *)
Definition critic_response (svc : Services) (r : Run) : option str :=
  critic_llm svc (critic_calls r) (original_chunk (state r))
             (translated_chunk (state r)).

(** The critique service reports a failure on every invocation. *)
Definition critic_always_rejects (json_loads : str -> option json)
  (svc : Services) : Prop :=
  forall n original translated,
    ~ accepted json_loads (critic_llm svc n original translated).

(** Every invocation of the translation service raises. *)
Definition translation_down (svc : Services) : Prop :=
  forall n terms original, translate_llm svc n terms original = None.

(** The chunk is back to its original text and the repair budget is
    spent, so that [fixer_node] can only revert again. *)
Definition reverted (chunk : str) (r : Run) : Prop :=
  original_chunk (state r) = chunk /\
  translated_chunk (state r) = chunk /\
  3 <= failed_attempts (state r).

(** [old] matches at no position inside [X] when [X] is followed by
    [R]. *)
Fixpoint unmatched (old X R : str) : Prop :=
  match X with
  | [] => True
  | _ :: X' => startswith (X ++ R) old = false /\ unmatched old X' R
  end.

(** No occurrence of [token] begins inside the piece [p] when [p] is
    followed by [token] (or by nothing). *)
Definition token_free (token p : str) : Prop :=
  contains (p ++ removelast token) token = false.

(** *** Well-formed parse trees

    What the walker guarantees about the tree of a text of length [hi]:
    every node covers at least one character, the nodes of a list follow
    one another without overlap, and the children of a node lie inside
    it. *)
Fixpoint wf_node (lo hi : nat) (n : LatexNode) : bool :=
  (lo <=? node_pos n) && (0 <? node_len n) && (node_end n <=? hi)
  && match n with
     | LatexGroupNode _ _ kids | LatexMathNode _ _ kids
     | LatexEnvironmentNode _ _ _ kids =>
         (fix wf_list (lo' : nat) (ns : list LatexNode) {struct ns} : bool :=
            match ns with
            | [] => true
            | k :: ks => wf_node lo' (node_end n) k && wf_list (node_end k) ks
            end) (node_pos n) kids
     | _ => true
     end.

Fixpoint wf_nodes (lo hi : nat) (ns : list LatexNode) : bool :=
  match ns with
  | [] => true
  | k :: ks => wf_node lo hi k && wf_nodes (node_end k) hi ks
  end.

(** Two ranges share no position. *)
Definition disjoint (r1 r2 : MaskRange) : Prop :=
  range_end r1 <= range_start r2 \/ range_end r2 <= range_start r1.

(** The ranges follow one another inside [lo, hi], each non-empty. *)
Fixpoint asc_chain (lo hi : nat) (l : list MaskRange) : Prop :=
  match l with
  | [] => True
  | r :: rs =>
      lo <= range_start r /\ range_start r < range_end r /\
      range_end r <= hi /\ asc_chain (range_end r) hi rs
  end.

(** The same, read from the last range to the first. *)
Fixpoint desc_chain (hi : nat) (l : list MaskRange) : Prop :=
  match l with
  | [] => True
  | r :: rs =>
      range_start r < range_end r /\ range_end r <= hi /\
      desc_chain (range_start r) rs
  end.

(** The ranges the replacement loop does not skip. *)
Definition replaced_ranges (text : str) (nodes : list LatexNode)
  : list MaskRange :=
  filter (fun r => negb (out_of_bounds text r))
         (sort_by_start_desc (traverse_nodes nodes)).

(** The working text and the table after the loop has gone through the
    ranges [P], none skipped, starting from counter [c]. *)
Fixpoint splice (P : list MaskRange) (c : nat) (w : str) : str :=
  match P with
  | [] => w
  | r :: P' =>
      splice P' (S c)
             (slice_assign w (range_start r) (range_end r)
                           (token (range_hint r) c))
  end.

Fixpoint table (text : str) (P : list MaskRange) (c : nat) : dict :=
  match P with
  | [] => []
  | r :: P' =>
      (token (range_hint r) c, slice text (range_start r) (range_end r))
      :: table text P' (S c)
  end.

(** The reserved beginning of every token. *)
Definition MASK_PREFIX : str := lit "[MASK_".

Definition bracket_freeb (h : str) : bool :=
  forallb (fun ch => negb (Ascii.eqb ch "[") && negb (Ascii.eqb ch "]")) h.

Definition bracket_free (h : str) : Prop :=
  Forall (fun ch => ch <> "["%char /\ ch <> "]"%char) h.

(** The number a string of decimal digits denotes. *)
Definition digits_value (s : str) : nat :=
  match NilEmpty.uint_of_string (string_of_list_ascii s) with
  | Some u => Nat.of_uint u
  | None => 0
  end.

Definition is_digit (ch : ascii) : bool :=
  let n := nat_of_ascii ch in (48 <=? n) && (n <=? 57).

(** A text as the maskers leave it, place by place: plain pieces, and
    masked places with the token that stands there and the original it
    stands for. *)
Inductive Item : Type :=
  | Plain (s : str)
  | Masked (key original : str).

(** The text with the tokens in place, and with the originals. *)
Definition masked_form (items : list Item) : str :=
  concat (map (fun it => match it with
                         | Plain s => s
                         | Masked k _ => k
                         end) items).

Definition unmasked_form (items : list Item) : str :=
  concat (map (fun it => match it with
                         | Plain s => s
                         | Masked _ v => v
                         end) items).

(** The places that hold [key] put back to their originals. *)
Definition resolve (key : str) (items : list Item) : list Item :=
  map (fun it => match it with
                 | Plain s => Plain s
                 | Masked k v => if str_eqb k key then Plain v else Masked k v
                 end) items.

(** A key as the maskers write it. *)
Definition is_token (k : str) : Prop :=
  exists h c, bracket_free h /\ k = token h c.

End Vocabulary.

(** ** src/translator.py and main.py: one file's content *)

Module Orchestrator.

Import Parser Translator.

Definition DEFAULT_MAX_CHARS : Z := 4000.

(** [not chunk.strip()] *)
Definition is_blank (chunk : str) : bool := negb (nonempty (strip chunk)).

Section File.

Variable json_loads : str -> option json.
(** The services as they answer while chunk number [i] is processed. *)
Variable svc : nat -> Services.
Variable recursion_limit : nat.

(** The loop of [translate_file_content] over [enumerate(chunks)], from
    index [i]; [None] when an [app.invoke] raises. *)
Fixpoint translate_chunks (terms : dict) (i : nat) (chunks : list str)
  : option (list str) :=
  match chunks with
  | [] => Some []
  | chunk :: rest =>
      let translated :=
        if is_blank chunk then Some chunk
        else
          match invoke (build_graph json_loads (svc i)) recursion_limit
                       (initial_run chunk i terms) with
          | Some result => Some (translated_chunk (state result))
          | None => None
          end in
      match translated with
      | Some t =>
          match translate_chunks terms (S i) rest with
          | Some ts => Some (t :: ts)
          | None => None
          end
      | None => None
      end
  end.

Definition translate_file_content (masked_content : str) (terms : dict)
  : option str :=
  let chunks := smart_split masked_content DEFAULT_MAX_CHARS in
  match translate_chunks terms 0 chunks with
  | Some translated_chunks => Some (concat translated_chunks)
  | None => None
  end.

(** [process_file_callback] of [main], from the content read to the text
    written back. *)
Definition process_file (get_latex_nodes : str -> option (list LatexNode))
  (terms : dict) (content : str) : option str :=
  let (masked_text, masks) := mask_content get_latex_nodes content in
  let translated_text :=
    if nonempty (strip masked_text)
    then translate_file_content masked_text terms
    else Some masked_text in
  match translated_text with
  | Some t => Some (unmask_content t masks)
  | None => None
  end.

End File.

End Orchestrator.

(** ** Vocabulary of the further statements *)

Module MoreVocabulary.

Import Parser Translator Vocabulary Orchestrator.

(** Nothing to strip at either end. *)
Definition stripped (s : str) : Prop := strip s = s.

Definition all_space (s : str) : Prop := Forall (fun c => isspace c = true) s.

(** The critic rejects whatever it is shown at its call number [j]. *)
Definition rejects_at (json_loads : str -> option json) (svc : Services)
  (j : nat) : Prop :=
  forall original translated,
    ~ accepted json_loads (critic_llm svc j original translated).

(** The critic accepts whatever it is shown at its call number [k]. *)
Definition accepts_at (json_loads : str -> option json) (svc : Services)
  (k : nat) : Prop :=
  forall original translated,
    accepted json_loads (critic_llm svc k original translated).

(** The type tag of the fallback's tokens. *)
Definition R_MATH : str := lit "R_MATH".

(** Every key of [m] is a token whose counter is below [c]. *)
Definition numbered (m : dict) (c : nat) : Prop :=
  forall k, In k (keys m) -> exists h j, j < c /\ k = token h j.

(** A table as the maskers build it: [c] entries, tokens pairwise
    distinct, counters below [c]. *)
Definition table_ok (m : dict) (c : nat) : Prop :=
  NoDup (keys m) /\ length m = c /\ numbered m c.

(** A text that opens and closes with a dollar. *)
Definition dollar_delimited (v : str) : Prop :=
  exists body, v = "$"%char :: body ++ ["$"%char].

(** What holds of the calls made so far when node [n] is about to run:
    before [translate] has run, and after. *)
Definition within_budget (n : GraphNode) (r : Run) : Prop :=
  match n with
  | translate => translate_calls r = 0 /\ fixer_calls r = 0
  | _ =>
      translate_calls r = 1 /\ fixer_calls r <= 3 /\
      fixer_calls r <= failed_attempts (state r)
  end.

(** The candidate translation is the original chunk or a stripped text. *)
Definition chunk_kept (r : Run) : Prop :=
  translated_chunk (state r) = original_chunk (state r)
  \/ stripped (translated_chunk (state r)).

(** Once the counter has passed the cap the chunk is back to the
    original. *)
Definition capped (chunk : str) (r : Run) : Prop :=
  original_chunk (state r) = chunk /\
  (4 <= failed_attempts (state r) -> translated_chunk (state r) = chunk).

(** The least the split pattern of [smart_split] takes: two newlines. *)
Definition BLANK_LINE : str := [nl; nl].

(** A piece that begins and ends with a blank line. *)
Definition blank_run (p : str) : bool :=
  startswith p BLANK_LINE && endswith p BLANK_LINE.

(** Every other piece of [l] is a [blank_run], from the first one on
    when [sep_first] holds and from the second one on otherwise. *)
Fixpoint alternating (sep_first : bool) (l : list str) : bool :=
  match l with
  | [] => true
  | p :: r =>
      (if sep_first then blank_run p else true) &&
      alternating (negb sep_first) r
  end.

(** Two consecutive chunks meet at a blank line: the first ends with one
    or the second begins with one. *)
Definition meet_at_blank_line (c1 c2 : str) : bool :=
  endswith c1 BLANK_LINE || startswith c2 BLANK_LINE.

Fixpoint cut_at_blank_lines (l : list str) : bool :=
  match l with
  | [] => true
  | c1 :: r =>
      match r with
      | [] => true
      | c2 :: _ => meet_at_blank_line c1 c2 && cut_at_blank_lines r
      end
  end.

(** A chunk that respects [max_chars], or else is one piece of the
    paragraph split by itself. *)
Definition fits (max_chars : Z) (pieces : list str) (c : str) : Prop :=
  (len c <= max_chars)%Z \/ In c pieces.

End MoreVocabulary.

(** ** Further concrete inputs *)

Module MoreScenarios.

Import Parser Translator Scenarios.

(** The critic rejects its first four calls and accepts the fifth; the
    translation and repair services answer. *)
Definition svc_fifth_time : Services :=
  mkServices (fun _ _ _ => Some (lit "Bonjour"))
             (fun n _ _ => if n <? 4 then Some answer_fail
                           else Some answer_pass)
             (fun _ _ _ _ _ => Some (lit "Bonjour bis")).

End MoreScenarios.

(** ** src/walker.py *)

Module Walker.

Import Translator.

(** [c.lower()] on code points below 256. *)
Definition lower_char (c : ascii) : ascii :=
  let n := nat_of_ascii c in
  if ((65 <=? n) && (n <=? 90))
     || ((192 <=? n) && (n <=? 222) && negb (n =? 215))
  then ascii_of_nat (n + 32) else c.

Definition lower (s : str) : str := map lower_char s.

(** What a path names: a file with its content, or something that
    exists and cannot be read as a file. *)
Inductive Entry : Type :=
  | File (content : str)
  | Dir.

Definition FS : Type := str -> option Entry.

(** [os.path.exists(path)] *)
Definition path_exists (fs : FS) (path : str) : bool :=
  match fs path with
  | Some _ => true
  | None => false
  end.

(** [open(path, 'r', ...).read()]; [None] when it raises. *)
Definition read (fs : FS) (path : str) : option str :=
  match fs path with
  | Some (File content) => Some content
  | _ => None
  end.

Definition TEX : str := lit ".tex".
Definition DOCUMENTCLASS : str := lit "\documentclass".
Definition priorities : list str :=
  [lit "main.tex"; lit "paper.tex"; lit "article.tex"].

(** [re.findall(r'\\(?:input|include)\s*\{([^}]+)\}', content)] *)

Definition INPUT : str := lit "\input".
Definition INCLUDE : str := lit "\include".

Definition is_open_brace (c : ascii) : bool := Ascii.eqb c "{"%char.
Definition is_close_brace (c : ascii) : bool := Ascii.eqb c "}"%char.

(** The characters up to the first closing brace, and what follows that
    brace. *)
Fixpoint until_brace (s : str) : option (str * str) :=
  match s with
  | [] => None
  | c :: t =>
      if is_close_brace c then Some ([], t)
      else
        match until_brace t with
        | Some (g, r) => Some (c :: g, r)
        | None => None
        end
  end.

(** A match of the pattern at the start of [s]: its group, and the text
    after the match. *)
Definition include_at (s : str) : option (str * str) :=
  let after :=
    if startswith s INPUT then Some (skipn (length INPUT) s)
    else if startswith s INCLUDE then Some (skipn (length INCLUDE) s)
    else None in
  match after with
  | Some a =>
      match lstrip a with
      | c :: b =>
          if is_open_brace c then
            match until_brace b with
            | Some (g, r) => if nonempty g then Some (g, r) else None
            | None => None
            end
          else None
      | [] => None
      end
  | None => None
  end.

(** [skip] counts the characters of a match just found that are still
    to be passed over. *)
Fixpoint findall_scan (skip : nat) (s : str) : list str :=
  match s with
  | [] => []
  | _ :: t =>
      match skip with
      | S k => findall_scan k t
      | O =>
          match include_at s with
          | Some (g, r) => g :: findall_scan (length s - length r - 1) t
          | None => findall_scan 0 t
          end
      end
  end.

Definition find_includes (content : str) : list str := findall_scan 0 content.

(** The walker's variables: the [visited] set, the file system, and the
    paths [process_callback] has been called with, in order. *)
Record WalkState : Type := mkWalkState {
  visited : list str;
  fs : FS;
  processed : list str
}.

Section Environment.

(** [os.path.join], [os.path.dirname], [os.path.basename],
    [os.path.normpath], and what [os.walk] yields as
    [(root, files)]. *)
Variable path_join : str -> str -> str.
Variable dirname : str -> str.
Variable basename : str -> str.
Variable normpath : str -> str.
Variable os_walk : FS -> str -> list (str * list str).

(** *** resolve_path *)
Definition resolve_path (f : FS) (base_dir current_file relative_path : str)
  : option str :=
  let candidate :=
    if negb (endswith relative_path TEX) then relative_path ++ TEX
    else relative_path in
  let current_dir := dirname current_file in
  let path_from_current := path_join current_dir candidate in
  if path_exists f path_from_current then Some (normpath path_from_current)
  else
    let path_from_root := path_join base_dir candidate in
    if path_exists f path_from_root then Some (normpath path_from_root)
    else None.

(** *** find_main_tex *)

(** The loop over the files of one directory; [None] when a read
    raises. *)
Fixpoint scan_files (f : FS) (root : str) (files : list str)
  (candidates : list str) : option (list str) :=
  match files with
  | [] => Some candidates
  | name :: rest =>
      if endswith name TEX then
        let full_path := path_join root name in
        match read f full_path with
        | Some content =>
            scan_files f root rest
              (if contains content DOCUMENTCLASS
               then candidates ++ [full_path] else candidates)
        | None => None
        end
      else scan_files f root rest candidates
  end.

Fixpoint scan_walk (f : FS) (walk : list (str * list str))
  (candidates : list str) : option (list str) :=
  match walk with
  | [] => Some candidates
  | (root, files) :: rest =>
      match scan_files f root files candidates with
      | Some candidates' => scan_walk f rest candidates'
      | None => None
      end
  end.

(** The inner loop of the priority search. *)
Fixpoint first_named (p : str) (candidates : list str) : option str :=
  match candidates with
  | [] => None
  | c :: rest =>
      if str_eqb (lower (basename c)) p then Some c
      else first_named p rest
  end.

Fixpoint by_priority (ps : list str) (candidates : list str) : option str :=
  match ps with
  | [] => None
  | p :: rest =>
      match first_named p candidates with
      | Some c => Some c
      | None => by_priority rest candidates
      end
  end.

(** The outer [None] is an exception, the inner one the value [None]. *)
Definition find_main_tex (f : FS) (sandbox_dir : str)
  : option (option str) :=
  match scan_walk f (os_walk f sandbox_dir) [] with
  | None => None
  | Some candidates =>
      if negb (nonempty candidates) then Some None
      else
        match by_priority priorities candidates with
        | Some c => Some (Some c)
        | None => Some (hd_error candidates)
        end
  end.

(** *** walk_and_process *)

(** [process_callback], as a change of the file system; its first
    argument counts the calls made before.  What it raises is caught by
    the walker. *)
Variable process_callback : nat -> str -> FS -> FS.

Variable sandbox_dir : str.

(** The loop of [dfs] over [includes]; [visit] is the recursive call.
    The boolean is [false] when an exception leaves the walk. *)
Fixpoint visit_includes (visit : str -> WalkState -> WalkState * bool)
  (current_path : str) (includes : list str) (w : WalkState)
  : WalkState * bool :=
  match includes with
  | [] => (w, true)
  | inc_path :: rest =>
      match resolve_path (fs w) sandbox_dir current_path inc_path with
      | Some full_inc_path =>
          let (w', ok) := visit full_inc_path w in
          if ok then visit_includes visit current_path rest w'
          else (w', false)
      | None => visit_includes visit current_path rest w
      end
  end.

(** [depth] bounds how deep the calls of [dfs] may nest before the
    interpreter raises [RecursionError]. *)
Fixpoint dfs (depth : nat) (current_path : str) (w : WalkState)
  : WalkState * bool :=
  match depth with
  | O => (w, false)
  | S d =>
      if mem current_path (visited w) then (w, true)
      else
        let w1 :=
          mkWalkState (visited w ++ [current_path])
                      (process_callback (length (processed w)) current_path
                                        (fs w))
                      (processed w ++ [current_path]) in
        match fs w1 current_path with
        | None => (w1, true)
        | Some Dir => (w1, false)
        | Some (File content) =>
            visit_includes (dfs d) current_path (find_includes content) w1
        end
  end.

Definition walk_and_process (entry_file : str) (f : FS) (depth : nat)
  : WalkState * bool :=
  dfs depth entry_file (mkWalkState [] f []).

End Environment.

End Walker.

(** ** Vocabulary of the statements about the walker *)

Module WalkerVocabulary.

Import Walker.

(** A path [find_main_tex] collects: a [.tex] file of the walk whose
    content holds [\documentclass]. *)
Definition is_candidate (path_join : str -> str -> str)
  (walk : list (str * list str)) (f : FS) (c : str) : Prop :=
  exists root files name content,
    In (root, files) walk /\ In name files /\
    endswith name TEX = true /\ c = path_join root name /\
    read f c = Some content /\ contains content DOCUMENTCLASS = true.

(** The place of a path's name in [priorities], or their number. *)
Fixpoint rank_in (ps : list str) (name : str) : nat :=
  match ps with
  | [] => 0
  | p :: rest => if str_eqb name p then 0 else S (rank_in rest name)
  end.

Definition rank (basename : str -> str) (c : str) : nat :=
  rank_in priorities (lower (basename c)).

(** The paths of [universe] not yet in [seen]. *)
Definition unseen (universe seen : list str) : list str :=
  filter (fun p => negb (mem p seen)) universe.

(** Every processed path is in [visited], and none was processed
    twice. *)
Definition once (w : WalkState) : Prop :=
  NoDup (processed w) /\ forall p, In p (processed w) -> In p (visited w).

(** From [w] to [w']: [once] is kept, and calls are only added. *)
Definition extends (w w' : WalkState) : Prop :=
  (once w -> once w') /\ exists more, processed w' = processed w ++ more.

End WalkerVocabulary.

(** ** A small project for the walker *)

Module WalkerScenarios.

Import Walker.

Definition slash : ascii := "/"%char.

(** The text after the last slash. *)
Fixpoint after_last_slash (cur s : str) : str :=
  match s with
  | [] => cur
  | c :: t =>
      if Ascii.eqb c slash then after_last_slash [] t
      else after_last_slash (cur ++ [c]) t
  end.

Definition toy_join (a b : str) : str := a ++ slash :: b.
Definition toy_dirname (_ : str) : str := lit "proj".
Definition toy_basename (p : str) : str := after_last_slash [] p.
Definition toy_normpath (p : str) : str := p.

Definition main_path : str := lit "proj/main.tex".
Definition intro_path : str := lit "proj/intro.tex".
Definition notes_path : str := lit "proj/Paper.tex".

(** [main.tex] includes [intro], and [intro.tex] includes [main.tex]
    back. *)
Definition main_content : str :=
  lit "\documentclass{article} \input{intro} \include {missing}".
Definition intro_content : str := lit "Intro. \input{main.tex}".
Definition notes_content : str := lit "\documentclass{book}".

Definition toy_fs : FS :=
  fun p =>
    if str_eqb p main_path then Some (File main_content)
    else if str_eqb p intro_path then Some (File intro_content)
    else if str_eqb p notes_path then Some (File notes_content)
    else None.

Definition toy_walk (_ : FS) (_ : str) : list (str * list str) :=
  [(lit "proj", [lit "Paper.tex"; lit "intro.tex"; lit "main.tex";
                 lit "refs.bib"])].

(** A callback that leaves every file as it is. *)
Definition keep (_ : nat) (_ : str) (f : FS) : FS := f.

(** The paths of the project, and a file system that reads as
    [toy_fs]. *)
Definition toy_universe : list str := [main_path; intro_path; notes_path].

Definition as_toy_fs (f : FS) : Prop := forall p, f p = toy_fs p.

End WalkerScenarios.

(** * Properties *)

Import Parser Translator Vocabulary Scenarios.

(** ** Checks of the model on concrete inputs *)

Section Checks.

Example replace_leftmost_non_overlapping :
  replace (lit "aaa") (lit "aa") (lit "b") = lit "ba".
Proof. reflexivity. Qed.

Example replace_empty_pattern :
  replace (lit "abc") [] (lit "-") = lit "-a-b-c-".
Proof. reflexivity. Qed.

Example split_keeps_trailing_piece :
  split (lit "a--b--") (lit "--") = [lit "a"; lit "b"; []].
Proof. reflexivity. Qed.

Example strip_both_ends :
  strip ([nl] ++ lit "  a b " ++ [nl]) = lit "a b".
Proof. reflexivity. Qed.

Example fmt04_pads :
  fmt04 7 = lit "0007" /\ fmt04 (10 * 1000 + 1) = lit "10001".
Proof. split; reflexivity. Qed.

Example sort_is_stable :
  sort_by_start_desc [(5, 6, lit "A"); (9, 10, lit "B"); (5, 7, lit "C")]
  = [(9, 10, lit "B"); (5, 6, lit "A"); (5, 7, lit "C")].
Proof. reflexivity. Qed.

Example re_split_keeps_runs :
  re_split_paragraphs [] (lit "ab" ++ [nl; nl; nl] ++ lit "cd" ++ [nl]
                          ++ lit "e" ++ [nl; nl])
  = [lit "ab"; [nl; nl; nl]; lit "cd" ++ [nl] ++ lit "e"; [nl; nl]; []].
Proof. reflexivity. Qed.

Example smart_split_closes_full_chunks :
  smart_split (lit "ab" ++ [nl; nl] ++ lit "cd" ++ [nl; nl] ++ lit "efgh") 4
  = [lit "ab" ++ [nl; nl]; lit "cd" ++ [nl; nl]; lit "efgh"].
Proof. reflexivity. Qed.

Example fallback_masks_math_only :
  mask_content_regex_fallback (lit "cost \$5, $x$ and $$y$$ \cite{k}")
  = (lit "cost \$5, [MASK_R_MATH_0001] and [MASK_R_MATH_0000] \cite{k}",
     [(lit "[MASK_R_MATH_0000]", lit "$$y$$");
      (lit "[MASK_R_MATH_0001]", lit "$x$")]).
Proof. reflexivity. Qed.

Example critic_answer_in_fences :
  unfence (lit "```json" ++ [nl] ++ answer_pass ++ [nl] ++ lit "```")
  = Some answer_pass.
Proof. reflexivity. Qed.

End Checks.

(** ** Chunk segmenter *)

Section SmartSplit.

Lemma re_split_concat_bounded (n : nat) :
  forall s, length s <= n ->
    (forall cur, concat (re_split_paragraphs cur s) = cur ++ s) /\
    (forall run, concat (newline_run run s) = run ++ s).
Proof.
  induction n as [|n IH]; intros s Hlen.
  - destruct s; [|simpl in Hlen; lia].
    split; intros; simpl; now rewrite ?app_nil_r.
  - destruct s as [|c t].
    + split; intros; simpl; now rewrite ?app_nil_r.
    + simpl in Hlen.
      assert (Ht : length t <= n) by lia.
      destruct (IH t Ht) as [IHp IHr].
      split.
      * intros cur. simpl.
        destruct (is_nl c).
        -- destruct t as [|c2 t2].
           ++ simpl. now rewrite app_nil_r.
           ++ destruct (is_nl c2).
              ** simpl in Ht.
                 destruct (IH t2 ltac:(lia)) as [_ IHr2].
                 simpl. now rewrite IHr2.
              ** rewrite IHp. now rewrite <- app_assoc.
        -- rewrite IHp. now rewrite <- app_assoc.
      * intros run. simpl.
        destruct (is_nl c).
        -- rewrite IHr. now rewrite <- app_assoc.
        -- simpl. now rewrite IHp.
Qed.

Lemma re_split_concat (text : str) :
  concat (re_split_paragraphs [] text) = text.
Proof.
  apply (proj1 (re_split_concat_bounded (length text) text (le_n _)) []).
Qed.

Lemma split_step_concat (max_chars : Z) (st : SplitState) (para : str) :
  let st' := split_step max_chars st para in
  concat (chunks st') ++ concat (current_chunk st')
  = (concat (chunks st) ++ concat (current_chunk st)) ++ para.
Proof.
  unfold split_step.
  destruct (_ && _); simpl;
    rewrite ?concat_app; simpl; rewrite ?app_nil_r; now rewrite ?app_assoc.
Qed.

Lemma split_loop_concat (max_chars : Z) (paras : list str) :
  forall st,
    let st' := fold_left (split_step max_chars) paras st in
    concat (chunks st') ++ concat (current_chunk st')
    = (concat (chunks st) ++ concat (current_chunk st)) ++ concat paras.
Proof.
  induction paras as [|p ps IH]; intros st; simpl.
  - now rewrite app_nil_r.
  - rewrite IH, split_step_concat. now rewrite <- !app_assoc.
Qed.

(** C4. Concatenating the chunks of [smart_split text max_chars] in order
    gives back [text], character for character, blank-line runs
    included; this holds for every [max_chars], in particular for
    [max_chars >= 1]. *)
Theorem smart_split_lossless (text : str) (max_chars : Z) :
  concat (smart_split text max_chars) = text.
Proof.
  unfold smart_split.
  pose proof (split_loop_concat max_chars (re_split_paragraphs [] text)
                                (mkSplitState [] [] 0%Z)) as H.
  simpl in H. rewrite re_split_concat in H.
  destruct (current_chunk _) as [|x xs] eqn:E; simpl.
  - simpl in H. now rewrite app_nil_r in H.
  - rewrite concat_app. simpl. rewrite app_nil_r. exact H.
Qed.

End SmartSplit.

(** ** Translation pipeline *)

Section Critic.

Variable json_loads : str -> option json.

Lemma judge_cases (result : json) :
  (judge result = Some (JArr []) /\
   exists fields, result = JObj fields /\
     truthy (flag fields "safe") = true /\
     truthy (flag fields "syntax_valid") = true /\
     truthy (flag fields "quality_pass") = true)
  \/
  ((judge result = None \/ exists e, judge result = Some e /\ truthy e = true)
   /\ forall fields, result = JObj fields ->
        truthy (flag fields "safe") && truthy (flag fields "syntax_valid")
        && truthy (flag fields "quality_pass") = false).
Proof.
  destruct result as [| b | z | s | items | fields];
    try (right; split; [now left | discriminate]).
  unfold judge, flag; cbv zeta.
  generalize (dict_get fields (lit "errors") (JArr [])) as errs.
  intros errs.
  destruct (truthy (dict_get fields (lit "safe") (JBool false))
            && truthy (dict_get fields (lit "syntax_valid") (JBool false))
            && truthy (dict_get fields (lit "quality_pass") (JBool false)))
    eqn:Hflags.
  - left. split; [reflexivity|].
    exists fields. apply andb_prop in Hflags as [H12 H3].
    apply andb_prop in H12 as [H1 H2]. auto.
  - right. split.
    + destruct errs as [| [|] | z | [|c s] | [|x l] | [|kv f]];
        cbn [truthy negb nonempty];
        try (now left);
        try (right; eexists; split; [reflexivity | reflexivity]).
      destruct (z =? 0)%Z eqn:Hz; cbn [negb]; [now left|].
      right; eexists; split; [reflexivity|]. cbn [truthy]. now rewrite Hz.
    + intros f [= <-]. exact Hflags.
Qed.

Lemma critique_cases (response : option str) :
  (critique json_loads response = (JArr [], [])
   /\ accepted json_loads response)
  \/ (truthy (fst (critique json_loads response)) = true
      /\ ~ accepted json_loads response).
Proof.
  unfold critique, accepted, decoded.
  destruct response as [raw|].
  2:{ right. split; [reflexivity|]. intros (?&(?&?&H&_)&_). discriminate. }
  destruct (unfence (strip raw)) as [content|] eqn:Hu.
  2:{ right. split; [reflexivity|]. intros (?&(?&?&[= <-]&H&_)&_).
      congruence. }
  destruct (json_loads content) as [result|] eqn:Hj.
  2:{ right. split; [reflexivity|]. intros (?&(?&?&[= <-]&H1&H2)&_).
      congruence. }
  destruct (judge_cases result) as [[Hok (fields & -> & H1 & H2 & H3)]
                                   | [Hbad Hflags]].
  - left. rewrite Hok. split; [reflexivity|].
    exists fields. split; [exists raw, content|]; repeat split; assumption.
  - right. split.
    + destruct Hbad as [-> | (e & -> & He)]; [reflexivity | exact He].
    + intros (fields & (raw' & content' & [= <-] & Hu' & Hj') & H1 & H2 & H3).
      rewrite Hu in Hu'. injection Hu' as <-.
      rewrite Hj in Hj'. injection Hj' as ->.
      specialize (Hflags fields eq_refl).
      rewrite H1, H2, H3 in Hflags. discriminate.
Qed.

Lemma critique_undecoded (response : option str) :
  (forall fields, ~ decoded json_loads response fields) ->
  critique json_loads response = (PARSE_FAILED, [CriticParseFailed]).
Proof.
  intros Hno. unfold critique.
  destruct response as [raw|]; [|reflexivity].
  destruct (unfence (strip raw)) as [content|] eqn:Hu; [|reflexivity].
  destruct (json_loads content) as [result|] eqn:Hj; [|reflexivity].
  destruct result as [| b | z | s | items | fields]; try reflexivity.
  exfalso. apply (Hno fields). exists raw, content. auto.
Qed.

Variable svc : Services.

Lemma critic_node_state (r : Run) :
  state (critic_node json_loads svc r)
  = set_errors (state r) (fst (critique json_loads (critic_response svc r))).
Proof.
  unfold critic_node, critic_response.
  now destruct (critique json_loads _).
Qed.

Lemma check_critic_pass (s : TranslationState) :
  check_critic s = pass <-> truthy (critic_errors s) = false.
Proof.
  unfold check_critic. destruct (truthy (critic_errors s)); simpl;
    split; congruence.
Qed.


Lemma critic_verdict (r : Run) :
  check_critic (state (critic_node json_loads svc r)) = pass
  <-> accepted json_loads (critic_response svc r).
Proof.
  rewrite critic_node_state, check_critic_pass. simpl.
  destruct (critique_cases (critic_response svc r))
    as [[-> Hacc] | [Hrej Hno]].
  - simpl. tauto.
  - rewrite Hrej. split; [discriminate | tauto].
Qed.

Lemma critic_pass_clears (r : Run) :
  check_critic (state (critic_node json_loads svc r)) = pass ->
  critic_errors (state (critic_node json_loads svc r)) = JArr [].
Proof.
  intros Hp. apply critic_verdict in Hp.
  rewrite critic_node_state. simpl.
  destruct (critique_cases (critic_response svc r)) as [[-> _] | [_ Hno]];
    [reflexivity | tauto].
Qed.

Lemma decoded_functional (response : option str)
  (fields fields' : list (str * json)) :
  decoded json_loads response fields ->
  decoded json_loads response fields' -> fields = fields'.
Proof.
  intros (raw & content & Hr & Hu & Hj) (raw' & content' & Hr' & Hu' & Hj').
  rewrite Hr in Hr'. injection Hr' as <-.
  rewrite Hu in Hu'. injection Hu' as <-.
  rewrite Hj in Hj'. now injection Hj' as <-.
Qed.

(** C9 (amended). [critic_node] reports a passing critique exactly when
    the answer decodes to a JSON object whose [safe], [syntax_valid] and
    [quality_pass] entries are all true in Python's sense; the error list
    is then empty.  In every other case the error list it returns is
    non-empty, so [check_critic] says "fail"; when the answer cannot be
    decoded to an object the list is the synthetic "Critic parsing
    failed".  When the three entries are JSON booleans, passing means all
    three are [true]. *)
Theorem critic_pass_iff_flags_truthy (r : Run) :
  let response := critic_response svc r in
  let r' := critic_node json_loads svc r in
  (check_critic (state r') = pass <-> accepted json_loads response) /\
  (check_critic (state r') = pass -> critic_errors (state r') = JArr []) /\
  (check_critic (state r') = fail ->
     truthy (critic_errors (state r')) = true) /\
  ((forall fields, ~ decoded json_loads response fields) ->
     critic_errors (state r') = PARSE_FAILED /\
     check_critic (state r') = fail) /\
  (forall fields b1 b2 b3,
     decoded json_loads response fields ->
     flag fields "safe" = JBool b1 ->
     flag fields "syntax_valid" = JBool b2 ->
     flag fields "quality_pass" = JBool b3 ->
     (check_critic (state r') = pass <->
      b1 = true /\ b2 = true /\ b3 = true)).
Proof.
  cbv zeta.
  split; [apply critic_verdict|].
  split; [apply critic_pass_clears|].
  split; [|split].
  - unfold check_critic.
    destruct (truthy (critic_errors (state (critic_node json_loads svc r))));
      [reflexivity | discriminate].
  - intros Hno. rewrite critic_node_state.
    rewrite (critique_undecoded _ Hno). split; reflexivity.
  - intros fields b1 b2 b3 Hdec H1 H2 H3. rewrite critic_verdict.
    unfold accepted. split.
    + intros (fields' & Hdec' & T1 & T2 & T3).
      rewrite <- (decoded_functional _ _ _ Hdec Hdec') in T1, T2, T3.
      rewrite H1 in T1. rewrite H2 in T2. rewrite H3 in T3. auto.
    + intros (-> & -> & ->). exists fields.
      rewrite H1, H2, H3. auto.
Qed.

End Critic.

(** C9, as stated, fails: here the critic's answer carries the three
    flags as the strings "false"; none of them is the boolean [true],
    yet the critique passes. *)
Lemma critic_accepts_string_flags :
  let r := translate_node svc_string_flags
             (initial_run hello 0 []) in
  let r' := critic_node loads svc_string_flags r in
  check_critic (state r') = pass /\
  ~ (exists fields,
       decoded loads
               (critic_response svc_string_flags r) fields /\
       flag fields "safe" = JBool true /\
       flag fields "syntax_valid" = JBool true /\
       flag fields "quality_pass" = JBool true).
Proof.
  cbv zeta. split; [vm_compute; reflexivity|].
  intros (fields & (raw & content & Hr & Hu & Hj) & H1 & _).
  vm_compute in Hr. injection Hr as <-.
  vm_compute in Hu. injection Hu as <-.
  vm_compute in Hj. injection Hj as <-.
  vm_compute in H1. discriminate.
Qed.

(** One execution step of the compiled graph, with the edge taken
    ([graph_step]) or left as [next_node] ([graph_node]). *)
Ltac graph_node :=
  cbn [run_from build_graph entry_point node_action successor run_node].
Ltac graph_node_in H :=
  cbn [run_from build_graph entry_point node_action successor run_node] in H.
Ltac graph_step := graph_node; cbn [next_node].
Ltac graph_step_in H := graph_node_in H; cbn [next_node] in H.

Section Pipeline.

Variable json_loads : str -> option json.
Variable svc : Services.

Lemma run_from_END (steps : nat) (r : Run) :
  run_from (build_graph json_loads svc) (S steps) END r = Some r.
Proof. reflexivity. Qed.

Lemma run_from_END_inv (steps : nat) (r r' : Run) :
  run_from (build_graph json_loads svc) steps END r = Some r' -> r' = r.
Proof. destruct steps; [discriminate|]. now intros [= <-]. Qed.

Lemma run_from_more (steps : nat) :
  forall n r r', run_from (build_graph json_loads svc) steps n r = Some r' ->
    forall extra, run_from (build_graph json_loads svc) (steps + extra) n r = Some r'.
Proof.
  induction steps as [|k IH]; intros n r r' H extra; [discriminate|].
  destruct n; simpl in *; try (now apply IH). exact H.
Qed.

Lemma critic_rejected_next (r : Run) :
  ~ accepted json_loads (critic_response svc r) ->
  next_node critic (critic_node json_loads svc r) = fixer.
Proof.
  intros Hno. simpl.
  destruct (check_critic (state (critic_node json_loads svc r))) eqn:E;
    [|reflexivity].
  apply critic_verdict in E. tauto.
Qed.

Lemma critic_accepted_next (r : Run) :
  accepted json_loads (critic_response svc r) ->
  next_node critic (critic_node json_loads svc r) = END.
Proof.
  intros Hacc. simpl. apply critic_verdict in Hacc. now rewrite Hacc.
Qed.

(** With a critic that never accepts, no node ever hands over to END. *)
Lemma rejecting_critic_never_ends :
  critic_always_rejects json_loads svc ->
  forall steps n r, n <> END -> run_from (build_graph json_loads svc) steps n r = None.
Proof.
  intros Hrej steps.
  induction steps as [|k IH]; intros n r Hn.
  - reflexivity.
  - destruct n; try congruence.
    + simpl. apply IH. discriminate.
    + graph_node.
      rewrite critic_rejected_next by apply Hrej.
      apply IH. discriminate.
    + simpl. apply IH. discriminate.
Qed.

(** Once reverted, a chunk stays reverted through critic and fixer. *)
Lemma critic_keeps_reverted (chunk : str) (r : Run) :
  reverted chunk r -> reverted chunk (critic_node json_loads svc r).
Proof.
  unfold reverted. rewrite critic_node_state. simpl. tauto.
Qed.

Lemma fixer_keeps_reverted (chunk : str) (r : Run) :
  reverted chunk r -> reverted chunk (fixer_node svc r).
Proof.
  unfold reverted, fixer_node. intros (Ho & Ht & Hf).
  destruct (3 <? failed_attempts (state r) + 1) eqn:E.
  - simpl. repeat split; try assumption. lia.
  - apply Nat.ltb_ge in E. lia.
Qed.

Lemma critic_calls_fixer (r : Run) :
  critic_calls (fixer_node svc r) = critic_calls r.
Proof.
  unfold fixer_node.
  destruct (3 <? _); [reflexivity|].
  now destruct (fixer_llm _ _ _ _ _ _).
Qed.

Lemma critic_calls_critic (r : Run) :
  critic_calls (critic_node json_loads svc r) = S (critic_calls r).
Proof.
  unfold critic_node. now destruct (critique _ _).
Qed.

Lemma reverted_response (chunk : str) (r : Run) :
  reverted chunk r ->
  critic_response svc r = critic_llm svc (critic_calls r) chunk chunk.
Proof.
  unfold reverted, critic_response. now intros (-> & -> & _).
Qed.

(** Whatever the critic answers, a run that ends from a reverted chunk
    ends reverted, with the error list empty. *)
Lemma reverted_at_end (chunk : str) (steps : nat) :
  forall n r r',
    n = critic \/ n = fixer ->
    reverted chunk r ->
    run_from (build_graph json_loads svc) steps n r = Some r' ->
    reverted chunk r' /\ critic_errors (state r') = JArr [].
Proof.
  induction steps as [|k IH]; intros n r r' Hn Hrev Hrun.
  - discriminate.
  - destruct Hn as [-> | ->].
    + graph_node_in Hrun.
      destruct (check_critic (state (critic_node json_loads svc r))) eqn:E.
      * rewrite critic_accepted_next in Hrun by now apply critic_verdict.
        apply run_from_END_inv in Hrun. subst r'.
        split; [now apply critic_keeps_reverted|].
        now apply critic_pass_clears.
      * rewrite critic_rejected_next in Hrun.
        2:{ intros Hacc. apply critic_verdict in Hacc. congruence. }
        apply (IH fixer _ _ (or_intror eq_refl)
                  (critic_keeps_reverted _ _ Hrev) Hrun).
    + simpl in Hrun.
      apply (IH critic _ _ (or_introl eq_refl)
                (fixer_keeps_reverted _ _ Hrev) Hrun).
Qed.

(** If the critic's call number [c + k] is the first it accepts, the run
    ends after [2k + 1] further node executions, and so within
    [2k + 2] steps. *)
Lemma reverted_run_ends (chunk : str) (k : nat) :
  forall r,
    reverted chunk r ->
    (forall j, j < k ->
       ~ accepted json_loads
           (critic_llm svc (critic_calls r + j) chunk chunk)) ->
    accepted json_loads (critic_llm svc (critic_calls r + k) chunk chunk) ->
    exists r',
      run_from (build_graph json_loads svc) (2 * k + 2) critic r = Some r' /\
               critic_calls r' = critic_calls r + k + 1.
Proof.
  induction k as [|k IH]; intros r Hrev Hrej Hacc.
  - rewrite Nat.add_0_r in Hacc.
    cbn [Nat.mul Nat.add]; graph_node.
    rewrite critic_accepted_next
      by (rewrite (reverted_response chunk r Hrev); exact Hacc).
    eexists. split; [reflexivity|].
    rewrite critic_calls_critic. lia.
  - replace (2 * S k + 2) with (S (S (2 * k + 2))) by lia.
    graph_node.
    rewrite critic_rejected_next.
    2:{ rewrite (reverted_response chunk r Hrev).
        specialize (Hrej 0 ltac:(lia)). now rewrite Nat.add_0_r in Hrej. }
    graph_step.
    set (r2 := fixer_node svc (critic_node json_loads svc r)).
    assert (Hc : critic_calls r2 = S (critic_calls r)).
    { unfold r2. now rewrite critic_calls_fixer, critic_calls_critic. }
    destruct (IH r2) as (r' & Hrun & Hcalls).
    + apply fixer_keeps_reverted, critic_keeps_reverted, Hrev.
    + intros j Hj. rewrite Hc.
      replace (S (critic_calls r) + j) with (critic_calls r + S j) by lia.
      apply Hrej. lia.
    + rewrite Hc.
      replace (S (critic_calls r) + k) with (critic_calls r + S k) by lia.
      exact Hacc.
    + exists r'. split; [exact Hrun|]. lia.
Qed.

Lemma log_grows_node (n : GraphNode) (r : Run) :
  exists extra, log (run_node json_loads svc n r) = log r ++ extra.
Proof.
  destruct n; simpl.
  - unfold translate_node. destruct (translate_llm _ _ _ _); simpl.
    + exists []. now rewrite app_nil_r.
    + eauto.
  - unfold critic_node. destruct (critique _ _). simpl. eauto.
  - unfold fixer_node. destruct (3 <? _); simpl; [eauto|].
    destruct (fixer_llm _ _ _ _ _ _); simpl; [|eauto].
    exists []. now rewrite app_nil_r.
  - exists []. now rewrite app_nil_r.
Qed.

Lemma log_grows_run (steps : nat) :
  forall n r r', run_from (build_graph json_loads svc) steps n r = Some r' ->
                 exists extra, log r' = log r ++ extra.
Proof.
  induction steps as [|k IH]; intros n r r' Hrun.
  - discriminate.
  - destruct n;
      try (cbn [run_from build_graph node_action successor] in Hrun;
           apply IH in Hrun as [e2 He2];
           match type of He2 with
           | context [run_node _ _ ?n r] =>
               destruct (log_grows_node n r) as [e1 He1]
           end;
           rewrite He1 in He2; exists (e1 ++ e2);
           now rewrite He2, app_assoc).
    injection Hrun as <-. exists []. now rewrite app_nil_r.
Qed.

Lemma translate_node_down (r : Run) :
  translation_down svc ->
  translate_node svc r
  = mkRun (set_errors (set_translated (state r) (original_chunk (state r)) 999)
                      (JArr [JStr (lit "LLM Call Failed")]))
          (S (translate_calls r)) (critic_calls r) (fixer_calls r)
          (log r ++ [TranslationCallFailed]).
Proof.
  intros Hdown. unfold translate_node. now rewrite Hdown.
Qed.

(** C3 (amended). When every call of the translation service raises,
    [translate_node] writes the original chunk as the translation, sets
    the attempt counter to 999, records "LLM Call Failed" in the error
    list and logs the failure; control then passes to the critic, not to
    END.  Every run that ends returns the original chunk, with the error
    list emptied by the critic and the failure still in the log; and the
    run does end, after [2k + 2] node executions and so under every
    recursion limit above [2k + 2], as soon as the critic accepts the
    untranslated chunk at its call number [k]. *)
Theorem outage_reverts_through_critic (chunk : str) (i : nat) (terms : dict) :
  translation_down svc ->
  let r0 := initial_run chunk i terms in
  let r1 := translate_node svc r0 in
  (translated_chunk (state r1) = chunk /\
   failed_attempts (state r1) = 999 /\
   critic_errors (state r1) = JArr [JStr (lit "LLM Call Failed")] /\
   log r1 = [TranslationCallFailed]) /\
  next_node translate r1 = critic /\
  (forall limit r',
     invoke (build_graph json_loads svc) limit r0 = Some r' ->
     translated_chunk (state r') = chunk /\
     critic_errors (state r') = JArr [] /\
     In TranslationCallFailed (log r')) /\
  (forall k,
     (forall j, j < k ->
        ~ accepted json_loads (critic_llm svc j chunk chunk)) ->
     accepted json_loads (critic_llm svc k chunk chunk) ->
     forall limit, 2 * k + 3 <= limit ->
     exists r', invoke (build_graph json_loads svc) limit r0 = Some r' /\
                translated_chunk (state r') = chunk /\
                critic_calls r' = k + 1).
Proof.
  intros Hdown. cbv zeta.
  rewrite (translate_node_down _ Hdown).
  set (r1 := mkRun _ _ _ _ _).
  assert (Hrev : reverted chunk r1)
    by (unfold reverted, r1; simpl; repeat split; lia).
  split; [simpl; auto|].
  split; [reflexivity|].
  split.
  - intros limit r' Hrun. unfold invoke in Hrun.
    destruct limit as [|limit]; [discriminate|].
    graph_step_in Hrun.
    rewrite (translate_node_down _ Hdown) in Hrun. fold r1 in Hrun.
    destruct (reverted_at_end chunk limit critic r1 r'
                (or_introl eq_refl) Hrev Hrun) as [(_ & Ht & _) He].
    destruct (log_grows_run _ _ _ _ Hrun) as [extra Hlog].
    repeat split; try assumption.
    rewrite Hlog. simpl. now left.
  - intros k Hrej Hacc limit Hlimit.
    destruct (reverted_run_ends chunk k r1 Hrev) as (r' & Hrun & Hcalls).
    + simpl. exact Hrej.
    + simpl. exact Hacc.
    + exists r'.
      assert (Hinv : invoke (build_graph json_loads svc) limit
                            (initial_run chunk i terms) = Some r').
      { unfold invoke.
        replace limit with (S (2 * k + 2 + (limit - (2 * k + 3)))) by lia.
        graph_step.
        rewrite (translate_node_down _ Hdown). fold r1.
        now apply run_from_more. }
      split; [exact Hinv|].
      split; [|simpl in Hcalls; lia].
      unfold invoke in Hinv.
      destruct limit as [|limit]; [discriminate|].
      graph_step_in Hinv.
      rewrite (translate_node_down _ Hdown) in Hinv. fold r1 in Hinv.
      now destruct (reverted_at_end chunk limit critic r1 r'
                      (or_introl eq_refl) Hrev Hinv) as [(_ & Ht & _) _].
Qed.

End Pipeline.

Lemma answer_fail_rejected (svc : Services) :
  (forall n o t, critic_llm svc n o t = Some answer_fail) ->
  critic_always_rejects loads svc.
Proof.
  intros Hsvc n o t (fields & (raw & content & Hr & Hu & Hj) & H1 & _).
  rewrite Hsvc in Hr. injection Hr as <-.
  vm_compute in Hu. injection Hu as <-.
  vm_compute in Hj. injection Hj as <-.
  vm_compute in H1. discriminate.
Qed.

(** C2. With a critic that rejects every time the graph never reaches
    END, whatever the recursion limit: after the fourth fixer execution
    (nine node executions) the chunk is reverted, the error list is empty
    and the counter is 4, but the edge out of the fixer leads to the
    critic, which rejects again and refills the error list. *)
Theorem bounded_repair_never_exits :
  let r0 := initial_run hello 0 [] in
  critic_always_rejects loads svc_critic_rejects /\
  (forall limit, invoke (build_graph loads svc_critic_rejects) limit r0 = None) /\
  (let after9 := advance (build_graph loads svc_critic_rejects) 9 translate r0 in
   fst after9 = critic /\
   translated_chunk (state (snd after9)) = hello /\
   critic_errors (state (snd after9)) = JArr [] /\
   failed_attempts (state (snd after9)) = 4 /\
   fixer_calls (snd after9) = 3) /\
  (let after10 := advance (build_graph loads svc_critic_rejects) 10 translate r0 in
   fst after10 = fixer /\
   truthy (critic_errors (state (snd after10))) = true).
Proof.
  cbv zeta.
  assert (Hrej : critic_always_rejects loads svc_critic_rejects)
    by now apply answer_fail_rejected.
  split; [exact Hrej|].
  split.
  - intros limit. apply rejecting_critic_never_ends; [exact Hrej|discriminate].
  - split; vm_compute; repeat split; reflexivity.
Qed.

(** C3, as stated, fails: with the translation service down, the node
    executed after [translate] is [critic] (the critic service is called
    once before the run ends), so the state does not go directly from
    Translate to Done. *)
Lemma outage_still_runs_critic :
  let r0 := initial_run hello 0 [] in
  translation_down svc_outage /\
  fst (advance (build_graph loads svc_outage) 1 translate r0) <> END /\
  trace_from (build_graph loads svc_outage) 25 translate r0 = [translate; critic] /\
  option_map critic_calls (invoke (build_graph loads svc_outage) 25 r0) = Some 1.
Proof.
  cbv zeta. split; [intros n terms o; reflexivity|].
  split; [vm_compute; discriminate|].
  split; vm_compute; reflexivity.
Qed.

(** With the translation service down and a critic that rejects the
    untranslated chunk every time, the run never ends either. *)
Lemma outage_with_rejecting_critic_never_ends (limit : nat) :
  invoke (build_graph loads svc_outage_rejected) limit (initial_run hello 0 []) = None.
Proof.
  apply rejecting_critic_never_ends; [|discriminate].
  now apply answer_fail_rejected.
Qed.

Lemma outage_reverts_through_critic_witness :
  translation_down svc_outage /\
  exists r', invoke (build_graph loads svc_outage) 25 (initial_run hello 0 []) = Some r' /\
             translated_chunk (state r') = hello /\
             critic_calls r' = 1.
Proof.
  assert (Hdown : translation_down svc_outage) by (intros n terms o; reflexivity).
  split; [exact Hdown|].
  destruct (outage_reverts_through_critic loads svc_outage hello 0 [] Hdown)
    as (_ & _ & _ & Hends).
  apply (Hends 0); [intros j Hj; lia | | simpl; lia].
  exists (flags_fields (JBool true) (JBool true) (JBool true)).
  split; [|repeat split; reflexivity].
  exists answer_pass, answer_pass.
  repeat split; vm_compute; reflexivity.
Defined.

(** ** Facts about the string built-ins *)

Section StringFacts.

Lemma str_eqb_eq (a b : str) : str_eqb a b = true <-> a = b.
Proof.
  revert b. induction a as [|x a IH]; intros [|y b]; simpl;
    try (split; congruence).
  rewrite andb_true_iff, Ascii.eqb_eq, IH. split.
  - now intros [-> ->].
  - intros [= -> ->]. auto.
Qed.

Lemma str_eqb_refl (a : str) : str_eqb a a = true.
Proof. now apply str_eqb_eq. Qed.

Lemma str_eqb_neq (a b : str) : str_eqb a b = false <-> a <> b.
Proof.
  destruct (str_eqb a b) eqn:E.
  - apply str_eqb_eq in E. split; congruence.
  - split; [|reflexivity]. intros _ Heq. apply str_eqb_eq in Heq. congruence.
Qed.

Lemma startswith_spec (s pre : str) :
  startswith s pre = true <-> exists rest, s = pre ++ rest.
Proof.
  revert s. induction pre as [|a pre IH]; intros s; simpl.
  - split; [intros _; now exists s | reflexivity].
  - destruct s as [|b s].
    + split; [discriminate | intros [rest H]; discriminate].
    + rewrite andb_true_iff, Ascii.eqb_eq, IH. split.
      * intros [-> [rest ->]]. eauto.
      * intros [rest [= -> ->]]. eauto.
Qed.

Lemma startswith_app (pre rest : str) : startswith (pre ++ rest) pre = true.
Proof. apply startswith_spec. eauto. Qed.

Lemma startswith_length (s pre : str) :
  startswith s pre = true -> length pre <= length s.
Proof.
  intros H. apply startswith_spec in H as [rest ->].
  rewrite length_app. lia.
Qed.

Lemma startswith_skipn (s pre : str) :
  startswith s pre = true -> s = pre ++ skipn (length pre) s.
Proof.
  intros H. apply startswith_spec in H as [rest ->].
  now rewrite skipn_app, skipn_all, Nat.sub_diag.
Qed.

(** A prefix test only looks at the first [length pre] characters. *)
Lemma startswith_app_l (a b pre : str) :
  length pre <= length a ->
  startswith (a ++ b) pre = startswith a pre.
Proof.
  revert a. induction pre as [|x pre IH]; intros a Hlen; simpl.
  - reflexivity.
  - destruct a as [|y a]; simpl in *; [lia|].
    rewrite IH by lia. reflexivity.
Qed.

Lemma startswith_head (c : ascii) (s pre : str) (d : ascii) :
  startswith (c :: s) (d :: pre) = true -> d = c.
Proof.
  simpl. intros H. apply andb_prop in H as [H _]. now apply Ascii.eqb_eq in H.
Qed.

Lemma contains_spec (s sub : str) :
  contains s sub = true <-> exists a b, s = a ++ sub ++ b.
Proof.
  induction s as [|c s IH].
  - simpl. rewrite orb_false_r, startswith_spec. split.
    + intros [rest H]. exists [], rest. exact H.
    + intros (a & b & H). destruct a; [|discriminate]. eauto.
  - cbn [contains]. rewrite orb_true_iff, startswith_spec, IH. split.
    + intros [[rest H] | (a & b & H)].
      * exists [], rest. exact H.
      * exists (c :: a), b. now rewrite H.
    + intros (a & b & H). destruct a as [|x a].
      * left. eauto.
      * right. injection H as -> ->. eauto.
Qed.

Lemma contains_absent (s sub : str) :
  contains s sub = false <-> forall a b, s <> a ++ sub ++ b.
Proof.
  destruct (contains s sub) eqn:E.
  - apply contains_spec in E as (a & b & ->).
    split; [discriminate|]. intros H. exfalso. now apply (H a b).
  - split; [|reflexivity]. intros _ a b ->.
    assert (contains (a ++ sub ++ b) sub = true)
      by (apply contains_spec; eauto).
    congruence.
Qed.

Lemma contains_absent_part (a s b sub : str) :
  contains (a ++ s ++ b) sub = false -> contains s sub = false.
Proof.
  rewrite !contains_absent. intros H x y ->.
  apply (H (a ++ x) (y ++ b)). now rewrite <- !app_assoc.
Qed.

Lemma contains_absent_cons (c : ascii) (s sub : str) :
  contains (c :: s) sub = false ->
  startswith (c :: s) sub = false /\ contains s sub = false.
Proof. cbn [contains]. apply orb_false_elim. Qed.

(** *** replace *)

Lemma replace_scan_skip (old new : str) (k : nat) :
  forall s, k <= length s ->
    replace_scan old new k s = replace_scan old new 0 (skipn k s).
Proof.
  induction k as [|k IH]; intros s Hk.
  - reflexivity.
  - destruct s as [|c t]; simpl in *; [lia|]. apply IH. lia.
Qed.

Lemma replace_scan_hit (old new s : str) :
  old <> [] -> startswith s old = true ->
  replace_scan old new 0 s
  = new ++ replace_scan old new 0 (skipn (length old) s).
Proof.
  intros Hold Hs.
  pose proof (startswith_length _ _ Hs) as Hlen.
  destruct old as [|o old']; [congruence|].
  destruct s as [|c t]; [discriminate|].
  cbn [replace_scan]. rewrite Hs. f_equal.
  simpl in Hlen. simpl. rewrite Nat.sub_0_r. apply replace_scan_skip. lia.
Qed.

Lemma replace_scan_miss (old new : str) (c : ascii) (t : str) :
  startswith (c :: t) old = false ->
  replace_scan old new 0 (c :: t) = c :: replace_scan old new 0 t.
Proof. intros H. cbn [replace_scan]. now rewrite H. Qed.

Lemma replace_scan_absent (old new s : str) :
  contains s old = false -> replace_scan old new 0 s = s.
Proof.
  induction s as [|c t IH]; intros H; [reflexivity|].
  apply contains_absent_cons in H as [H1 H2].
  rewrite replace_scan_miss by exact H1. now rewrite IH.
Qed.

Lemma replace_nonempty (s old new : str) :
  old <> [] -> replace s old new = replace_scan old new 0 s.
Proof. destruct old; [congruence | reflexivity]. Qed.

Lemma contains_nil (s : str) : contains s [] = true.
Proof. now destruct s. Qed.

Lemma replace_absent (s old new : str) :
  contains s old = false -> replace s old new = s.
Proof.
  intros H. destruct old as [|o old'].
  - now rewrite contains_nil in H.
  - now apply replace_scan_absent.
Qed.

End StringFacts.

(** ** Unmasker *)

Section Unmask.

Lemma startswith_firstn_iff (s pre : str) :
  startswith s pre = true <-> firstn (length pre) s = pre.
Proof.
  split.
  - intros H. apply startswith_spec in H as [rest ->].
    now rewrite firstn_app, firstn_all, Nat.sub_diag, app_nil_r.
  - intros H. apply startswith_spec. exists (skipn (length pre) s).
    rewrite <- H at 1. now rewrite firstn_skipn.
Qed.

Lemma firstn_app_firstn (n k : nat) (a b : str) :
  n <= length a + k -> firstn n (a ++ firstn k b) = firstn n (a ++ b).
Proof.
  intros H. rewrite !firstn_app, firstn_firstn.
  now replace (Nat.min (n - length a) k) with (n - length a) by lia.
Qed.

Lemma startswith_window (a b pre : str) (k : nat) :
  length pre <= length a + k ->
  startswith (a ++ b) pre = true ->
  startswith (a ++ firstn k b) pre = true.
Proof.
  intros Hlen H. apply startswith_firstn_iff in H.
  apply startswith_firstn_iff. now rewrite firstn_app_firstn.
Qed.

Lemma unmatched_of_absent (old : str) :
  forall X R,
    contains (X ++ firstn (length old - 1) R) old = false ->
    unmatched old X R.
Proof.
  induction X as [|c X IH]; intros R H; [exact I|].
  cbn [unmatched]. simpl app in H.
  apply contains_absent_cons in H as [H1 H2]. split.
  - destruct (startswith ((c :: X) ++ R) old) eqn:E; [|reflexivity].
    apply (startswith_window (c :: X) R old (length old - 1)) in E.
    + simpl app in E. congruence.
    + simpl. lia.
  - now apply IH.
Qed.

Lemma unmatched_app (old X1 X2 R : str) :
  unmatched old X1 (X2 ++ R) -> unmatched old X2 R ->
  unmatched old (X1 ++ X2) R.
Proof.
  induction X1 as [|c X1 IH]; intros H1 H2; [exact H2|].
  simpl in *. destruct H1 as [H1 H1'].
  split.
  - now rewrite <- app_assoc.
  - now apply IH.
Qed.

Lemma replace_scan_pass (old new : str) :
  forall X R, unmatched old X R ->
    replace_scan old new 0 (X ++ R) = X ++ replace_scan old new 0 R.
Proof.
  induction X as [|c X IH]; intros R H; [reflexivity|].
  destruct H as [H1 H2]. simpl app in *.
  rewrite replace_scan_miss by exact H1. now rewrite IH.
Qed.

(** Replacing the one occurrence of [old] that follows an unmatched
    prefix. *)
Lemma replace_scan_at (old new X R : str) :
  old <> [] -> unmatched old X (old ++ R) ->
  replace_scan old new 0 (X ++ old ++ R)
  = X ++ new ++ replace_scan old new 0 R.
Proof.
  intros Hold HX. rewrite replace_scan_pass by exact HX.
  rewrite replace_scan_hit by (auto using startswith_app).
  now rewrite skipn_app, skipn_all, Nat.sub_diag.
Qed.

Lemma token_free_unmatched (token p R : str) :
  token_free token p -> unmatched token p (token ++ R).
Proof.
  intros H. apply unmatched_of_absent.
  rewrite firstn_app.
  replace (length token - 1 - length token) with 0 by lia.
  rewrite firstn_O, app_nil_r.
  replace (length token - 1) with (pred (length token)) by lia.
  rewrite <- removelast_firstn_len. exact H.
Qed.

Lemma token_free_absent (token p : str) :
  token_free token p -> contains p token = false.
Proof.
  unfold token_free. intros H.
  apply (contains_absent_part [] p (removelast token)). exact H.
Qed.

Lemma replace_join (token original : str) (pieces : list str) :
  token <> [] -> Forall (token_free token) pieces ->
  replace (join token pieces) token original = join original pieces.
Proof.
  intros Htok Hfree. rewrite replace_nonempty by exact Htok.
  induction Hfree as [|p rest Hp Hrest IH]; [reflexivity|].
  destruct rest as [|q rest].
  - simpl. apply replace_scan_absent. now apply token_free_absent.
  - change (join token (p :: q :: rest))
      with (p ++ token ++ join token (q :: rest)).
    change (join original (p :: q :: rest))
      with (p ++ original ++ join original (q :: rest)).
    rewrite replace_scan_at; auto using token_free_unmatched.
    now rewrite IH.
Qed.

Lemma unmask_absent (masks : dict) :
  forall text,
    Forall (fun kv => contains text (fst kv) = false) masks ->
    unmask_content text masks = text.
Proof.
  induction masks as [|[k v] masks IH]; intros text H; [reflexivity|].
  inversion H as [|? ? Hk Hrest]; subst. simpl in Hk.
  unfold unmask_content. simpl.
  rewrite replace_absent by exact Hk. now apply IH.
Qed.

End Unmask.

(** ** Structural masker: classification and scenarios *)

Section Classification.

Lemma mem_In (x : str) (names : list str) : mem x names = true <-> In x names.
Proof.
  unfold mem. rewrite existsb_exists. split.
  - intros (y & Hy & E). apply str_eqb_eq in E. now subst.
  - intros H. exists x. split; [exact H | apply str_eqb_refl].
Qed.

Lemma replace_char (a : ascii) (new s : str) :
  replace s [a] new = flat_map (fun c => if Ascii.eqb a c then new else [c]) s.
Proof.
  unfold replace. induction s as [|c t IH]; [reflexivity|].
  cbn [replace_scan startswith flat_map length Nat.sub].
  rewrite andb_true_r. destruct (Ascii.eqb a c); now rewrite IH.
Qed.

Lemma remove_star_stem (stem : str) :
  ~ In "*"%char stem -> replace (stem ++ STAR) STAR [] = stem.
Proof.
  intros Hno. unfold STAR. change (lit "*") with ["*"%char].
  rewrite replace_char, flat_map_app.
  replace (flat_map _ ["*"%char]) with (@nil ascii) by reflexivity.
  rewrite app_nil_r.
  induction stem as [|c stem IH]; [reflexivity|].
  cbn [flat_map]. destruct (Ascii.eqb "*" c) eqn:E.
  - apply Ascii.eqb_eq in E. exfalso. apply Hno. now left.
  - cbn [app]. f_equal. apply IH. intros Hin. apply Hno. now right.
Qed.

Lemma opaque_names_unstarred (name : str) :
  mem name OPAQUE_ENVS = true -> endswith name STAR = false.
Proof.
  intros H. apply mem_In in H. simpl in H.
  repeat (destruct H as [<- | H]; [reflexivity|]). contradiction.
Qed.

Lemma code_names_plain (name : str) :
  mem name CODE_ENVS = true ->
  opaque_masked name = false /\ endswith name STAR = false.
Proof.
  intros H. apply mem_In in H. simpl in H.
  repeat (destruct H as [<- | H]; [split; reflexivity|]). contradiction.
Qed.

Lemma starred_opaque_iff (name : str) :
  endswith name STAR = true ->
  opaque_masked name = mem (replace name STAR []) OPAQUE_ENVS.
Proof.
  intros Hstar. unfold opaque_masked. rewrite Hstar, orb_true_r, andb_true_r.
  destruct (mem name OPAQUE_ENVS) eqn:Hop.
  { apply opaque_names_unstarred in Hop. congruence. }
  destruct (mem name [lit "figure*"; lit "table*"]) eqn:Hfloat; cbn [negb].
  - apply mem_In in Hfloat. simpl in Hfloat.
    destruct Hfloat as [<- | [<- | []]]; reflexivity.
  - now destruct (mem (replace name STAR []) OPAQUE_ENVS).
Qed.

(** C8. For an environment whose name ends with a star, the whole
    environment (wrapper and content) is masked exactly when the name
    with its stars removed is in the opaque set; otherwise, and in
    particular for figure* and table*, the node is transparent: nothing
    is emitted for it and its children are traversed.  For a name made
    of a star-free stem and one final star, the name with its stars
    removed is the stem. *)
Theorem starred_env_opaque_iff_base_opaque
  (name : str) (pos len : nat) (kids : list LatexNode) :
  endswith name STAR = true ->
  let node := LatexEnvironmentNode pos len name kids in
  let base := replace name STAR [] in
  (opaque_masked name = true <-> In base OPAQUE_ENVS) /\
  (In base OPAQUE_ENVS ->
     traverse_node node = [(pos, pos + len, env_hint name)]) /\
  (~ In base OPAQUE_ENVS ->
     traverse_node node = traverse_nodes kids) /\
  (forall stem, ~ In "*"%char stem -> name = stem ++ STAR -> base = stem) /\
  (forall p l ks,
     traverse_node (LatexEnvironmentNode p l (lit "figure*") ks)
     = traverse_nodes ks /\
     traverse_node (LatexEnvironmentNode p l (lit "table*") ks)
     = traverse_nodes ks).
Proof.
  intros Hstar. cbv zeta.
  pose proof (starred_opaque_iff name Hstar) as Hiff.
  split; [rewrite Hiff; apply mem_In|].
  split; [|split; [|split]].
  - intros Hin. apply mem_In in Hin. cbn [traverse_node].
    now rewrite Hiff, Hin.
  - intros Hout. cbn [traverse_node].
    destruct (mem (replace name STAR []) OPAQUE_ENVS) eqn:Hm.
    { apply mem_In in Hm. contradiction. }
    rewrite Hiff.
    destruct (mem name CODE_ENVS) eqn:Hcode; [|reflexivity].
    apply code_names_plain in Hcode as [_ Hplain]. congruence.
  - intros stem Hstem ->. now apply remove_star_stem.
  - intros p l ks. split; reflexivity.
Qed.

Lemma starred_env_opaque_iff_base_opaque_witness :
  endswith (lit "align*") STAR = true /\
  opaque_masked (lit "align*") = true /\
  mask_nodes align_text align_nodes
  = (lit "A [MASK_ENV_ALIGNS_0000] B",
     [(lit "[MASK_ENV_ALIGNS_0000]", lit "\begin{align*}x\end{align*}")]).
Proof.
  assert (Hstar : endswith (lit "align*") STAR = true) by reflexivity.
  split; [exact Hstar|].
  destruct (starred_env_opaque_iff_base_opaque
              (lit "align*") 2 27 [LatexCharsNode 16 1] Hstar)
    as (Hiff & Hwhole & _).
  split.
  - apply Hiff. vm_compute. tauto.
  - unfold mask_nodes, align_nodes, traverse_nodes.
    cbn [flat_map]. rewrite Hwhole by (vm_compute; tauto).
    vm_compute. reflexivity.
Defined.

End Classification.

(** ** Mask tokens *)

Section Tokens.

Lemma decimal_value (n : nat) : digits_value (decimal n) = n.
Proof.
  unfold digits_value, decimal, lit.
  now rewrite string_of_list_ascii_of_string, NilEmpty.usu, Unsigned.of_to.
Qed.

Lemma digits_value_zero (s : str) :
  digits_value ("0"%char :: s) = digits_value s.
Proof.
  unfold digits_value. cbn [string_of_list_ascii NilEmpty.uint_of_string].
  now destruct (NilEmpty.uint_of_string (string_of_list_ascii s)).
Qed.

Lemma fmt04_value (n : nat) : digits_value (fmt04 n) = n.
Proof.
  unfold fmt04. induction (4 - length (decimal n)) as [|k IH]; simpl.
  - apply decimal_value.
  - now rewrite digits_value_zero.
Qed.

Lemma fmt04_inj (n m : nat) : fmt04 n = fmt04 m -> n = m.
Proof.
  intros H. rewrite <- (fmt04_value n), <- (fmt04_value m). now rewrite H.
Qed.

Lemma fmt04_length (n : nat) : 4 <= length (fmt04 n).
Proof. unfold fmt04. rewrite length_app, repeat_length. lia. Qed.

Lemma uint_digits (d : Decimal.uint) :
  Forall (fun ch => is_digit ch = true)
         (list_ascii_of_string (NilEmpty.string_of_uint d)).
Proof. induction d; simpl; constructor; auto. Qed.

Lemma fmt04_digits (n : nat) : Forall (fun ch => is_digit ch = true) (fmt04 n).
Proof.
  unfold fmt04. apply Forall_app. split.
  - apply Forall_forall. intros ch Hin. apply repeat_spec in Hin. now subst.
  - apply uint_digits.
Qed.

Lemma fmt04_avoids (ch : ascii) (n : nat) :
  is_digit ch = false -> ~ In ch (fmt04 n).
Proof.
  intros Hch Hin.
  pose proof (proj1 (Forall_forall _ _) (fmt04_digits n) ch Hin). congruence.
Qed.

Lemma split_at_first (x : ascii) :
  forall a b r r',
    ~ In x a -> ~ In x b -> a ++ x :: r = b ++ x :: r' -> a = b /\ r = r'.
Proof.
  induction a as [|y a IH]; intros [|z b] r r' Ha Hb H; simpl in *.
  - now injection H.
  - injection H as -> _. tauto.
  - injection H as <- _. tauto.
  - injection H as <- H.
    destruct (IH b r r') as [-> ->]; auto.
Qed.

Lemma token_unfold (h : str) (c : nat) :
  token h c
  = "["%char :: lit "MASK_" ++ h ++ "_"%char :: fmt04 c ++ ["]"%char].
Proof. reflexivity. Qed.

Lemma token_starts (h : str) (c : nat) :
  startswith (token h c) MASK_PREFIX = true.
Proof. apply startswith_app. Qed.

Lemma token_nonempty (h : str) (c : nat) : token h c <> [].
Proof. discriminate. Qed.

Lemma rev_token_tail (h d : str) :
  rev (h ++ "_"%char :: d ++ ["]"%char])
  = "]"%char :: rev d ++ "_"%char :: rev h.
Proof.
  rewrite rev_app_distr. simpl. rewrite rev_app_distr. simpl.
  now rewrite <- app_assoc.
Qed.

Lemma token_counter_inj (h h' : str) (c c' : nat) :
  token h c = token h' c' -> c = c'.
Proof.
  rewrite !token_unfold. intros H.
  injection H as H.
  apply (f_equal (@rev ascii)) in H.
  rewrite !rev_token_tail in H.
  injection H as H.
  apply split_at_first in H as [H _].
  - apply fmt04_inj. rewrite <- (rev_involutive (fmt04 c)), H.
    apply rev_involutive.
  - rewrite <- in_rev. now apply fmt04_avoids.
  - rewrite <- in_rev. now apply fmt04_avoids.
Qed.

Lemma token_closing (h : str) (c : nat) :
  token h c
  = ("["%char :: lit "MASK_" ++ h ++ "_"%char :: fmt04 c) ++ ["]"%char].
Proof.
  rewrite token_unfold. simpl. now rewrite <- app_assoc.
Qed.

(** After its opening bracket a token has no other. *)
Lemma token_body_no_open (h : str) (c : nat) :
  bracket_free h ->
  ~ In "["%char (lit "MASK_" ++ h ++ "_"%char :: fmt04 c ++ ["]"%char]).
Proof.
  intros Hh Hin.
  rewrite in_app_iff in Hin. destruct Hin as [Hin | Hin].
  { simpl in Hin. intuition discriminate. }
  rewrite in_app_iff in Hin. destruct Hin as [Hin | Hin].
  { apply (proj1 (Forall_forall _ _) Hh) in Hin. tauto. }
  destruct Hin as [Hin | Hin]; [discriminate|].
  rewrite in_app_iff in Hin. destruct Hin as [Hin | Hin].
  - now apply fmt04_avoids in Hin.
  - simpl in Hin. intuition discriminate.
Qed.

(** Before its closing bracket a token has no other. *)
Lemma token_init_no_close (h : str) (c : nat) :
  bracket_free h ->
  ~ In "]"%char ("["%char :: lit "MASK_" ++ h ++ "_"%char :: fmt04 c).
Proof.
  intros Hh Hin.
  destruct Hin as [Hin | Hin]; [discriminate|].
  rewrite in_app_iff in Hin. destruct Hin as [Hin | Hin].
  { simpl in Hin. intuition discriminate. }
  rewrite in_app_iff in Hin. destruct Hin as [Hin | Hin].
  { apply (proj1 (Forall_forall _ _) Hh) in Hin. tauto. }
  destruct Hin as [Hin | Hin]; [discriminate|].
  now apply fmt04_avoids in Hin.
Qed.

(** A token that matches where another token begins is that token. *)
Lemma token_match_at_token (h h' : str) (c c' : nat) (R : str) :
  bracket_free h -> bracket_free h' ->
  startswith (token h' c' ++ R) (token h c) = true -> c = c'.
Proof.
  intros Hh Hh' H. apply startswith_spec in H as [rest H].
  apply (token_counter_inj h h').
  pose proof (token_init_no_close h c Hh) as Hi.
  pose proof (token_init_no_close h' c' Hh') as Hi'.
  rewrite !token_closing in *.
  set (i := "["%char :: lit "MASK_" ++ h ++ "_"%char :: fmt04 c) in *.
  set (i' := "["%char :: lit "MASK_" ++ h' ++ "_"%char :: fmt04 c') in *.
  rewrite <- !app_assoc in H.
  change (["]"%char] ++ R) with ("]"%char :: R) in H.
  change (["]"%char] ++ rest) with ("]"%char :: rest) in H.
  apply split_at_first in H as [H _]; auto.
  now rewrite H.
Qed.

End Tokens.

(** ** Structural masker: the ranges collected by the traversal *)

Section Traversal.

Lemma node_induction (P : LatexNode -> Prop) :
  (forall n, Forall P (node_children n) -> P n) -> forall n, P n.
Proof.
  intros H. fix IH 1. intros n. apply H.
  destruct n as [p l | p l | p l | p l name | p l kids | p l kids
                 | p l name kids];
    simpl; try constructor.
  all: induction kids as [|k ks IHks]; constructor;
    [apply IH | apply IHks].
Qed.

Lemma wf_node_unfold (lo hi : nat) (n : LatexNode) :
  wf_node lo hi n
  = (lo <=? node_pos n) && (0 <? node_len n) && (node_end n <=? hi)
    && wf_nodes (node_pos n) (node_end n) (node_children n).
Proof.
  destruct n as [p l | p l | p l | p l name | p l kids | p l kids
                 | p l name kids];
    try reflexivity;
    cbn [wf_node node_children node_pos]; f_equal;
    match goal with
    | |- context [node_end ?n] => generalize (node_end n) as e; intros e
    end;
    generalize p as a;
    induction kids as [|k ks IH]; intros a; try reflexivity;
    cbn [wf_nodes]; now rewrite <- IH.
Qed.

Lemma wf_node_bounds (lo hi : nat) (n : LatexNode) :
  wf_node lo hi n = true ->
  lo <= node_pos n /\ 0 < node_len n /\ node_end n <= hi /\
  wf_nodes (node_pos n) (node_end n) (node_children n) = true.
Proof.
  rewrite wf_node_unfold, !andb_true_iff, !Nat.leb_le, Nat.ltb_lt. tauto.
Qed.

Lemma wf_nodes_span (ks : list LatexNode) :
  forall lo hi k d,
    wf_nodes lo hi (k :: ks) = true ->
    lo <= node_pos k /\ node_pos k < node_end (last (k :: ks) d) /\
    node_end (last (k :: ks) d) <= hi.
Proof.
  induction ks as [|k2 ks IH]; intros lo hi k d H;
    cbn [wf_nodes] in H; apply andb_prop in H as [Hk Hks];
    apply wf_node_bounds in Hk as (H1 & H2 & H3 & _).
  - simpl. unfold node_end in *. lia.
  - destruct (IH _ _ _ d Hks) as (H4 & H5 & H6).
    change (last (k :: k2 :: ks) d) with (last (k2 :: ks) d).
    unfold node_end in *. lia.
Qed.

Lemma asc_chain_weaken (l : list MaskRange) :
  forall lo lo' hi hi',
    lo' <= lo -> hi <= hi' -> asc_chain lo hi l -> asc_chain lo' hi' l.
Proof.
  induction l as [|r rs IH]; intros lo lo' hi hi' Hlo Hhi H; [exact I|].
  destruct H as (H1 & H2 & H3 & H4).
  cbn [asc_chain]. repeat split; try lia.
  apply (IH (range_end r) (range_end r) hi hi'); auto.
Qed.

Lemma asc_chain_app (a b : list MaskRange) :
  forall lo mid hi,
    lo <= mid -> mid <= hi -> asc_chain lo mid a -> asc_chain mid hi b ->
    asc_chain lo hi (a ++ b).
Proof.
  induction a as [|r rs IH]; intros lo mid hi Hlo Hmid Ha Hb.
  - apply (asc_chain_weaken b mid lo hi hi); auto.
  - destruct Ha as (H1 & H2 & H3 & H4). cbn [app asc_chain].
    repeat split; try lia. apply (IH _ mid); auto.
Qed.

Lemma asc_chain_Forall (l : list MaskRange) :
  forall lo hi,
    asc_chain lo hi l ->
    Forall (fun r => lo <= range_start r /\ range_start r < range_end r /\
                     range_end r <= hi) l.
Proof.
  induction l as [|r rs IH]; intros lo hi H; constructor.
  - destruct H as (H1 & H2 & H3 & _). auto.
  - destruct H as (H1 & H2 & H3 & H4).
    apply IH in H4. eapply Forall_impl; [|exact H4].
    simpl. intros x. lia.
Qed.

Lemma children_chain (kids : list LatexNode) :
  Forall (fun n => forall lo hi, wf_node lo hi n = true ->
            asc_chain (node_pos n) (node_end n) (traverse_node n)) kids ->
  forall lo hi, wf_nodes lo hi kids = true ->
    asc_chain lo hi (traverse_nodes kids).
Proof.
  induction 1 as [|k ks Hk Hks IH]; intros lo hi Hwf; [exact I|].
  cbn [wf_nodes] in Hwf. apply andb_prop in Hwf as [Hwk Hwks].
  destruct (wf_node_bounds _ _ _ Hwk) as (H1 & H2 & H3 & _).
  unfold traverse_nodes. cbn [flat_map].
  apply (asc_chain_app _ _ lo (node_end k) hi);
    [unfold node_end; lia | exact H3 | |].
  - apply (asc_chain_weaken _ (node_pos k) lo (node_end k) (node_end k));
      auto. apply (Hk lo hi Hwk).
  - now apply IH.
Qed.

Lemma whole_node_chain (n : LatexNode) (lo hi : nat) (h : str) :
  wf_node lo hi n = true ->
  asc_chain (node_pos n) (node_end n)
            [(node_pos n, node_pos n + node_len n, h)].
Proof.
  intros Hwf. apply wf_node_bounds in Hwf as (_ & H & _).
  unfold node_end. cbn. lia.
Qed.

Lemma traverse_node_chain (n : LatexNode) :
  forall lo hi, wf_node lo hi n = true ->
    asc_chain (node_pos n) (node_end n) (traverse_node n).
Proof.
  induction n as [n IH] using node_induction. intros lo hi Hwf.
  pose proof (wf_node_bounds _ _ _ Hwf) as (_ & _ & _ & Hkids).
  destruct n as [p l | p l | p l | p l name | p l kids | p l kids
                 | p l name kids];
    try exact I; cbn [traverse_node].
  - destruct (mem name MASKED_MACROS); [|exact I].
    apply (whole_node_chain (LatexMacroNode p l name) lo hi _ Hwf).
  - apply (children_chain _ IH _ _ Hkids).
  - apply (whole_node_chain (LatexMathNode p l kids) lo hi _ Hwf).
  - destruct (opaque_masked name).
    { apply (whole_node_chain (LatexEnvironmentNode p l name kids)
                              lo hi _ Hwf). }
    destruct (mem name CODE_ENVS).
    + cbn [node_children] in Hkids.
      destruct kids as [|first rest]; [exact I|].
      destruct (wf_nodes_span _ _ _ _ first Hkids) as (H1 & H2 & H3).
      unfold node_end in *. cbn in *. lia.
    + apply (children_chain _ IH _ _ Hkids).
Qed.

Lemma traverse_nodes_chain (nodes : list LatexNode) (lo hi : nat) :
  wf_nodes lo hi nodes = true -> asc_chain lo hi (traverse_nodes nodes).
Proof.
  apply children_chain. apply Forall_forall. intros n _.
  apply traverse_node_chain.
Qed.

Lemma asc_chain_disjoint (l : list MaskRange) :
  forall lo hi, asc_chain lo hi l -> ForallOrdPairs disjoint l.
Proof.
  induction l as [|r rs IH]; intros lo hi H; constructor.
  - destruct H as (_ & _ & _ & H). apply asc_chain_Forall in H.
    eapply Forall_impl; [|exact H]. intros x Hx. simpl in Hx. left. lia.
  - destruct H as (_ & _ & _ & H). now apply IH in H.
Qed.

(** *** The sort and the guard of the replacement loop *)

Lemma insert_desc_last (r : MaskRange) (l : list MaskRange) :
  Forall (fun x => range_start r < range_start x) l ->
  insert_desc r l = l ++ [r].
Proof.
  induction 1 as [|x l Hx Hl IH]; [reflexivity|].
  cbn [insert_desc app]. apply Nat.ltb_lt in Hx. now rewrite Hx, IH.
Qed.

Lemma sort_asc_chain (l : list MaskRange) :
  forall lo hi, asc_chain lo hi l -> sort_by_start_desc l = rev l.
Proof.
  induction l as [|r rs IH]; intros lo hi H; [reflexivity|].
  destruct H as (H1 & H2 & H3 & H4).
  cbn [sort_by_start_desc rev]. rewrite (IH _ _ H4).
  apply insert_desc_last, Forall_rev.
  apply asc_chain_Forall in H4. eapply Forall_impl; [|exact H4].
  simpl. intros x. lia.
Qed.

Lemma desc_chain_snoc (r : MaskRange) (a : list MaskRange) :
  forall hi,
    desc_chain hi a ->
    Forall (fun x => range_end r <= range_start x) a ->
    range_start r < range_end r -> range_end r <= hi ->
    desc_chain hi (a ++ [r]).
Proof.
  induction a as [|x a IH]; intros hi Ha Hall Hr Hhi.
  - cbn. auto.
  - destruct Ha as (H1 & H2 & H3). inversion Hall as [|? ? Hx Hrest]; subst.
    cbn [app desc_chain]. repeat split; auto.
Qed.

Lemma desc_chain_rev (l : list MaskRange) :
  forall lo hi, asc_chain lo hi l -> desc_chain hi (rev l).
Proof.
  induction l as [|r rs IH]; intros lo hi H; [exact I|].
  destruct H as (H1 & H2 & H3 & H4). cbn [rev].
  apply desc_chain_snoc; auto.
  - now apply (IH (range_end r)).
  - apply Forall_rev. apply asc_chain_Forall in H4.
    eapply Forall_impl; [|exact H4]. simpl. tauto.
Qed.

Lemma replace_ranges_skips (text : str) (l : list MaskRange) :
  forall st,
    replace_ranges text l st
    = replace_ranges text
        (filter (fun r => negb (out_of_bounds text r)) l) st.
Proof.
  unfold replace_ranges.
  induction l as [|r l IH]; intros st; [reflexivity|].
  cbn [fold_left filter]. unfold replace_range at 2.
  destruct (out_of_bounds text r) eqn:E; cbn [negb].
  - apply IH.
  - cbn [fold_left]. unfold replace_range at 3. rewrite E. apply IH.
Qed.

(** C5. For a well-formed parse tree of [text], the ranges collected by
    the traversal are pairwise non-overlapping; every range the loop
    replaces lies within [0, len(text)]; and the ranges collected for a
    node are either a single range (the node itself, or the content of a
    code environment), with no descendant visited, or exactly the ranges
    collected for its children. *)
Theorem mask_ranges_disjoint_and_bounded
  (get_latex_nodes : str -> option (list LatexNode))
  (text : str) (nodes : list LatexNode) :
  get_latex_nodes text = Some nodes ->
  wf_nodes 0 (length text) nodes = true ->
  ForallOrdPairs disjoint (traverse_nodes nodes) /\
  (mask_content get_latex_nodes text
   = (let st := replace_ranges text (replaced_ranges text nodes)
                               (mkMaskState text [] 0) in
      (working_text st, masks st)) /\
   Forall (fun r => 0 <= range_start r /\ range_start r <= range_end r /\
                    range_end r <= length text)
          (replaced_ranges text nodes)) /\
  (forall n,
     (exists r, traverse_node n = [r]) \/
     traverse_node n = traverse_nodes (node_children n)).
Proof.
  intros Hparse Hwf.
  pose proof (traverse_nodes_chain _ _ _ Hwf) as Hchain.
  split; [now apply (asc_chain_disjoint _ 0 (length text))|].
  split; [split|].
  - unfold mask_content. rewrite Hparse.
    unfold mask_nodes, replaced_ranges. cbv zeta.
    now rewrite replace_ranges_skips.
  - unfold replaced_ranges. rewrite (sort_asc_chain _ _ _ Hchain).
    apply Forall_forall. intros r Hin. apply filter_In in Hin as [Hin _].
    apply in_rev in Hin.
    apply asc_chain_Forall in Hchain.
    apply (proj1 (Forall_forall _ _) Hchain) in Hin. lia.
  - intros n.
    destruct n as [p l | p l | p l | p l name | p l kids | p l kids
                   | p l name kids];
      cbn [traverse_node node_children];
      try (now right); try (left; eexists; reflexivity).
    + destruct (mem name MASKED_MACROS); [left; eauto | now right].
    + destruct (opaque_masked name); [left; eauto|].
      destruct (mem name CODE_ENVS); [|now right].
      destruct kids; [now right | left; eauto].
Qed.

Lemma mask_ranges_disjoint_and_bounded_witness :
  wf_nodes 0 (length einstein_text) einstein_nodes = true /\
  ForallOrdPairs disjoint (traverse_nodes einstein_nodes).
Proof.
  assert (H : wf_nodes 0 (length einstein_text) einstein_nodes = true)
    by reflexivity.
  split; [exact H|].
  exact (proj1 (mask_ranges_disjoint_and_bounded
                  (walker_for einstein_nodes) einstein_text
                  einstein_nodes eq_refl H)).
Defined.

End Traversal.

(** ** Structural masker: round trip *)

Section Hints.

Lemma bracket_freeb_ok (h : str) : bracket_freeb h = true -> bracket_free h.
Proof.
  unfold bracket_freeb, bracket_free. rewrite forallb_forall, Forall_forall.
  intros H ch Hin. specialize (H ch Hin).
  apply andb_prop in H as [H1 H2].
  split; intros ->; discriminate.
Qed.

Lemma upper_char_bracket (ch : ascii) :
  (upper_char ch = "["%char -> ch = "["%char) /\
  (upper_char ch = "]"%char -> ch = "]"%char).
Proof.
  destruct ch as [[] [] [] [] [] [] [] []]; vm_compute;
    split; intros H; try discriminate H; reflexivity.
Qed.

Lemma upper_bracket_free (s : str) : bracket_free s -> bracket_free (upper s).
Proof.
  unfold bracket_free, upper. intros H. apply Forall_map.
  eapply Forall_impl; [|exact H]. intros ch [H1 H2].
  destruct (upper_char_bracket ch) as [U1 U2]. split; auto.
Qed.

Lemma star_to_S_bracket_free (s : str) :
  bracket_free s -> bracket_free (replace s STAR (lit "S")).
Proof.
  unfold bracket_free, STAR. change (lit "*") with ["*"%char].
  rewrite replace_char. intros H. apply Forall_flat_map.
  eapply Forall_impl; [|exact H]. intros ch Hch.
  destruct (Ascii.eqb "*" ch).
  - repeat constructor; discriminate.
  - now constructor.
Qed.

Lemma named_in_bracket_free (names : list str) (name : str) :
  forallb bracket_freeb names = true -> mem name names = true ->
  bracket_free name.
Proof.
  intros Hall Hin. apply mem_In in Hin.
  apply bracket_freeb_ok. now apply (proj1 (forallb_forall _ _) Hall).
Qed.

Lemma starred_name_bracket_free (name : str) :
  mem (replace name STAR []) OPAQUE_ENVS = true -> bracket_free name.
Proof.
  intros Hbase.
  pose proof (named_in_bracket_free OPAQUE_ENVS _ eq_refl Hbase) as Hfree.
  unfold bracket_free, STAR in *. change (lit "*") with ["*"%char] in Hfree.
  rewrite replace_char in Hfree. rewrite Forall_flat_map in Hfree.
  eapply Forall_impl; [|exact Hfree]. intros ch Hch. cbv beta in Hch.
  destruct (Ascii.eqb "*" ch) eqn:E.
  - apply Ascii.eqb_eq in E. subst ch. split; discriminate.
  - now inversion Hch.
Qed.

Lemma opaque_name_bracket_free (name : str) :
  opaque_masked name = true -> bracket_free name.
Proof.
  unfold opaque_masked. intros H.
  destruct (mem name OPAQUE_ENVS) eqn:Hop.
  - now apply (named_in_bracket_free OPAQUE_ENVS).
  - apply starred_name_bracket_free.
    destruct (_ || _); [|discriminate].
    destruct (_ && _); [|discriminate].
    now destruct (mem (replace name STAR []) OPAQUE_ENVS).
Qed.

Lemma prefixed_bracket_free (p s : str) :
  bracket_freeb p = true -> bracket_free s -> bracket_free (p ++ s).
Proof.
  intros Hp Hs. apply Forall_app. split; [now apply bracket_freeb_ok | exact Hs].
Qed.

Lemma traverse_node_hints (n : LatexNode) :
  Forall (fun r => bracket_free (range_hint r)) (traverse_node n).
Proof.
  induction n as [n IH] using node_induction.
  assert (Hkids : Forall (fun r => bracket_free (range_hint r))
                         (traverse_nodes (node_children n))).
  { unfold traverse_nodes. apply Forall_flat_map. exact IH. }
  destruct n as [p l | p l | p l | p l name | p l kids | p l kids
                 | p l name kids];
    cbn [traverse_node]; try constructor; try exact Hkids.
  - destruct (mem name MASKED_MACROS) eqn:Hm; constructor; [|constructor].
    apply prefixed_bracket_free; [reflexivity|].
    apply upper_bracket_free.
    now apply (named_in_bracket_free MASKED_MACROS).
  - now apply bracket_freeb_ok.
  - constructor.
  - destruct (opaque_masked name) eqn:Hop.
    { constructor; [|constructor].
      apply prefixed_bracket_free; [reflexivity|].
      apply star_to_S_bracket_free, upper_bracket_free.
      now apply opaque_name_bracket_free. }
    destruct (mem name CODE_ENVS) eqn:Hcode; [|exact Hkids].
    destruct kids as [|first rest]; constructor; [|constructor].
    apply prefixed_bracket_free; [reflexivity|].
    apply upper_bracket_free.
    now apply (named_in_bracket_free CODE_ENVS).
Qed.

Lemma traverse_nodes_hints (nodes : list LatexNode) :
  Forall (fun r => bracket_free (range_hint r)) (traverse_nodes nodes).
Proof.
  unfold traverse_nodes. apply Forall_flat_map, Forall_forall.
  intros n _. apply traverse_node_hints.
Qed.

End Hints.

Section Splice.

Lemma slice_assign_inside (w tok : str) (s e : nat) :
  s <= e -> slice_assign w s e tok = firstn s w ++ tok ++ skipn e w.
Proof. intros H. unfold slice_assign. now rewrite Nat.max_r. Qed.

Lemma desc_chain_weaken (P : list MaskRange) (hi hi' : nat) :
  hi <= hi' -> desc_chain hi P -> desc_chain hi' P.
Proof.
  destruct P as [|r P]; [auto|]. intros Hhi (H1 & H2 & H3).
  cbn [desc_chain]. repeat split; auto. lia.
Qed.

(** The loop only touches the part of the working text that lies before
    the ranges already replaced. *)
Lemma splice_frame (P : list MaskRange) :
  forall c A B,
    desc_chain (length A) P -> splice P c (A ++ B) = splice P c A ++ B.
Proof.
  induction P as [|r P IH]; intros c A B H; [reflexivity|].
  destruct H as (H1 & H2 & H3). cbn [splice].
  rewrite !slice_assign_inside by lia.
  assert (Hlen : length (firstn (range_start r) A) = range_start r)
    by (apply firstn_length_le; lia).
  rewrite firstn_app, skipn_app.
  replace (range_start r - length A) with 0 by lia.
  replace (range_end r - length A) with 0 by lia.
  rewrite firstn_O, skipn_O, app_nil_r.
  rewrite (IH (S c) (firstn (range_start r) A)
              (token (range_hint r) c ++ skipn (range_end r) A ++ B))
    by now rewrite Hlen.
  rewrite (IH (S c) (firstn (range_start r) A)
              (token (range_hint r) c ++ skipn (range_end r) A))
    by now rewrite Hlen.
  now rewrite <- !app_assoc.
Qed.

Lemma splice_cons (r : MaskRange) (P : list MaskRange) (c : nat) (w : str) :
  desc_chain (length w) (r :: P) ->
  splice (r :: P) c w
  = splice P (S c) (firstn (range_start r) w)
    ++ token (range_hint r) c ++ skipn (range_end r) w.
Proof.
  intros (H1 & H2 & H3). cbn [splice].
  rewrite slice_assign_inside by lia.
  apply splice_frame. rewrite firstn_length_le by lia. exact H3.
Qed.

Lemma slice_then_rest (text : str) (s e : nat) :
  s <= e -> slice text s e ++ skipn e text = skipn s text.
Proof.
  intros H. unfold slice.
  replace e with ((e - s) + s) at 2 by lia.
  rewrite <- skipn_skipn. apply firstn_skipn.
Qed.

Lemma dict_set_fresh (m : dict) (k v : str) :
  ~ In k (keys m) -> dict_set m k v = m ++ [(k, v)].
Proof.
  induction m as [|[k' v'] m IH]; intros Hk; [reflexivity|].
  cbn [dict_set app]. destruct (str_eqb k' k) eqn:E.
  - apply str_eqb_eq in E. exfalso. apply Hk. now left.
  - rewrite IH; [reflexivity|]. intros Hin. apply Hk. now right.
Qed.

(** On ranges none of which is skipped, starting from a table whose keys
    carry smaller counters, the loop computes [splice] and [table]. *)
Lemma replace_ranges_splice (text : str) (P : list MaskRange) :
  forall w m c,
    Forall (fun r => range_end r <= length text) P ->
    (forall k, In k (keys m) -> exists h j, j < c /\ k = token h j) ->
    replace_ranges text P (mkMaskState w m c)
    = mkMaskState (splice P c w) (m ++ table text P c) (c + length P).
Proof.
  unfold replace_ranges.
  induction P as [|r P IH]; intros w m c Hin Hkeys.
  - cbn. now rewrite app_nil_r, Nat.add_0_r.
  - inversion Hin as [|? ? Hr HP]; subst.
    cbn [fold_left]. unfold replace_range at 2.
    assert (Hb : out_of_bounds text r = false).
    { unfold out_of_bounds. cbn [Nat.ltb Nat.leb orb].
      apply Nat.ltb_ge. exact Hr. }
    rewrite Hb. cbn [working_text masks mask_counter].
    rewrite dict_set_fresh.
    2:{ intros Hk. apply Hkeys in Hk as (h & j & Hj & E).
        apply token_counter_inj in E. lia. }
    rewrite IH; [| exact HP |].
    + cbn [splice table length]. rewrite <- app_assoc.
      f_equal. lia.
    + intros k Hk. unfold keys in Hk. rewrite map_app, in_app_iff in Hk.
      destruct Hk as [Hk | [<- | []]].
      * apply Hkeys in Hk as (h & j & Hj & E). exists h, j. split; [lia|auto].
      * exists (range_hint r), c. split; [lia | reflexivity].
Qed.

Lemma desc_chain_bounded (P : list MaskRange) :
  forall hi, desc_chain hi P -> Forall (fun r => range_end r <= hi) P.
Proof.
  induction P as [|r P IH]; intros hi H; constructor.
  - now destruct H as (_ & H & _).
  - destruct H as (H1 & H2 & H3). apply IH in H3.
    eapply Forall_impl; [|exact H3]. simpl. intros x. lia.
Qed.

Lemma mask_nodes_splice (text : str) (nodes : list LatexNode) :
  wf_nodes 0 (length text) nodes = true ->
  let P := rev (traverse_nodes nodes) in
  desc_chain (length text) P /\
  mask_nodes text nodes = (splice P 0 text, table text P 0).
Proof.
  intros Hwf P.
  pose proof (traverse_nodes_chain _ _ _ Hwf) as Hchain.
  pose proof (desc_chain_rev _ _ _ Hchain) as Hdesc.
  split; [exact Hdesc|].
  unfold mask_nodes. rewrite (sort_asc_chain _ _ _ Hchain).
  fold P. rewrite replace_ranges_splice.
  - reflexivity.
  - now apply desc_chain_bounded.
  - intros k [].
Qed.

End Splice.

Section RoundTrip.

(** A string in which the reserved prefix does not occur, followed by
    nothing or by an opening bracket, does not begin with the prefix
    unless it is empty. *)
Lemma mask_prefix_straddle (q R : str) :
  q <> [] ->
  startswith q MASK_PREFIX = false ->
  R = [] \/ (exists R', R = "["%char :: R') ->
  startswith (q ++ R) MASK_PREFIX = false.
Proof.
  intros Hq Hclean HR.
  destruct (Nat.le_gt_cases (length MASK_PREFIX) (length q)) as [Hlong | Hshort].
  { now rewrite startswith_app_l. }
  clear Hclean.
  destruct q as [|c1 [|c2 [|c3 [|c4 [|c5 [|c6 q]]]]]];
    [congruence | | | | | | simpl in Hshort; lia];
    destruct HR as [-> | [R' ->]]; unfold MASK_PREFIX;
    cbn [lit list_ascii_of_string app startswith];
    repeat match goal with
           | |- context [Ascii.eqb ?a ?c] =>
               is_var c; destruct (Ascii.eqb a c)
           end;
    reflexivity.
Qed.

Lemma startswith_trans (s t pre : str) :
  startswith s t = true -> startswith t pre = true ->
  startswith s pre = true.
Proof.
  rewrite !startswith_spec. intros [r1 ->] [r2 ->].
  exists (r2 ++ r1). now rewrite app_assoc.
Qed.

Lemma clean_piece_unmatched (T p R : str) :
  startswith T MASK_PREFIX = true ->
  contains p MASK_PREFIX = false ->
  R = [] \/ (exists R', R = "["%char :: R') ->
  unmatched T p R.
Proof.
  intros HT Hclean HR.
  induction p as [|c p IH]; [exact I|].
  apply contains_absent_cons in Hclean as [Hhead Hrest].
  split; [|now apply IH].
  destruct (startswith ((c :: p) ++ R) T) eqn:E; [|reflexivity].
  pose proof (startswith_trans _ _ _ E HT) as Hpre.
  rewrite mask_prefix_straddle in Hpre; auto. discriminate.
Qed.

Lemma clean_piece_absent (T p : str) :
  startswith T MASK_PREFIX = true ->
  contains p MASK_PREFIX = false ->
  contains p T = false.
Proof.
  intros HT Hclean. apply startswith_spec in HT as [t ->].
  apply contains_absent. intros a b ->.
  apply (proj1 (contains_absent _ _) Hclean a (t ++ b)).
  now rewrite <- !app_assoc.
Qed.

Lemma no_open_unmatched (t body R : str) :
  ~ In "["%char body -> unmatched ("["%char :: t) body R.
Proof.
  induction body as [|c body IH]; intros Hno; [exact I|].
  split.
  - cbn [app startswith].
    destruct (Ascii.eqb "[" c) eqn:E; [|reflexivity].
    apply Ascii.eqb_eq in E. exfalso. apply Hno. now left.
  - apply IH. intros Hin. apply Hno. now right.
Qed.

(** Another token's text holds no match of the token numbered [c0]. *)
Lemma other_token_unmatched (h0 h : str) (c0 c : nat) (R : str) :
  bracket_free h0 -> bracket_free h -> c0 <> c ->
  unmatched (token h0 c0) (token h c) R.
Proof.
  intros Hh0 Hh Hc.
  rewrite (token_unfold h c). split.
  - rewrite <- token_unfold.
    destruct (startswith (token h c ++ R) (token h0 c0)) eqn:E;
      [|reflexivity].
    apply token_match_at_token in E; auto. congruence.
  - rewrite token_unfold. apply no_open_unmatched.
    now apply token_body_no_open.
Qed.

(** A masked text built over a clean text and with larger counters holds
    no match of the token numbered [c0]. *)
Lemma spliced_unmatched (h0 : str) (c0 : nat) (P : list MaskRange) :
  bracket_free h0 ->
  Forall (fun r => bracket_free (range_hint r)) P ->
  forall c w R,
    c0 < c ->
    desc_chain (length w) P ->
    contains w MASK_PREFIX = false ->
    R = [] \/ (exists R', R = "["%char :: R') ->
    unmatched (token h0 c0) (splice P c w) R.
Proof.
  intros Hh0 Hhints.
  induction Hhints as [|r P Hr HP IH]; intros c w R Hc Hchain Hclean HR.
  - apply clean_piece_unmatched; auto using token_starts.
  - rewrite splice_cons by exact Hchain.
    destruct Hchain as (H1 & H2 & H3).
    assert (Hw : w = firstn (range_start r) w
                     ++ slice w (range_start r) (range_end r)
                     ++ skipn (range_end r) w).
    { rewrite slice_then_rest by lia. now rewrite firstn_skipn. }
    assert (Hpre : contains (firstn (range_start r) w) MASK_PREFIX = false).
    { apply (contains_absent_part [] _ (skipn (range_start r) w)).
      simpl. now rewrite firstn_skipn. }
    assert (Hpost : contains (skipn (range_end r) w) MASK_PREFIX = false).
    { apply (contains_absent_part (firstn (range_end r) w) _ []).
      now rewrite app_nil_r, firstn_skipn. }
    apply unmatched_app; [|apply unmatched_app].
    + apply IH; auto.
      * rewrite firstn_length_le by lia. exact H3.
      * right. rewrite <- app_assoc, token_unfold. simpl. eauto.
    + apply other_token_unmatched; auto. lia.
    + apply clean_piece_unmatched; auto using token_starts.
Qed.

Lemma unmask_splice (text : str) (P : list MaskRange) :
  contains text MASK_PREFIX = false ->
  Forall (fun r => bracket_free (range_hint r)) P ->
  forall c,
    desc_chain (length text) P ->
    unmask_content (splice P c text) (table text P c) = text.
Proof.
  intros Hclean Hhints.
  induction Hhints as [|r P Hr HP IH]; intros c Hchain; [reflexivity|].
  pose proof Hchain as (H1 & H2 & H3).
  rewrite splice_cons by exact Hchain.
  cbn [table]. unfold unmask_content. cbn [fold_left fst snd].
  fold (unmask_content
          (replace (splice P (S c) (firstn (range_start r) text)
                    ++ token (range_hint r) c ++ skipn (range_end r) text)
                   (token (range_hint r) c)
                   (slice text (range_start r) (range_end r)))
          (table text P (S c))).
  assert (Hpre : contains (firstn (range_start r) text) MASK_PREFIX = false).
  { apply (contains_absent_part [] _ (skipn (range_start r) text)).
    simpl. now rewrite firstn_skipn. }
  assert (Hpost : contains (skipn (range_end r) text) MASK_PREFIX = false).
  { apply (contains_absent_part (firstn (range_end r) text) _ []).
    now rewrite app_nil_r, firstn_skipn. }
  rewrite replace_nonempty by apply token_nonempty.
  rewrite replace_scan_at.
  - rewrite replace_scan_absent
      by (apply clean_piece_absent; auto using token_starts).
    rewrite slice_then_rest by lia.
    rewrite <- splice_frame by (rewrite firstn_length_le by lia; exact H3).
    rewrite firstn_skipn. apply IH.
    apply (desc_chain_weaken _ (range_start r)); [lia | exact H3].
  - apply token_nonempty.
  - apply spliced_unmatched; auto.
    + rewrite firstn_length_le by lia. exact H3.
    + right. rewrite token_unfold. simpl. eauto.
Qed.

(** C1 (amended). When the walker returns a well-formed tree for [text]
    and the reserved prefix "[MASK_" does not occur in [text], unmasking
    the masked text with the returned table gives back [text]. *)
Theorem mask_unmask_round_trip
  (get_latex_nodes : str -> option (list LatexNode))
  (text : str) (nodes : list LatexNode) :
  get_latex_nodes text = Some nodes ->
  wf_nodes 0 (length text) nodes = true ->
  contains text MASK_PREFIX = false ->
  unmask_content (fst (mask_content get_latex_nodes text))
                 (snd (mask_content get_latex_nodes text))
  = text.
Proof.
  intros Hparse Hwf Hclean. unfold mask_content. rewrite Hparse.
  destruct (mask_nodes_splice text nodes Hwf) as [Hchain ->].
  cbn [fst snd]. apply unmask_splice; auto.
  apply Forall_rev, traverse_nodes_hints.
Qed.

Lemma mask_unmask_round_trip_witness :
  wf_nodes 0 (length einstein_text) einstein_nodes = true /\
  contains einstein_text MASK_PREFIX = false /\
  unmask_content
    (fst (mask_content (walker_for einstein_nodes) einstein_text))
    (snd (mask_content (walker_for einstein_nodes) einstein_text))
  = einstein_text.
Proof.
  split; [reflexivity|]. split; [reflexivity|].
  apply (mask_unmask_round_trip (walker_for einstein_nodes) einstein_text
           einstein_nodes); reflexivity.
Defined.

(** C1, as stated, fails: a text in which a token-shaped string already
    occurs gets that string replaced too on the way back. *)
Lemma preexisting_token_breaks_round_trip :
  let r := mask_content (walker_for preexisting_nodes) preexisting_text in
  fst r = lit "[MASK_MATH_0000] [MASK_MATH_0000]" /\
  snd r = [(lit "[MASK_MATH_0000]", lit "$x$")] /\
  unmask_content (fst r) (snd r) = lit "$x$ $x$" /\
  unmask_content (fst r) (snd r) <> preexisting_text.
Proof.
  cbv zeta. repeat split; try (vm_compute; reflexivity).
  vm_compute. discriminate.
Qed.

(** The fallback masker does not round-trip either when a pair of single
    dollars encloses a display formula: the second substitution swallows
    the token of the first. *)
Lemma fallback_nested_math_breaks_round_trip :
  let text := lit "$ a $$b$$ c $" in
  let r := mask_content (fun _ => None) text in
  fst r = lit "[MASK_R_MATH_0001]" /\
  unmask_content (fst r) (snd r) = lit "$ a [MASK_R_MATH_0000] c $" /\
  unmask_content (fst r) (snd r) <> text.
Proof.
  cbv zeta. repeat split; try (vm_compute; reflexivity).
  vm_compute. discriminate.
Qed.

End RoundTrip.

(** ** Unmasker: every occurrence of every token *)

Section EveryOccurrence.

Lemma token_match_is_token (h h' : str) (c c' : nat) (R : str) :
  bracket_free h -> bracket_free h' ->
  startswith (token h' c' ++ R) (token h c) = true ->
  token h c = token h' c'.
Proof.
  intros Hh Hh' H. apply startswith_spec in H as [rest H].
  pose proof (token_init_no_close h c Hh) as Hi.
  pose proof (token_init_no_close h' c' Hh') as Hi'.
  rewrite !token_closing in *.
  set (i := "["%char :: lit "MASK_" ++ h ++ "_"%char :: fmt04 c) in *.
  set (i' := "["%char :: lit "MASK_" ++ h' ++ "_"%char :: fmt04 c') in *.
  rewrite <- !app_assoc in H.
  change (["]"%char] ++ R) with ("]"%char :: R) in H.
  change (["]"%char] ++ rest) with ("]"%char :: rest) in H.
  apply split_at_first in H as [H _]; auto.
  now rewrite H.
Qed.

Lemma distinct_token_unmatched (k0 k R : str) :
  is_token k0 -> is_token k -> k <> k0 -> unmatched k0 k R.
Proof.
  intros (h0 & c0 & Hh0 & ->) (h & c & Hh & ->) Hne.
  rewrite (token_unfold h c). split.
  - rewrite <- token_unfold.
    destruct (startswith (token h c ++ R) (token h0 c0)) eqn:E;
      [|reflexivity].
    apply token_match_is_token in E; auto. congruence.
  - rewrite token_unfold. apply no_open_unmatched.
    now apply token_body_no_open.
Qed.

Lemma unmatched_app_inv (old X1 X2 R : str) :
  unmatched old (X1 ++ X2) R -> unmatched old X1 (X2 ++ R).
Proof.
  induction X1 as [|c X1 IH]; intros H; [exact I|].
  cbn [app unmatched] in *. destruct H as [H1 H2]. split.
  - now rewrite <- app_assoc in H1.
  - now apply IH.
Qed.

(** The plain text an item list opens with, up to its first token. *)
Lemma leading_plain (items : list Item) :
  (forall k v, In (Masked k v) items -> is_token k) ->
  exists q R U,
    masked_form items = q ++ R /\ unmasked_form items = q ++ U /\
    (R = [] \/ exists R', R = "["%char :: R').
Proof.
  induction items as [|[s | k v] rest IH]; intros Htok.
  - exists [], [], []. auto.
  - destruct IH as (q & R & U & Hm & Hu & HR).
    { intros k v Hin. apply (Htok k v). now right. }
    exists (s ++ q), R, U. unfold masked_form, unmasked_form in *.
    cbn [map concat]. rewrite Hm, Hu, !app_assoc. auto.
  - destruct (Htok k v (or_introl eq_refl)) as (h & c & _ & ->).
    exists [], (masked_form (Masked (token h c) v :: rest)),
      (unmasked_form (Masked (token h c) v :: rest)).
    split; [reflexivity|]. split; [reflexivity|]. right.
    unfold masked_form. cbn [map concat]. rewrite token_unfold.
    cbn [app]. eauto.
Qed.

Lemma unmasked_form_resolve (key : str) (items : list Item) :
  unmasked_form (resolve key items) = unmasked_form items.
Proof.
  unfold unmasked_form, resolve.
  induction items as [|[s | k v] rest IH]; cbn [map concat];
    [reflexivity | now rewrite IH |].
  destruct (str_eqb k key); cbn [map concat]; now rewrite IH.
Qed.

Lemma resolve_masked (key : str) (items : list Item) (k v : str) :
  In (Masked k v) (resolve key items) ->
  In (Masked k v) items /\ k <> key.
Proof.
  unfold resolve. intros H. apply in_map_iff in H as ([s | k' v'] & E & Hin);
    [discriminate|].
  destruct (str_eqb k' key) eqn:Ek; [discriminate|].
  injection E as -> ->. split; [exact Hin|].
  now apply str_eqb_neq.
Qed.

(** One entry of the table: [str.replace] puts the original at every
    place that holds the token and nowhere else. *)
Lemma replace_resolves (k0 v0 : str) (items : list Item) :
  is_token k0 ->
  (forall k v, In (Masked k v) items -> is_token k /\ (k = k0 -> v = v0)) ->
  contains (unmasked_form items) MASK_PREFIX = false ->
  replace (masked_form items) k0 v0 = masked_form (resolve k0 items).
Proof.
  intros Hk0.
  assert (Hne : k0 <> []).
  { destruct Hk0 as (h & c & _ & ->). apply token_nonempty. }
  assert (Hst : startswith k0 MASK_PREFIX = true).
  { destruct Hk0 as (h & c & _ & ->). apply token_starts. }
  rewrite replace_nonempty by exact Hne.
  induction items as [|[s | k v] rest IH]; intros Hitems Hclean.
  - reflexivity.
  - assert (Hrest : forall k v, In (Masked k v) rest ->
                      is_token k /\ (k = k0 -> v = v0)).
    { intros k v Hin. apply Hitems. now right. }
    destruct (leading_plain rest) as (q & R & U & Hm & Hu & HR).
    { intros k v Hin. now apply (Hrest k v). }
    unfold masked_form, unmasked_form, resolve in *.
    cbn [map concat] in *.
    rewrite replace_scan_pass.
    + rewrite IH; [reflexivity | exact Hrest |].
      now apply (contains_absent_part s _ []); rewrite app_nil_r.
    + rewrite Hm. apply unmatched_app_inv.
      apply clean_piece_unmatched; [exact Hst | | exact HR].
      rewrite Hu, app_assoc in Hclean.
      now apply (contains_absent_part [] (s ++ q) U).
  - assert (Hrest : forall k v, In (Masked k v) rest ->
                      is_token k /\ (k = k0 -> v = v0)).
    { intros k' v' Hin. apply Hitems. now right. }
    destruct (Hitems k v (or_introl eq_refl)) as [Hk Hv].
    assert (Hclean' : contains (unmasked_form rest) MASK_PREFIX = false).
    { unfold unmasked_form in *. cbn [map concat] in Hclean.
      now apply (contains_absent_part v _ []); rewrite app_nil_r. }
    unfold masked_form, unmasked_form, resolve in *.
    cbn [map concat] in *.
    destruct (str_eqb k k0) eqn:Ek.
    + apply str_eqb_eq in Ek. subst k. rewrite (Hv eq_refl).
      rewrite replace_scan_hit by (auto using startswith_app).
      rewrite skipn_app, skipn_all, Nat.sub_diag. cbn [skipn app map concat].
      now rewrite IH.
    + apply str_eqb_neq in Ek.
      rewrite replace_scan_pass
        by now apply distinct_token_unmatched.
      cbn [map concat]. now rewrite IH.
Qed.

Lemma plain_items_same (items : list Item) :
  (forall k v, ~ In (Masked k v) items) ->
  masked_form items = unmasked_form items.
Proof.
  unfold masked_form, unmasked_form.
  induction items as [|[s | k v] rest IH]; intros H; cbn [map concat].
  - reflexivity.
  - rewrite IH; [reflexivity|]. intros k v Hin. apply (H k v). now right.
  - exfalso. apply (H k v). now left.
Qed.

Lemma unmask_items (masks : dict) :
  forall items,
    NoDup (keys masks) ->
    Forall is_token (keys masks) ->
    (forall k v, In (Masked k v) items -> In (k, v) masks) ->
    contains (unmasked_form items) MASK_PREFIX = false ->
    unmask_content (masked_form items) masks = unmasked_form items.
Proof.
  induction masks as [|[k0 v0] masks IH]; intros items Hnd Htok Hin Hclean.
  - apply plain_items_same. intros k v H. exact (Hin k v H).
  - cbn [keys map fst] in Hnd, Htok.
    apply NoDup_cons_iff in Hnd as [Hfresh Hnd].
    apply Forall_cons_iff in Htok as [Hk0 Htok].
    unfold unmask_content. cbn [fold_left fst snd].
    fold (unmask_content (replace (masked_form items) k0 v0) masks).
    rewrite replace_resolves; [| exact Hk0 | | exact Hclean].
    + rewrite IH; [apply unmasked_form_resolve | exact Hnd | exact Htok | |].
      * intros k v H. apply resolve_masked in H as [H Hne].
        destruct (Hin k v H) as [[= -> ->] | H']; [congruence | exact H'].
      * now rewrite unmasked_form_resolve.
    + intros k v H. split.
      * destruct (Hin k v H) as [[= -> ->] | H']; [exact Hk0|].
        apply (proj1 (Forall_forall _ _) Htok).
        change k with (fst (k, v)). now apply in_map.
      * intros ->. destruct (Hin k0 v H) as [[= ->] | H']; [reflexivity|].
        exfalso. apply Hfresh. change k0 with (fst (k0, v)).
        now apply in_map.
Qed.

(** C10 (amended). For a table whose keys are pairwise distinct mask
    tokens, and a text made of plain pieces and of places that hold
    tokens of the table, [unmask_content] puts at every such place, and
    not only at the first for each token, the original recorded for
    its token, provided the text so restored does not contain the
    reserved prefix [[MASK_]: originals that spell a token are
    replaced again by a later entry.  And for every table, a text in
    which no key of the table occurs is returned unchanged. *)
Theorem unmask_replaces_every_occurrence :
  (forall masks items,
     NoDup (keys masks) ->
     Forall is_token (keys masks) ->
     (forall k v, In (Masked k v) items -> In (k, v) masks) ->
     contains (unmasked_form items) MASK_PREFIX = false ->
     unmask_content (masked_form items) masks = unmasked_form items) /\
  (forall text masks,
     Forall (fun kv => contains text (fst kv) = false) masks ->
     unmask_content text masks = text).
Proof.
  split.
  - intros masks items. apply unmask_items.
  - intros text masks. apply unmask_absent.
Qed.

(** C10, as stated, fails: the one token of the text is replaced by its
    recorded original, which is the key of the next entry and is
    replaced in its turn; the result is not the text with the
    occurrence replaced by its original. *)
Lemma chained_originals_replaced_again :
  let items := [Masked (token (lit "MATH") 0) (token (lit "MATH") 1)] in
  NoDup (keys chained_table) /\
  (forall k v, In (Masked k v) items -> In (k, v) chained_table) /\
  contains (masked_form items) (token (lit "MATH") 1) = false /\
  unmask_content (masked_form items) chained_table = lit "z" /\
  unmask_content (masked_form items) chained_table <> unmasked_form items.
Proof.
  cbv zeta. split; [|split; [|split; [|split]]].
  - repeat constructor; cbn; intuition discriminate.
  - intros k v [[= <- <-] | []]. now left.
  - vm_compute. reflexivity.
  - vm_compute. reflexivity.
  - vm_compute. discriminate.
Qed.

End EveryOccurrence.

Lemma unmask_replaces_every_occurrence_witness :
  let x := lit "$x$" in
  let t := token (lit "MATH") 0 in
  unmask_content (lit "a " ++ t ++ lit " b " ++ t ++ lit " c") [(t, x)]
  = lit "a $x$ b $x$ c".
Proof.
  cbv zeta.
  apply (proj1 unmask_replaces_every_occurrence
           [(token (lit "MATH") 0, lit "$x$")]
           [Plain (lit "a ");
            Masked (token (lit "MATH") 0) (lit "$x$");
            Plain (lit " b ");
            Masked (token (lit "MATH") 0) (lit "$x$");
            Plain (lit " c")]).
  - repeat constructor. intros [].
  - repeat constructor. exists (lit "MATH"), 0.
    split; [now apply bracket_freeb_ok | reflexivity].
  - intros k v [H | [H | [H | [H | [H | []]]]]];
      try discriminate; injection H as <- <-; now left.
  - vm_compute. reflexivity.
Defined.

(** ** Structural masker: the two scenarios *)

Section MaskScenarios.

Lemma replace_range_counts (text : str) (st : MaskState) (r : MaskRange) :
  out_of_bounds text r = false ->
  mask_counter (replace_range text st r) = S (mask_counter st) /\
  masks (replace_range text st r)
  = dict_set (masks st) (token (range_hint r) (mask_counter st))
             (slice text (range_start r) (range_end r)).
Proof. intros H. unfold replace_range. rewrite H. split; reflexivity. Qed.

(** C6 (amended). For the text
    [The $E=mc^2$ law is due to \cite{einstein}.] and its parse,
    [mask_content] returns
    [The [MASK_MATH_0001] law is due to [MASK_CMD_CITE_0000].] and the
    table with [MASK_CMD_CITE_0000] for the citation first and
    [MASK_MATH_0001] for the formula second: ranges are replaced from the
    end of the text, and the counter follows that order.  Unmasking gives
    back the text.  The counter starts at 0 in [mask_nodes], grows by one
    with each range replaced, and is written with at least four digits
    that denote it. *)
Theorem einstein_masked_from_the_end
  (get_latex_nodes : str -> option (list LatexNode)) :
  get_latex_nodes einstein_text = Some einstein_nodes ->
  let masked := lit "The [MASK_MATH_0001] law is due to [MASK_CMD_CITE_0000]." in
  let tbl := [(lit "[MASK_CMD_CITE_0000]", lit "\cite{einstein}");
              (lit "[MASK_MATH_0001]", lit "$E=mc^2$")] in
  mask_content get_latex_nodes einstein_text = (masked, tbl) /\
  unmask_content masked tbl = einstein_text /\
  (forall text st r,
     out_of_bounds text r = false ->
     mask_counter (replace_range text st r) = S (mask_counter st) /\
     masks (replace_range text st r)
     = dict_set (masks st) (token (range_hint r) (mask_counter st))
                (slice text (range_start r) (range_end r))) /\
  (forall n, 4 <= length (fmt04 n) /\ digits_value (fmt04 n) = n) /\
  fmt04 0 = lit "0000" /\ fmt04 1 = lit "0001".
Proof.
  intros Hparse. cbv zeta. unfold mask_content. rewrite Hparse.
  split; [vm_compute; reflexivity|].
  split; [vm_compute; reflexivity|].
  split; [apply replace_range_counts|].
  split; [|split; reflexivity].
  intros n. split; [apply fmt04_length | apply fmt04_value].
Qed.

Lemma einstein_masked_from_the_end_witness :
  mask_content (walker_for einstein_nodes) einstein_text
  = (lit "The [MASK_MATH_0001] law is due to [MASK_CMD_CITE_0000].",
     [(lit "[MASK_CMD_CITE_0000]", lit "\cite{einstein}");
      (lit "[MASK_MATH_0001]", lit "$E=mc^2$")]).
Proof.
  exact (proj1 (einstein_masked_from_the_end (walker_for einstein_nodes)
                  eq_refl)).
Defined.

(** C6, as stated, fails: the masked text is not the one with
    [MASK_MATH_0000] and [MASK_CMD_CITE_0001], and the table has no entry
    from [MASK_MATH_0000] to the formula. *)
Lemma einstein_not_numbered_in_reading_order :
  let r := mask_content (walker_for einstein_nodes) einstein_text in
  fst r <> lit "The [MASK_MATH_0000] law is due to [MASK_CMD_CITE_0001]." /\
  ~ In (lit "[MASK_MATH_0000]", lit "$E=mc^2$") (snd r) /\
  ~ In (lit "[MASK_CMD_CITE_0001]", lit "\cite{einstein}") (snd r).
Proof.
  cbv zeta. split; [vm_compute; discriminate|].
  split; vm_compute; intros [H | [H | []]]; discriminate H.
Qed.

(** What a code environment contributes to the ranges, wherever it
    stands in the tree: with children, the one range from the start of
    the first to the end of the last, tagged CODE_<NAME>, the children
    themselves not being visited; without children, nothing. *)
Lemma code_env_contributes (pos len : nat) (name : str)
  (kids : list LatexNode) :
  In name CODE_ENVS ->
  traverse_node (LatexEnvironmentNode pos len name kids)
  = match kids with
    | [] => []
    | first :: _ =>
        [(node_pos first, node_end (last kids first), code_hint name)]
    end.
Proof.
  intros Hname. apply mem_In in Hname.
  destruct (code_names_plain name Hname) as [Hop _].
  cbn [traverse_node]. rewrite Hop, Hname. now destruct kids.
Qed.

(** A text whose only masked range is [s..e]: the text before and after
    the range is left as it is, the range becomes the token numbered 0. *)
Lemma single_range_masked
  (get_latex_nodes : str -> option (list LatexNode)) (text : str)
  (nodes : list LatexNode) (s e : nat) (hint : str) :
  get_latex_nodes text = Some nodes ->
  traverse_nodes nodes = [(s, e, hint)] ->
  s <= e -> e <= length text ->
  mask_content get_latex_nodes text
  = (firstn s text ++ token hint 0 ++ skipn e text,
     [(token hint 0, slice text s e)]).
Proof.
  intros Hparse Htrav Hse He.
  unfold mask_content. rewrite Hparse.
  unfold mask_nodes. rewrite Htrav.
  cbn [sort_by_start_desc insert_desc].
  unfold replace_ranges. cbn [fold_left]. unfold replace_range.
  assert (Hb : out_of_bounds text (s, e, hint) = false).
  { unfold out_of_bounds, range_start, range_end. cbn [fst snd].
    cbn [Nat.ltb Nat.leb orb]. now apply Nat.ltb_ge. }
  rewrite Hb. unfold range_start, range_end, range_hint.
  cbn [fst snd working_text masks mask_counter dict_set].
  now rewrite slice_assign_inside.
Qed.

(** A code environment with children, alone in its text or between
    nodes that contribute no range: only the range of its children is
    masked, the wrapper and its options stay. *)
Lemma code_env_body_masked
  (get_latex_nodes : str -> option (list LatexNode)) (text : str)
  (before after : list LatexNode) (pos len : nat) (name : str)
  (first : LatexNode) (rest : list LatexNode) :
  In name CODE_ENVS ->
  let kids := first :: rest in
  let s := node_pos first in
  let e := node_end (last kids first) in
  get_latex_nodes text
  = Some (before ++ LatexEnvironmentNode pos len name kids :: after) ->
  traverse_nodes before = [] -> traverse_nodes after = [] ->
  s <= e -> e <= length text ->
  mask_content get_latex_nodes text
  = (firstn s text ++ token (code_hint name) 0 ++ skipn e text,
     [(token (code_hint name) 0, slice text s e)]).
Proof.
  intros Hname. cbv zeta. intros Hparse Hb Ha Hse He.
  apply (single_range_masked _ _ _ _ _ _ Hparse); [|exact Hse | exact He].
  unfold traverse_nodes in *. rewrite flat_map_app. cbn [flat_map].
  rewrite Hb, Ha, (code_env_contributes _ _ _ _ Hname), app_nil_r.
  reflexivity.
Qed.

(** C7. [verbatim] is a code environment for [mask_content], and the
    listing of the scenario is masked as the claim says: its body
    becomes the one token [MASK_CODE_LSTLISTING_0000] between the
    untouched wrapper.  A verbatim environment is not: the parser hands
    its body over as an argument, the node has no children, the
    traversal collects no range, and the text comes back whole, body
    included, with an empty table. *)
Theorem verbatim_body_left_unmasked :
  In (lit "verbatim") CODE_ENVS /\
  traverse_nodes verbatim_nodes = [] /\
  mask_content (walker_for verbatim_nodes) verbatim_text
  = (verbatim_text, []) /\
  contains (fst (mask_content (walker_for verbatim_nodes) verbatim_text))
           (lit "x = 1") = true /\
  mask_content (walker_for listing_nodes) listing_text
  = (lit "\begin{lstlisting}[language=Python][MASK_CODE_LSTLISTING_0000]\end{lstlisting}",
     [(lit "[MASK_CODE_LSTLISTING_0000]", [nl] ++ lit "print(1)" ++ [nl])]).
Proof.
  split; [cbn; auto|].
  split; [apply (code_env_contributes 0 37 (lit "verbatim") []); cbn; auto|].
  repeat split; vm_compute; reflexivity.
Qed.

End MaskScenarios.

(** * Further properties of the code *)

Import Orchestrator MoreVocabulary.

(** ** strip *)

Section Strip.

Lemma lstrip_nonspace (c : ascii) (t : str) :
  isspace c = false -> lstrip (c :: t) = c :: t.
Proof. intros H. cbn [lstrip]. now rewrite H. Qed.

Lemma lstrip_cases (s : str) :
  lstrip s = [] \/ exists c t, lstrip s = c :: t /\ isspace c = false.
Proof.
  induction s as [|c s IH]; [now left|].
  cbn [lstrip]. destruct (isspace c) eqn:E; [exact IH|].
  right. eauto.
Qed.

Lemma lstrip_decomp (s : str) :
  exists ws, s = ws ++ lstrip s /\ all_space ws.
Proof.
  induction s as [|c s (ws & Hs & Hws)].
  - exists []. split; [reflexivity | constructor].
  - cbn [lstrip]. destruct (isspace c) eqn:E.
    + exists (c :: ws). split; [simpl; now f_equal | now constructor].
    + exists []. split; [reflexivity | constructor].
Qed.

Lemma lstrip_all_space (s : str) : all_space s -> lstrip s = [].
Proof.
  induction 1 as [|c s Hc Hs IH]; [reflexivity|].
  cbn [lstrip]. now rewrite Hc.
Qed.

Lemma strip_all_space (s : str) : all_space s -> strip s = [].
Proof.
  intros H. unfold strip. now rewrite lstrip_all_space.
Qed.

Lemma strip_idem (s : str) : strip (strip s) = strip s.
Proof.
  unfold strip, rstrip. set (x := lstrip s).
  destruct (lstrip_cases (rev x)) as [Hy | (c & t & Hy & Hc)];
    rewrite Hy; [reflexivity|].
  assert (Hfix : lstrip (rev (c :: t)) = rev (c :: t)).
  { destruct (lstrip_decomp (rev x)) as (ws & Hx & _).
    rewrite Hy in Hx. apply (f_equal (@rev ascii)) in Hx.
    rewrite rev_involutive, rev_app_distr in Hx.
    destruct (rev (c :: t)) as [|d u] eqn:Hr.
    { apply (f_equal (@length ascii)) in Hr.
      rewrite length_rev in Hr. discriminate. }
    destruct (lstrip_cases s) as [Hs | (c' & t' & Hs & Hc')];
      fold x in Hs; rewrite Hs in Hx; [discriminate|].
    injection Hx as -> _. now apply lstrip_nonspace. }
  rewrite Hfix, rev_involutive. now rewrite (lstrip_nonspace c t Hc).
Qed.

End Strip.

(** ** The graph, whatever the services answer *)

Section Budget.

Variable json_loads : str -> option json.
Variable svc : Services.

Lemma fixer_node_cases (r : Run) :
  let failures := failed_attempts (state r) + 1 in
  (3 < failures /\
   fixer_node svc r
   = mkRun (set_errors (set_translated (state r) (original_chunk (state r))
                                       failures) (JArr []))
           (translate_calls r) (critic_calls r) (fixer_calls r)
           (log r ++ [TooManyFailures failures]))
  \/
  (failures <= 3 /\
   exists t extra,
     fixer_node svc r
     = mkRun (set_translated (state r) t failures)
             (translate_calls r) (critic_calls r) (S (fixer_calls r))
             (log r ++ extra) /\
     (t = translated_chunk (state r) \/ stripped t)).
Proof.
  cbv zeta. unfold fixer_node.
  destruct (3 <? failed_attempts (state r) + 1) eqn:E.
  - left. apply Nat.ltb_lt in E. auto.
  - right. apply Nat.ltb_ge in E. split; [exact E|].
    destruct (fixer_llm _ _ _ _ _ _) as [content|].
    + exists (strip content), []. rewrite app_nil_r.
      split; [reflexivity|]. right. apply strip_idem.
    + exists (translated_chunk (state r)), [FixerCallFailed]. auto.
Qed.

Lemma translate_node_cases (r : Run) :
  exists t fa e extra,
    translate_node svc r
    = mkRun (mkState (chunk_index (state r)) (original_chunk (state r)) t
                     (terminology (state r)) fa e)
            (S (translate_calls r)) (critic_calls r) (fixer_calls r)
            (log r ++ extra) /\
    ((t = original_chunk (state r) /\ fa = 999) \/ (stripped t /\ fa = 0)).
Proof.
  unfold translate_node.
  destruct (translate_llm _ _ _ _) as [content|].
  - exists (strip content), 0, (critic_errors (state r)), [].
    rewrite app_nil_r. split; [reflexivity|]. right.
    split; [apply strip_idem | reflexivity].
  - exists (original_chunk (state r)), 999,
      (JArr [JStr (lit "LLM Call Failed")]), [TranslationCallFailed].
    split; [reflexivity|]. now left.
Qed.

Lemma critic_node_frame (r : Run) :
  translate_calls (critic_node json_loads svc r) = translate_calls r /\
  fixer_calls (critic_node json_loads svc r) = fixer_calls r /\
  critic_calls (critic_node json_loads svc r) = S (critic_calls r) /\
  failed_attempts (state (critic_node json_loads svc r))
  = failed_attempts (state r) /\
  translated_chunk (state (critic_node json_loads svc r))
  = translated_chunk (state r) /\
  original_chunk (state (critic_node json_loads svc r))
  = original_chunk (state r).
Proof.
  unfold critic_node. destruct (critique _ _). repeat split.
Qed.

Lemma GraphNode_END_dec (n : GraphNode) : n = END \/ n <> END.
Proof. destruct n; [right | right | right | left]; congruence. Qed.

Lemma next_node_not_translate (n : GraphNode) (r : Run) :
  next_node n r <> translate.
Proof.
  destruct n; simpl; try discriminate.
  destruct (check_critic (state r)); discriminate.
Qed.

(** One node execution keeps the three facts about a run. *)
Lemma step_keeps (n : GraphNode) (r : Run) :
  n <> END ->
  let r' := run_node json_loads svc n r in
  (within_budget n r -> within_budget (next_node n r') r') /\
  (chunk_kept r -> chunk_kept r') /\
  critic_calls r' <= S (critic_calls r).
Proof.
  intros Hn. cbv zeta. destruct n; [| | |congruence]; cbn [run_node].
  - destruct (translate_node_cases r) as (t & fa & e & extra & -> & Ht).
    cbn [next_node]. unfold within_budget, chunk_kept. cbn.
    split; [|split].
    + intros [H1 H2]. destruct Ht as [[_ ->] | [_ ->]]; lia.
    + intros _. destruct Ht as [[-> _] | [Ht _]]; auto.
    + lia.
  - destruct (critic_node_frame r) as (H1 & H2 & H3 & H4 & H5 & H6).
    split; [|split].
    + intros Hb. unfold within_budget in *.
      pose proof (next_node_not_translate critic (critic_node json_loads svc r)).
      destruct (next_node critic (critic_node json_loads svc r));
        try congruence; rewrite H1, H2, H4; exact Hb.
    + unfold chunk_kept. now rewrite H5, H6.
    + lia.
  - cbn [next_node].
    destruct (fixer_node_cases r)
      as [[Hcap ->] | [Hfew (t & extra & -> & Ht)]];
      unfold within_budget, chunk_kept; cbn.
    + split; [|split]; [intros (H1 & H2 & H3); lia | now left | lia].
    + split; [|split]; [intros (H1 & H2 & H3); lia | | lia].
      intros Hk. destruct Ht as [-> | Ht]; auto.
Qed.

Lemma advance_step (k : nat) (n : GraphNode) (r : Run) :
  n <> END ->
  advance (build_graph json_loads svc) (S k) n r
  = advance (build_graph json_loads svc) k
            (next_node n (run_node json_loads svc n r))
            (run_node json_loads svc n r).
Proof. destruct n; try reflexivity. congruence. Qed.

Lemma advance_keeps (steps : nat) :
  forall n r,
    let nr := advance (build_graph json_loads svc) steps n r in
    (within_budget n r -> within_budget (fst nr) (snd nr)) /\
    (chunk_kept r -> chunk_kept (snd nr)) /\
    critic_calls (snd nr) <= critic_calls r + steps.
Proof.
  induction steps as [|k IH]; intros n r; cbv zeta.
  - cbn [advance fst snd]. split; [|split]; [auto | auto | lia].
  - destruct (GraphNode_END_dec n) as [-> | Hn].
    + cbn [advance fst snd]. split; [|split]; [auto | auto | lia].
    + rewrite advance_step by exact Hn.
      destruct (step_keeps n r Hn) as (S1 & S2 & S3).
      destruct (IH (next_node n (run_node json_loads svc n r))
                   (run_node json_loads svc n r)) as (I1 & I2 & I3).
      split; [|split]; [auto | auto | lia].
Qed.

(** X1. However long the graph runs on a chunk and whatever the services
    answer, the translation service is called at most once, the repair
    service at most three times and the critic at most once per node
    execution; and the candidate translation is at every moment either
    the original chunk or a text without leading or trailing white space
    (the services' answers are stripped before they are stored). *)
Theorem run_stays_within_budget
  (steps : nat) (chunk : str) (i : nat) (terms : dict) :
  let r := snd (advance (build_graph json_loads svc) steps translate
                        (initial_run chunk i terms)) in
  translate_calls r <= 1 /\
  fixer_calls r <= 3 /\
  critic_calls r <= steps /\
  original_chunk (state r) = chunk /\
  (translated_chunk (state r) = chunk \/ stripped (translated_chunk (state r))).
Proof.
  cbv zeta.
  destruct (advance_keeps steps translate (initial_run chunk i terms))
    as (Hb & Hk & Hc).
  specialize (Hb (conj eq_refl eq_refl)).
  specialize (Hk (or_intror eq_refl)).
  assert (Ho : forall k n r,
             original_chunk
               (state (snd (advance (build_graph json_loads svc) k n r)))
             = original_chunk (state r)).
  { induction k as [|k IHk]; intros n r; [reflexivity|].
    destruct n; cbn [advance build_graph node_action successor run_node];
      try reflexivity; rewrite IHk.
    - destruct (translate_node_cases r) as (t & fa & e & extra & -> & _).
      reflexivity.
    - apply critic_node_frame.
    - destruct (fixer_node_cases r)
        as [[_ ->] | [_ (t & extra & -> & _)]]; reflexivity. }
  specialize (Ho steps translate (initial_run chunk i terms)). cbn in Ho.
  unfold chunk_kept in Hk. rewrite Ho in Hk.
  repeat split; auto.
  - unfold within_budget in Hb.
    destruct (fst (advance _ _ _ _)); lia.
  - unfold within_budget in Hb.
    destruct (fst (advance _ _ _ _)); lia.
Qed.

End Budget.

(** ** The graph when the critic ends up accepting *)

Import MoreScenarios.

Section EventualAcceptance.

Variable json_loads : str -> option json.
Variable svc : Services.

Lemma fixer_node_counts (r : Run) :
  critic_calls (fixer_node svc r) = critic_calls r /\
  failed_attempts (state (fixer_node svc r)) = failed_attempts (state r) + 1 /\
  original_chunk (state (fixer_node svc r)) = original_chunk (state r) /\
  (4 <= failed_attempts (state r) + 1 ->
   translated_chunk (state (fixer_node svc r)) = original_chunk (state r)).
Proof.
  destruct (fixer_node_cases svc r)
    as [[Hcap ->] | [Hfew (t & extra & -> & _)]]; cbn;
    repeat split; auto. lia.
Qed.

(** From the critic, with [k] rejections to come before an acceptance,
    the run ends after [2k + 1] node executions, and so within
    [2k + 2] steps. *)
Lemma run_ends_when_accepted (chunk : str) (k : nat) :
  forall r,
    capped chunk r ->
    (forall j, j < k -> rejects_at json_loads svc (critic_calls r + j)) ->
    accepts_at json_loads svc (critic_calls r + k) ->
    exists r',
      run_from (build_graph json_loads svc) (2 * k + 2) critic r = Some r' /\
      critic_calls r' = critic_calls r + k + 1 /\
      failed_attempts (state r') = failed_attempts (state r) + k /\
      capped chunk r' /\
      critic_errors (state r') = JArr [].
Proof.
  induction k as [|k IH]; intros r Hcap Hrej Hacc.
  - rewrite Nat.add_0_r in Hacc.
    cbn [Nat.mul Nat.add]; graph_node.
    assert (Ha : accepted json_loads (critic_response svc r)) by apply Hacc.
    rewrite (critic_accepted_next _ _ _ Ha).
    destruct (critic_node_frame json_loads svc r)
      as (_ & _ & H3 & H4 & H5 & H6).
    eexists. split; [reflexivity|].
    split; [lia|]. split; [lia|]. split.
    + unfold capped in *. rewrite H4, H5, H6. exact Hcap.
    + apply critic_pass_clears. now apply critic_verdict.
  - replace (2 * S k + 2) with (S (S (2 * k + 2))) by lia.
    graph_node.
    assert (Hr : ~ accepted json_loads (critic_response svc r)).
    { specialize (Hrej 0 ltac:(lia)). rewrite Nat.add_0_r in Hrej.
      apply Hrej. }
    rewrite (critic_rejected_next _ _ _ Hr). graph_step.
    set (r1 := critic_node json_loads svc r).
    set (r2 := fixer_node svc r1).
    destruct (critic_node_frame json_loads svc r)
      as (_ & _ & H3 & H4 & H5 & H6). fold r1 in H3, H4, H5, H6.
    destruct (fixer_node_counts r1) as (F1 & F2 & F3 & F4). fold r2 in F1, F2, F3, F4.
    destruct Hcap as [Ho Ht].
    destruct (IH r2) as (r' & Hrun & Hc & Hf & Hcap' & He).
    + split; [congruence|]. intros H4le. rewrite F4; [congruence | lia].
    + intros j Hj. rewrite F1, H3.
      replace (S (critic_calls r) + j) with (critic_calls r + S j) by lia.
      apply Hrej. lia.
    + rewrite F1, H3.
      replace (S (critic_calls r) + k) with (critic_calls r + S k) by lia.
      exact Hacc.
    + exists r'. split; [exact Hrun|].
      split; [lia|]. split; [lia|]. split; [exact Hcap' | exact He].
Qed.

(** X2. If the critic rejects its first [k] calls and accepts call number
    [k], the graph ends after [2k + 2] node executions, that is under
    every recursion limit above [2k + 2], with the critic called [k + 1]
    times and an empty error list; when [k] is 4 or more, the chunk
    returned is the original one. *)
Theorem graph_ends_once_critic_accepts
  (chunk : str) (i : nat) (terms : dict) (k : nat) :
  (forall j, j < k -> rejects_at json_loads svc j) ->
  accepts_at json_loads svc k ->
  forall limit, 2 * k + 3 <= limit ->
  exists r',
    invoke (build_graph json_loads svc) limit (initial_run chunk i terms)
    = Some r' /\
    critic_calls r' = k + 1 /\
    critic_errors (state r') = JArr [] /\
    original_chunk (state r') = chunk /\
    (4 <= k -> translated_chunk (state r') = chunk).
Proof.
  intros Hrej Hacc limit Hlimit.
  set (r1 := translate_node svc (initial_run chunk i terms)).
  destruct (translate_node_cases svc (initial_run chunk i terms))
    as (t & fa & e & extra & Hr1 & Ht). fold r1 in Hr1.
  assert (Hc1 : critic_calls r1 = 0) by now rewrite Hr1.
  assert (Hcap : capped chunk r1).
  { rewrite Hr1. unfold capped. cbn. split; [reflexivity|].
    destruct Ht as [[-> _] | [_ ->]]; [auto | lia]. }
  destruct (run_ends_when_accepted chunk k r1 Hcap)
    as (r' & Hrun & Hc & Hf & [Ho Hcap'] & He).
  - intros j Hj. rewrite Hc1. now apply Hrej.
  - now rewrite Hc1.
  - exists r'. split; [|repeat split; auto; try lia].
    + unfold invoke.
      replace limit with (S (2 * k + 2 + (limit - (2 * k + 3)))) by lia.
      graph_step. fold r1. now apply run_from_more.
    + intros Hk. apply Hcap'. lia.
Qed.

End EventualAcceptance.

Lemma graph_ends_once_critic_accepts_witness :
  exists r',
    invoke (build_graph loads svc_fifth_time) 25 (initial_run hello 0 [])
    = Some r' /\
    critic_calls r' = 5 /\ translated_chunk (state r') = hello.
Proof.
  assert (Hrej : forall j, j < 4 -> rejects_at loads svc_fifth_time j).
  { intros j Hj o t (fields & (raw & content & Hr & Hu & Hj') & H1 & _).
    change (critic_llm svc_fifth_time j o t)
      with (if j <? 4 then Some answer_fail else Some answer_pass) in Hr.
    apply Nat.ltb_lt in Hj. rewrite Hj in Hr. injection Hr as <-.
    vm_compute in Hu. injection Hu as <-.
    vm_compute in Hj'. injection Hj' as <-.
    vm_compute in H1. discriminate. }
  assert (Hacc : accepts_at loads svc_fifth_time 4).
  { intros o t.
    exists (flags_fields (JBool true) (JBool true) (JBool true)).
    split; [|repeat split; reflexivity].
    exists answer_pass, answer_pass. repeat split; vm_compute; reflexivity. }
  destruct (graph_ends_once_critic_accepts loads svc_fifth_time hello 0 [] 4
              Hrej Hacc 25 ltac:(simpl; lia))
    as (r' & H1 & H2 & _ & _ & H5).
  exists r'. split; [exact H1|]. split; [exact H2 | apply H5; lia].
Defined.

(** The recursion limit counts the step that finds END: the outage run
    of two node executions needs a limit of 3, the run of ten node
    executions a limit of 11. *)
Example limit_counts_the_last_step :
  let r0 := initial_run hello 0 [] in
  invoke (build_graph loads svc_outage) 2 r0 = None /\
  option_map critic_calls (invoke (build_graph loads svc_outage) 3 r0)
  = Some 1 /\
  invoke (build_graph loads svc_fifth_time) 10 r0 = None /\
  option_map critic_calls (invoke (build_graph loads svc_fifth_time) 11 r0)
  = Some 5.
Proof. vm_compute. repeat split; reflexivity. Qed.

(** ** One file's content *)

Section FileContent.

Variable json_loads : str -> option json.
Variable svc : nat -> Services.

Lemma smart_split_concat (text : str) (max_chars : Z) :
  concat (smart_split text max_chars) = text.
Proof.
  unfold smart_split.
  pose proof (split_loop_concat max_chars (re_split_paragraphs [] text)
                                (mkSplitState [] [] 0%Z)) as H.
  cbn in H. rewrite re_split_concat in H.
  destruct (current_chunk _) as [|x xs]; cbn [nonempty].
  - cbn in H. now rewrite app_nil_r in H.
  - rewrite concat_app. cbn [concat]. now rewrite app_nil_r.
Qed.

Lemma strip_nil_all_space (s : str) : strip s = [] -> all_space s.
Proof.
  unfold strip, rstrip. intros H.
  apply (f_equal (@rev ascii)) in H. rewrite rev_involutive in H. cbn in H.
  destruct (lstrip_decomp (rev (lstrip s))) as (ws & Hws & Hsp).
  rewrite H, app_nil_r in Hws.
  destruct (lstrip_decomp s) as (ws' & Hs & Hsp').
  rewrite Hs. apply Forall_app. split; [exact Hsp'|].
  rewrite <- (rev_involutive (lstrip s)), Hws. now apply Forall_rev.
Qed.

Lemma is_blank_all_space (s : str) : is_blank s = true <-> all_space s.
Proof.
  unfold is_blank. split.
  - intros H. apply strip_nil_all_space. now destruct (strip s).
  - intros H. now rewrite strip_all_space.
Qed.

Lemma outage_invoke (s : Services) (chunk : str) (i : nat) (terms : dict)
  (limit : nat) :
  translation_down s ->
  accepted json_loads (critic_llm s 0 chunk chunk) ->
  3 <= limit ->
  exists r',
    invoke (build_graph json_loads s) limit (initial_run chunk i terms)
    = Some r' /\ translated_chunk (state r') = chunk.
Proof.
  intros Hdown Hacc Hlimit.
  set (r1 := translate_node s (initial_run chunk i terms)).
  assert (Hr1 : r1 = mkRun (set_errors (set_translated
                                          (state (initial_run chunk i terms))
                                          chunk 999)
                                       (JArr [JStr (lit "LLM Call Failed")]))
                           1 0 0 [TranslationCallFailed])
    by (unfold r1; now rewrite translate_node_down).
  assert (Hrev : reverted chunk r1)
    by (rewrite Hr1; unfold reverted; cbn; repeat split; lia).
  destruct (reverted_run_ends json_loads s chunk 0 r1 Hrev) as (r' & Hrun & _).
  - intros j Hj. lia.
  - rewrite Hr1. exact Hacc.
  - exists r'.
    assert (Hfrom : run_from (build_graph json_loads s) (limit - 1) critic r1
                    = Some r').
    { replace (limit - 1) with (2 * 0 + 2 + (limit - 3)) by lia.
      now apply run_from_more. }
    split.
    + unfold invoke. replace limit with (S (limit - 1)) by lia.
      graph_step. fold r1. exact Hfrom.
    + now destruct (reverted_at_end json_loads s chunk _ critic r1 r'
                      (or_introl eq_refl) Hrev Hfrom) as [(_ & Ht & _) _].
Qed.

Lemma translate_chunks_unchanged (limit : nat) (terms : dict)
  (chunks : list str) :
  forall i,
    (forall j chunk, In chunk chunks -> is_blank chunk = false ->
       exists r',
         invoke (build_graph json_loads (svc j)) limit
                (initial_run chunk j terms) = Some r' /\
         translated_chunk (state r') = chunk) ->
    translate_chunks json_loads svc limit terms i chunks = Some chunks.
Proof.
  induction chunks as [|chunk rest IH]; intros i H; [reflexivity|].
  cbn [translate_chunks].
  rewrite IH by (intros j c Hin; apply H; now right).
  destruct (is_blank chunk) eqn:Hb; [reflexivity|].
  destruct (H i chunk (or_introl eq_refl) Hb) as (r' & -> & ->).
  reflexivity.
Qed.

Lemma translate_file_outage (limit : nat) (content : str) (terms : dict) :
  (forall i, translation_down (svc i)) ->
  (forall i chunk, accepted json_loads (critic_llm (svc i) 0 chunk chunk)) ->
  3 <= limit ->
  translate_file_content json_loads svc limit content terms = Some content.
Proof.
  intros Hdown Hacc Hlimit. unfold translate_file_content.
  rewrite translate_chunks_unchanged.
  - now rewrite smart_split_concat.
  - intros j chunk _ _. now apply outage_invoke.
Qed.

(** X3. When the translation service is down and the critic accepts an
    untranslated chunk, [translate_file_content] returns the masked
    content it was given, character for character, under every
    recursion limit of 3 or more (two node executions per chunk). *)
Theorem outage_returns_masked_content
  (limit : nat) (content : str) (terms : dict) :
  (forall i, translation_down (svc i)) ->
  (forall i chunk, accepted json_loads (critic_llm (svc i) 0 chunk chunk)) ->
  3 <= limit ->
  translate_file_content json_loads svc limit content terms = Some content.
Proof. apply translate_file_outage. Qed.

(** X4. A content made of white space only is returned as it is, without
    any service being called: this holds for all services and even with a
    recursion limit of zero. *)
Theorem blank_content_bypasses_pipeline
  (limit : nat) (content : str) (terms : dict) :
  all_space content ->
  translate_file_content json_loads svc limit content terms = Some content.
Proof.
  intros Hsp. unfold translate_file_content.
  rewrite translate_chunks_unchanged.
  - now rewrite smart_split_concat.
  - intros j chunk Hin Hb. exfalso.
    assert (Hc : all_space chunk).
    { apply Forall_forall. intros c Hc.
      apply (proj1 (Forall_forall _ _) Hsp).
      rewrite <- (smart_split_concat content DEFAULT_MAX_CHARS).
      apply in_concat. eauto. }
    apply is_blank_all_space in Hc. congruence.
Qed.

Lemma forallb_false_Exists {A : Type} (f : A -> bool) (l : list A) :
  forallb f l = false -> Exists (fun x => f x = false) l.
Proof.
  induction l as [|x l IH]; [discriminate|].
  cbn [forallb]. destruct (f x) eqn:E; cbn [andb]; intros H.
  - right. now apply IH.
  - now left.
Qed.

Lemma translate_chunks_raise (limit : nat) (terms : dict)
  (chunks : list str) :
  forall i,
    (forall j chunk, is_blank chunk = false ->
       invoke (build_graph json_loads (svc j)) limit
              (initial_run chunk j terms) = None) ->
    Exists (fun chunk => is_blank chunk = false) chunks ->
    translate_chunks json_loads svc limit terms i chunks = None.
Proof.
  induction chunks as [|chunk rest IH]; intros i Hnone Hex.
  - inversion Hex.
  - cbn [translate_chunks]. destruct (is_blank chunk) eqn:Hb.
    + inversion Hex as [? ? Hc | ? ? Hrest]; subst; [congruence|].
      now rewrite IH.
    + now rewrite Hnone.
Qed.

(** X5. If the critic rejects every time, [translate_file_content] raises
    on every content that is not blank, whatever the recursion limit: the
    first chunk with text never leaves the graph, and nothing catches the
    error inside [translate_file_content]. *)
Theorem rejecting_critic_aborts_file
  (limit : nat) (content : str) (terms : dict) :
  (forall i, critic_always_rejects json_loads (svc i)) ->
  is_blank content = false ->
  translate_file_content json_loads svc limit content terms = None.
Proof.
  intros Hrej Hcontent. unfold translate_file_content.
  rewrite translate_chunks_raise; [reflexivity | |].
  - intros j chunk _. unfold invoke.
    apply rejecting_critic_never_ends; [apply Hrej | discriminate].
  - destruct (forallb is_blank (smart_split content DEFAULT_MAX_CHARS)) eqn:E.
    + exfalso.
      assert (Hall : all_space content).
      { rewrite <- (smart_split_concat content DEFAULT_MAX_CHARS).
        apply Forall_concat, Forall_forall. intros c Hin.
        apply is_blank_all_space.
        now apply (proj1 (forallb_forall _ _) E). }
      apply is_blank_all_space in Hall. congruence.
    + now apply forallb_false_Exists.
Qed.

End FileContent.

Lemma svc_outage_accepts (chunk : str) (n : nat) :
  accepted loads (critic_llm svc_outage n chunk chunk).
Proof.
  exists (flags_fields (JBool true) (JBool true) (JBool true)).
  split; [|repeat split; reflexivity].
  exists answer_pass, answer_pass. repeat split; vm_compute; reflexivity.
Qed.

Lemma outage_returns_masked_content_witness :
  translate_file_content loads (fun _ => svc_outage) 25 hello [] = Some hello.
Proof.
  apply (outage_returns_masked_content loads (fun _ => svc_outage) 25 hello []).
  - intros i n terms o. reflexivity.
  - intros i chunk. apply svc_outage_accepts.
  - lia.
Defined.

Lemma blank_content_bypasses_pipeline_witness :
  translate_file_content loads (fun _ => svc_critic_rejects) 0
                         [nl; " "%char; nl] []
  = Some [nl; " "%char; nl].
Proof.
  apply (blank_content_bypasses_pipeline loads (fun _ => svc_critic_rejects) 0).
  repeat constructor.
Defined.

Lemma rejecting_critic_aborts_file_witness :
  translate_file_content loads (fun _ => svc_critic_rejects) 25 hello []
  = None.
Proof.
  apply (rejecting_critic_aborts_file loads (fun _ => svc_critic_rejects) 25
                                      hello []).
  - intros i. now apply answer_fail_rejected.
  - reflexivity.
Defined.

(** ** A whole file: mask, translate, unmask *)

Section WholeFile.

Variable json_loads : str -> option json.
Variable svc : nat -> Services.

Lemma mask_nodes_round_trip (text : str) (nodes : list LatexNode) :
  wf_nodes 0 (length text) nodes = true ->
  contains text MASK_PREFIX = false ->
  unmask_content (fst (mask_nodes text nodes)) (snd (mask_nodes text nodes))
  = text.
Proof.
  intros Hwf Hclean.
  destruct (mask_nodes_splice text nodes Hwf) as [Hchain ->].
  cbn [fst snd]. apply unmask_splice; auto.
  apply Forall_rev, traverse_nodes_hints.
Qed.

(** X6. With the translation service down and a critic that accepts the
    untranslated chunks, processing a file writes back exactly the
    content that was read, provided the parse is well formed, the
    reserved prefix does not occur in the content and the recursion
    limit is 3 or more. *)
Theorem outage_leaves_file_unchanged
  (get_latex_nodes : str -> option (list LatexNode))
  (limit : nat) (terms : dict) (content : str) (nodes : list LatexNode) :
  get_latex_nodes content = Some nodes ->
  wf_nodes 0 (length content) nodes = true ->
  contains content MASK_PREFIX = false ->
  (forall i, translation_down (svc i)) ->
  (forall i chunk, accepted json_loads (critic_llm (svc i) 0 chunk chunk)) ->
  3 <= limit ->
  process_file json_loads svc limit get_latex_nodes terms content
  = Some content.
Proof.
  intros Hparse Hwf Hclean Hdown Hacc Hlimit.
  unfold process_file, mask_content. rewrite Hparse.
  pose proof (mask_nodes_round_trip content nodes Hwf Hclean) as Hrt.
  destruct (mask_nodes content nodes) as [masked masks]. cbn [fst snd] in Hrt.
  rewrite translate_file_outage by assumption.
  destruct (nonempty (strip masked)); now rewrite Hrt.
Qed.

End WholeFile.

Lemma outage_leaves_file_unchanged_witness :
  process_file loads (fun _ => svc_outage) 25 (walker_for einstein_nodes) []
               einstein_text
  = Some einstein_text.
Proof.
  apply (outage_leaves_file_unchanged loads (fun _ => svc_outage)
           (walker_for einstein_nodes) 25 [] einstein_text einstein_nodes).
  - reflexivity.
  - reflexivity.
  - reflexivity.
  - intros i n terms o. reflexivity.
  - intros i chunk. apply svc_outage_accepts.
  - lia.
Defined.

(** ** One file's content when the critic accepts at once *)

Section FirstTimeRight.

Variable json_loads : str -> option json.
Variable svc : nat -> Services.
(** The answer of the translation service for a chunk. *)
Variable answer : str -> str.

Lemma accepted_first_time (s : Services) (chunk : str) (i : nat)
  (terms : dict) (limit : nat) :
  (forall n t o, translate_llm s n t o = Some (answer o)) ->
  accepts_at json_loads s 0 ->
  3 <= limit ->
  exists r',
    invoke (build_graph json_loads s) limit (initial_run chunk i terms)
    = Some r' /\
    translated_chunk (state r') = strip (answer chunk) /\
    fixer_calls r' = 0.
Proof.
  intros Htr Hacc Hlimit.
  assert (Hr1 : translate_node s (initial_run chunk i terms)
                = mkRun (set_translated (state (initial_run chunk i terms))
                                        (strip (answer chunk)) 0)
                        1 0 0 []).
  { unfold translate_node. cbn [initial_run state original_chunk
      terminology translate_calls critic_calls fixer_calls log].
    now rewrite Htr. }
  remember (translate_node s (initial_run chunk i terms)) as r1 eqn:Er1.
  assert (Hc1 : critic_calls r1 = 0) by now rewrite Hr1.
  assert (Ha : accepted json_loads (critic_response s r1))
    by (unfold critic_response; rewrite Hc1; apply Hacc).
  exists (critic_node json_loads s r1).
  destruct (critic_node_frame json_loads s r1) as (_ & H2 & _ & _ & H5 & _).
  split; [|split].
  - unfold invoke. replace limit with (S (limit - 1)) by lia.
    graph_step. rewrite <- Er1.
    replace (limit - 1) with (S (S (limit - 3))) by lia.
    graph_node.
    rewrite (critic_accepted_next _ _ _ Ha). reflexivity.
  - rewrite H5, Hr1. reflexivity.
  - rewrite H2, Hr1. reflexivity.
Qed.

Lemma translate_chunks_mapped (limit : nat) (terms : dict) (f : str -> str)
  (chunks : list str) :
  forall i,
    (forall j chunk, is_blank chunk = false ->
       exists r',
         invoke (build_graph json_loads (svc j)) limit
                (initial_run chunk j terms) = Some r' /\
         translated_chunk (state r') = f chunk) ->
    translate_chunks json_loads svc limit terms i chunks
    = Some (map (fun chunk => if is_blank chunk then chunk else f chunk)
                chunks).
Proof.
  induction chunks as [|chunk rest IH]; intros i H; [reflexivity|].
  cbn [translate_chunks map]. rewrite IH by exact H.
  destruct (is_blank chunk) eqn:Hb; [reflexivity|].
  destruct (H i chunk Hb) as (r' & -> & ->). reflexivity.
Qed.

(** X7. When the translation service answers and the critic accepts at
    its first call, the translated file is the concatenation, in order,
    of the stripped answers for the chunks with text and of the blank
    chunks as they are: white space at the ends of an answer, and so the
    blank lines that closed its chunk, do not reach the output.  The
    recursion limit is 3 or more. *)
Theorem accepted_file_is_stripped_answers
  (limit : nat) (content : str) (terms : dict) :
  (forall i n t o, translate_llm (svc i) n t o = Some (answer o)) ->
  (forall i, accepts_at json_loads (svc i) 0) ->
  3 <= limit ->
  translate_file_content json_loads svc limit content terms
  = Some (concat (map (fun chunk => if is_blank chunk then chunk
                                    else strip (answer chunk))
                      (smart_split content DEFAULT_MAX_CHARS))).
Proof.
  intros Htr Hacc Hlimit. unfold translate_file_content.
  rewrite (translate_chunks_mapped limit terms (fun c => strip (answer c)));
    [reflexivity|].
  intros j chunk _.
  destruct (accepted_first_time (svc j) chunk j terms limit
              (Htr j) (Hacc j) Hlimit) as (r' & H1 & H2 & _).
  eauto.
Qed.

End FirstTimeRight.

Lemma accepted_file_is_stripped_answers_witness :
  translate_file_content loads
    (fun _ => mkServices (fun _ _ o => Some (o ++ [nl; nl]))
                         (fun _ _ _ => Some answer_pass)
                         (fun _ _ _ _ _ => None))
    25 hello []
  = Some hello.
Proof.
  apply (accepted_file_is_stripped_answers loads _ (fun o => o ++ [nl; nl])
           25 hello []).
  - reflexivity.
  - intros i o t.
    exists (flags_fields (JBool true) (JBool true) (JBool true)).
    split; [|repeat split; reflexivity].
    exists answer_pass, answer_pass. repeat split; vm_compute; reflexivity.
  - lia.
Defined.

(** ** The mask table *)

Section MaskTable.

Lemma table_ok_add (m : dict) (c : nat) (h v : str) :
  table_ok m c ->
  dict_set m (token h c) v = m ++ [(token h c, v)] /\
  table_ok (m ++ [(token h c, v)]) (S c).
Proof.
  intros (Hnd & Hlen & Hnum).
  assert (Hfresh : ~ In (token h c) (keys m)).
  { intros Hin. apply Hnum in Hin as (h' & j & Hj & E).
    apply token_counter_inj in E. lia. }
  split; [now apply dict_set_fresh|].
  unfold table_ok, keys. rewrite map_app, length_app. cbn [map length fst].
  split; [|split].
  - apply NoDup_app; [exact Hnd | repeat constructor; intros [] | ].
    intros k Hk [<- | []]. exact (Hfresh Hk).
  - lia.
  - intros k Hk. unfold keys in Hk. rewrite map_app in Hk.
    apply in_app_iff in Hk as [Hk | [<- | []]].
    + apply Hnum in Hk as (h' & j & Hj & E). exists h', j. split; [lia|auto].
    + exists h, c. split; [lia | reflexivity].
Qed.

Lemma replace_range_ok (text : str) (st : MaskState) (r : MaskRange) :
  table_ok (masks st) (mask_counter st) ->
  table_ok (masks (replace_range text st r))
           (mask_counter (replace_range text st r)).
Proof.
  intros H. unfold replace_range.
  destruct (out_of_bounds text r); [exact H|].
  cbn [masks mask_counter].
  destruct (table_ok_add _ _ (range_hint r)
              (slice text (range_start r) (range_end r)) H) as [-> Hok].
  exact Hok.
Qed.

Lemma replace_ranges_ok (text : str) (l : list MaskRange) :
  forall st,
    table_ok (masks st) (mask_counter st) ->
    table_ok (masks (replace_ranges text l st))
             (mask_counter (replace_ranges text l st)).
Proof.
  unfold replace_ranges.
  induction l as [|r l IH]; intros st H; [exact H|].
  cbn [fold_left]. apply IH. now apply replace_range_ok.
Qed.

Lemma replacer_ok (st : dict * nat) (original : str) :
  table_ok (fst st) (snd st) ->
  replacer st original
  = (token R_MATH (snd st),
     (fst st ++ [(token R_MATH (snd st), original)], S (snd st))) /\
  table_ok (fst (snd (replacer st original)))
           (snd (snd (replacer st original))).
Proof.
  intros H. unfold replacer.
  change (lit "[MASK_R_MATH_" ++ fmt04 (snd st) ++ lit "]")
    with (token R_MATH (snd st)).
  destruct (table_ok_add _ _ R_MATH original H) as [-> Hok].
  split; [reflexivity | exact Hok].
Qed.

Lemma sub_display_ok (s : str) :
  forall skip st,
    table_ok (fst st) (snd st) ->
    table_ok (fst (snd (sub_display skip st s)))
             (snd (snd (sub_display skip st s))).
Proof.
  induction s as [|c t IH]; intros skip st H; [exact H|].
  cbn [sub_display]. destruct skip as [|k]; [|now apply IH].
  destruct (if startswith (c :: t) (lit "$$")
            then find (skipn 2 (c :: t)) (lit "$$") else None) as [k|].
  - destruct (replacer_ok st (firstn (k + 4) (c :: t)) H) as [E Hok].
    destruct (replacer st (firstn (k + 4) (c :: t))) as [tok st'].
    specialize (IH (k + 3) st' Hok).
    now destruct (sub_display (k + 3) st' t).
  - specialize (IH 0 st H). now destruct (sub_display 0 st t).
Qed.

Lemma sub_inline_ok (s : str) :
  forall skip prev st,
    table_ok (fst st) (snd st) ->
    table_ok (fst (snd (sub_inline skip prev st s)))
             (snd (snd (sub_inline skip prev st s))).
Proof.
  induction s as [|c t IH]; intros skip prev st H; [exact H|].
  cbn [sub_inline]. destruct skip as [|k]; [|now apply IH].
  destruct (if is_dollar c && negb (preceded_by_backslash prev)
            then find_close c t else None) as [k|].
  - destruct (replacer_ok st (firstn (k + 2) (c :: t)) H) as [E Hok].
    destruct (replacer st (firstn (k + 2) (c :: t))) as [tok st'].
    specialize (IH (k + 1) (Some c) st' Hok).
    now destruct (sub_inline (k + 1) (Some c) st' t).
  - specialize (IH 0 (Some c) st H).
    now destruct (sub_inline 0 (Some c) st t).
Qed.

Lemma table_ok_empty : table_ok [] 0.
Proof. split; [constructor | split; [reflexivity | intros k []]]. Qed.

Lemma fallback_table_ok (text : str) :
  exists c, table_ok (snd (mask_content_regex_fallback text)) c.
Proof.
  unfold mask_content_regex_fallback.
  pose proof (sub_display_ok text 0 ([], 0) table_ok_empty) as H1.
  destruct (sub_display 0 ([], 0) text) as [text1 st1].
  pose proof (sub_inline_ok text1 0 None st1 H1) as H2.
  destruct (sub_inline 0 None st1 text1) as [text2 st2]. eauto.
Qed.

Lemma insert_desc_In (r x : MaskRange) (l : list MaskRange) :
  In x (insert_desc r l) <-> x = r \/ In x l.
Proof.
  induction l as [|y l IH]; cbn [insert_desc].
  - cbn. intuition.
  - destruct (range_start r <? range_start y); cbn [In]; [|intuition].
    rewrite IH. intuition.
Qed.

Lemma sort_by_start_desc_In (x : MaskRange) (l : list MaskRange) :
  In x (sort_by_start_desc l) <-> In x l.
Proof.
  induction l as [|r l IH]; [reflexivity|].
  cbn [sort_by_start_desc In]. rewrite insert_desc_In, IH. intuition.
Qed.

Lemma replaced_in_bounds (text : str) (nodes : list LatexNode) :
  Forall (fun r => range_end r <= length text) (replaced_ranges text nodes).
Proof.
  apply Forall_forall. intros r Hin. unfold replaced_ranges in Hin.
  apply filter_In in Hin as [_ Hb]. unfold out_of_bounds in Hb.
  apply negb_true_iff, orb_false_elim in Hb as [_ Hb].
  now apply Nat.ltb_ge.
Qed.

Lemma mask_nodes_table (text : str) (nodes : list LatexNode) :
  mask_nodes text nodes
  = (splice (replaced_ranges text nodes) 0 text,
     table text (replaced_ranges text nodes) 0).
Proof.
  unfold mask_nodes. rewrite replace_ranges_skips.
  fold (replaced_ranges text nodes).
  rewrite replace_ranges_splice;
    [reflexivity | apply replaced_in_bounds | intros k []].
Qed.

Lemma table_entries (text : str) (P : list MaskRange) :
  forall c k v,
    In (k, v) (table text P c) ->
    exists r j, In r P /\ c <= j < c + length P /\
                k = token (range_hint r) j /\
                v = slice text (range_start r) (range_end r).
Proof.
  induction P as [|r P IH]; intros c k v Hin; [destruct Hin|].
  destruct Hin as [[= <- <-] | Hin].
  - exists r, c. cbn [length]. repeat split; try lia. now left.
  - apply IH in Hin as (r' & j & Hr & Hj & Hk & Hv).
    exists r', j. cbn [length]. repeat split; auto; try lia. now right.
Qed.

(** X8. The tokens of one [mask_content] call are pairwise distinct,
    whether the parse succeeded or the fallback ran and whatever the tree
    looks like; each is a token whose counter is below the size of the
    table.  When the parse succeeded, each entry maps its token to the
    exact substring [text[start:end]] of a range collected by the
    traversal that lies within the text. *)
Theorem mask_tokens_distinct
  (get_latex_nodes : str -> option (list LatexNode)) (text : str) :
  let tbl := snd (mask_content get_latex_nodes text) in
  NoDup (keys tbl) /\
  (forall k, In k (keys tbl) ->
     exists h j, j < length tbl /\ k = token h j) /\
  (forall nodes k v,
     get_latex_nodes text = Some nodes -> In (k, v) tbl ->
     exists r j,
       In r (traverse_nodes nodes) /\ range_end r <= length text /\
       k = token (range_hint r) j /\
       v = slice text (range_start r) (range_end r)).
Proof.
  cbv zeta.
  assert (Hok : exists c, table_ok (snd (mask_content get_latex_nodes text)) c).
  { unfold mask_content. destruct (get_latex_nodes text) as [nodes|].
    - unfold mask_nodes. cbn [snd]. eexists.
      apply (replace_ranges_ok text _ (mkMaskState text [] 0)).
      apply table_ok_empty.
    - apply fallback_table_ok. }
  destruct Hok as (c & Hnd & Hlen & Hnum).
  split; [exact Hnd|]. split.
  - intros k Hk. rewrite Hlen. now apply Hnum.
  - intros nodes k v Hparse Hin. unfold mask_content in Hin.
    rewrite Hparse, mask_nodes_table in Hin. cbn [snd] in Hin.
    apply table_entries in Hin as (r & j & Hr & _ & Hk & Hv).
    exists r, j.
    pose proof (proj1 (Forall_forall _ _) (replaced_in_bounds text nodes) r Hr)
      as Hb.
    cbv beta in Hb. unfold replaced_ranges in Hr. apply filter_In in Hr as [Hr _].
    apply (proj1 (sort_by_start_desc_In _ _)) in Hr.
    repeat split; assumption.
Qed.

End MaskTable.

(** ** The fallback masker *)

Section Fallback.

Lemma firstn_prefix {A : Type} (a b : list A) (n : nat) :
  length a = n -> firstn n (a ++ b) = a.
Proof.
  intros <-. now rewrite firstn_app, Nat.sub_diag, firstn_all, app_nil_r.
Qed.

Lemma find_spec (sub s : str) :
  forall k, find s sub = Some k ->
    exists a b, s = a ++ sub ++ b /\ length a = k.
Proof.
  induction s as [|c t IH]; intros k H; cbn [find] in H.
  - destruct (startswith [] sub) eqn:E; [|discriminate].
    injection H as <-. apply startswith_spec in E as [rest E].
    exists [], rest. auto.
  - destruct (startswith (c :: t) sub) eqn:E.
    + injection H as <-. apply startswith_spec in E as [rest E].
      exists [], rest. auto.
    + destruct (find t sub) as [k'|]; [|discriminate].
      injection H as <-. destruct (IH k' eq_refl) as (a & b & -> & <-).
      exists (c :: a), b. auto.
Qed.

Lemma find_close_spec (s : str) :
  forall prev k, find_close prev s = Some k ->
    exists a b, s = a ++ "$"%char :: b /\ length a = k.
Proof.
  induction s as [|c t IH]; intros prev k H; cbn [find_close] in H;
    [discriminate|].
  destruct (is_dollar c && negb (is_backslash prev)) eqn:E.
  - injection H as <-. apply andb_prop in E as [E _].
    apply Ascii.eqb_eq in E. subst c. exists [], t. auto.
  - destruct (find_close c t) as [k'|] eqn:F; [|discriminate].
    injection H as <-. destruct (IH c k' F) as (a & b & -> & <-).
    exists (c :: a), b. auto.
Qed.

Lemma dict_set_values (m : dict) (k' v' k v : str) :
  In (k, v) (dict_set m k' v') -> v = v' \/ In (k, v) m.
Proof.
  induction m as [|[k0 v0] m IH]; cbn [dict_set]; intros H.
  - destruct H as [[= <- <-] | []]. now left.
  - destruct (str_eqb k0 k').
    + destruct H as [[= <- <-] | H]; [now left | right; now right].
    + destruct H as [H | H]; [right; now left|].
      destruct (IH H); [now left | right; now right].
Qed.

Lemma replacer_values (st : dict * nat) (original : str) :
  dollar_delimited original ->
  Forall (fun kv => dollar_delimited (snd kv)) (fst st) ->
  Forall (fun kv => dollar_delimited (snd kv))
         (fst (snd (replacer st original))).
Proof.
  intros Ho Hm. unfold replacer. cbn [fst snd].
  apply Forall_forall. intros [k v] Hin.
  apply dict_set_values in Hin as [-> | Hin]; [exact Ho|].
  apply (proj1 (Forall_forall _ _) Hm (k, v) Hin).
Qed.

Lemma display_match_delimited (s : str) (k : nat) :
  startswith s (lit "$$") = true ->
  find (skipn 2 s) (lit "$$") = Some k ->
  dollar_delimited (firstn (k + 4) s).
Proof.
  intros Hs Hf. apply startswith_spec in Hs as [rest ->].
  cbn [lit list_ascii_of_string app skipn] in Hf.
  apply find_spec in Hf as (a & b & -> & <-).
  cbn [lit list_ascii_of_string app].
  assert (E : "$"%char :: "$"%char :: a ++ "$"%char :: "$"%char :: b
              = ("$"%char :: "$"%char :: a ++ ["$"%char; "$"%char]) ++ b)
    by (cbn [app]; now rewrite <- app_assoc).
  rewrite E, firstn_prefix
    by (cbn [length]; rewrite length_app; cbn [length]; lia).
  exists ("$"%char :: a ++ ["$"%char]).
  cbn [app]. now rewrite <- app_assoc.
Qed.

Lemma inline_match_delimited (c : ascii) (t : str) (k : nat) :
  is_dollar c = true ->
  find_close c t = Some k ->
  dollar_delimited (firstn (k + 2) (c :: t)) /\
  exists a b, t = a ++ "$"%char :: b /\ length a = k /\
              firstn (k + 2) (c :: t) = c :: a ++ ["$"%char].
Proof.
  intros Hc Hf. apply Ascii.eqb_eq in Hc. subst c.
  apply find_close_spec in Hf as (a & b & -> & <-).
  assert (E : firstn (length a + 2) ("$"%char :: a ++ "$"%char :: b)
              = "$"%char :: a ++ ["$"%char]).
  { replace ("$"%char :: a ++ "$"%char :: b)
      with (("$"%char :: a ++ ["$"%char]) ++ b)
      by (cbn [app]; now rewrite <- app_assoc).
    apply firstn_prefix. cbn [length]. rewrite length_app. cbn [length]. lia. }
  split; [rewrite E; now exists a|].
  exists a, b. auto.
Qed.

Lemma sub_display_values (s : str) :
  forall skip st,
    Forall (fun kv => dollar_delimited (snd kv)) (fst st) ->
    Forall (fun kv => dollar_delimited (snd kv))
           (fst (snd (sub_display skip st s))).
Proof.
  induction s as [|c t IH]; intros skip st H; [exact H|].
  cbn [sub_display]. destruct skip as [|k]; [|now apply IH].
  destruct (startswith (c :: t) (lit "$$")) eqn:Es.
  - destruct (find (skipn 2 (c :: t)) (lit "$$")) as [k|] eqn:Ef.
    + pose proof (replacer_values st _ (display_match_delimited _ _ Es Ef) H)
        as Hv.
      destruct (replacer st (firstn (k + 4) (c :: t))) as [tok st'].
      specialize (IH (k + 3) st' Hv).
      now destruct (sub_display (k + 3) st' t).
    + specialize (IH 0 st H). now destruct (sub_display 0 st t).
  - specialize (IH 0 st H). now destruct (sub_display 0 st t).
Qed.

Lemma sub_inline_values (s : str) :
  forall skip prev st,
    Forall (fun kv => dollar_delimited (snd kv)) (fst st) ->
    Forall (fun kv => dollar_delimited (snd kv))
           (fst (snd (sub_inline skip prev st s))).
Proof.
  induction s as [|c t IH]; intros skip prev st H; [exact H|].
  cbn [sub_inline]. destruct skip as [|k]; [|now apply IH].
  destruct (is_dollar c && negb (preceded_by_backslash prev)) eqn:Ed.
  - destruct (find_close c t) as [k|] eqn:Ef.
    + apply andb_prop in Ed as [Ed _].
      pose proof (replacer_values st _
                    (proj1 (inline_match_delimited _ _ _ Ed Ef)) H) as Hv.
      destruct (replacer st (firstn (k + 2) (c :: t))) as [tok st'].
      specialize (IH (k + 1) (Some c) st' Hv).
      now destruct (sub_inline (k + 1) (Some c) st' t).
    + specialize (IH 0 (Some c) st H).
      now destruct (sub_inline 0 (Some c) st t).
  - specialize (IH 0 (Some c) st H).
    now destruct (sub_inline 0 (Some c) st t).
Qed.

Lemma sub_display_no_pair (s : str) (st : dict * nat) :
  contains s (lit "$$") = false -> sub_display 0 st s = (s, st).
Proof.
  induction s as [|c t IH]; intros H; [reflexivity|].
  apply contains_absent_cons in H as [H1 H2].
  cbn [sub_display]. rewrite H1, IH by exact H2. reflexivity.
Qed.

Lemma sub_inline_no_dollar (s : str) :
  forall prev st, ~ In "$"%char s -> sub_inline 0 prev st s = (s, st).
Proof.
  induction s as [|c t IH]; intros prev st H; [reflexivity|].
  cbn [sub_inline].
  assert (Hc : is_dollar c = false).
  { unfold is_dollar. destruct (Ascii.eqb c "$") eqn:E; [|reflexivity].
    apply Ascii.eqb_eq in E. exfalso. apply H. now left. }
  rewrite Hc. cbn [andb]. rewrite IH; [reflexivity|].
  intros Hin. apply H. now right.
Qed.

Lemma no_dollar_no_pair (s : str) :
  ~ In "$"%char s -> contains s (lit "$$") = false.
Proof.
  intros H. apply contains_absent. intros a b ->. apply H.
  rewrite in_app_iff. right. now left.
Qed.

(** X9. The fallback masks dollar-delimited regions and nothing else:
    every entry of its table stands for a text that opens and closes with
    a dollar, and a text without any dollar is returned as it is, with an
    empty table. *)
Theorem fallback_masks_dollar_regions (text : str) :
  Forall (fun kv => dollar_delimited (snd kv))
         (snd (mask_content_regex_fallback text)) /\
  (~ In "$"%char text -> mask_content_regex_fallback text = (text, [])).
Proof.
  split.
  - unfold mask_content_regex_fallback.
    pose proof (sub_display_values text 0 ([], 0) (Forall_nil _)) as H1.
    destruct (sub_display 0 ([], 0) text) as [text1 st1].
    pose proof (sub_inline_values text1 0 None st1 H1) as H2.
    now destruct (sub_inline 0 None st1 text1) as [text2 st2].
  - intros H. unfold mask_content_regex_fallback.
    rewrite sub_display_no_pair by now apply no_dollar_no_pair.
    now rewrite sub_inline_no_dollar.
Qed.

End Fallback.

Section FallbackRoundTrip.

Lemma sub_inline_skip (k : nat) :
  forall s prev st, k <= length s ->
    exists prev', sub_inline k prev st s = sub_inline 0 prev' st (skipn k s).
Proof.
  induction k as [|k IH]; intros s prev st Hk.
  - exists prev. reflexivity.
  - destruct s as [|c t]; [cbn in Hk; lia|].
    cbn [sub_inline skipn]. apply IH. cbn in Hk. lia.
Qed.

Lemma R_MATH_bracket_free : bracket_free R_MATH.
Proof. now apply bracket_freeb_ok. Qed.

Lemma unmatched_nil_absent (old new s : str) :
  unmatched old s [] -> replace_scan old new 0 s = s.
Proof.
  intros H. rewrite <- (app_nil_r s) at 1.
  rewrite replace_scan_pass by exact H. cbn. now rewrite app_nil_r.
Qed.

(** The second substitution on a clean text: what it returns is undone
    by [unmask_content], and holds no match of a token numbered before
    it started. *)
Lemma inline_round_trip (n : nat) :
  forall s, length s <= n ->
  forall prev m c, table_ok m c ->
  exists out new c',
    sub_inline 0 prev (m, c) s = (out, (m ++ new, c')) /\
    forall A, contains (A ++ s) MASK_PREFIX = false ->
      unmask_content (A ++ out) new = A ++ s /\
      forall h0 c0 R, bracket_free h0 -> c0 < c ->
        (R = [] \/ exists R', R = "["%char :: R') ->
        unmatched (token h0 c0) (A ++ out) R.
Proof.
  induction n as [|n IH]; intros s Hlen prev m c Hok.
  { destruct s; [|cbn in Hlen; lia].
    exists [], [], c. split; [cbn; now rewrite app_nil_r|].
    intros A Hclean. rewrite app_nil_r in *. split; [reflexivity|].
    intros h0 c0 R Hh0 Hc0 HR.
    apply clean_piece_unmatched; auto using token_starts. }
  destruct s as [|ch t].
  { exists [], [], c. split; [cbn; now rewrite app_nil_r|].
    intros A Hclean. rewrite app_nil_r in *. split; [reflexivity|].
    intros h0 c0 R Hh0 Hc0 HR.
    apply clean_piece_unmatched; auto using token_starts. }
  assert (Hmiss :
    exists out new c',
      (let (out, st') := sub_inline 0 (Some ch) (m, c) t in (ch :: out, st'))
      = (out, (m ++ new, c')) /\
      forall A, contains (A ++ ch :: t) MASK_PREFIX = false ->
        unmask_content (A ++ out) new = A ++ ch :: t /\
        forall h0 c0 R, bracket_free h0 -> c0 < c ->
          (R = [] \/ exists R', R = "["%char :: R') ->
          unmatched (token h0 c0) (A ++ out) R).
  { destruct (IH t ltac:(cbn in Hlen; lia) (Some ch) m c Hok)
      as (out & new & c' & E & H).
    rewrite E. exists (ch :: out), new, c'. split; [reflexivity|].
    intros A Hclean.
    replace (A ++ ch :: out) with ((A ++ [ch]) ++ out)
      by now rewrite <- app_assoc.
    replace (A ++ ch :: t) with ((A ++ [ch]) ++ t) in *
      by now rewrite <- app_assoc.
    now apply H. }
  cbn [sub_inline].
  destruct (is_dollar ch && negb (preceded_by_backslash prev)) eqn:Ed;
    [|exact Hmiss].
  destruct (find_close ch t) as [k|] eqn:Ef; [|exact Hmiss].
  clear Hmiss. apply andb_prop in Ed as [Ed _].
  destruct (inline_match_delimited _ _ _ Ed Ef) as (_ & a & b & Ht & Hk & Hm).
  destruct (replacer_ok (m, c) (firstn (k + 2) (ch :: t)) Hok) as [Er Hok1].
  rewrite Er in Hok1. cbn [fst snd] in Er, Hok1. rewrite Er.
  assert (Hskip : skipn (k + 1) t = b).
  { rewrite Ht. replace (a ++ "$"%char :: b) with ((a ++ ["$"%char]) ++ b)
      by now rewrite <- app_assoc.
    assert (Hl : length (a ++ ["$"%char]) = k + 1)
      by (rewrite length_app; cbn [length]; lia).
    rewrite skipn_app, Hl, Nat.sub_diag, skipn_all2 by lia.
    reflexivity. }
  match goal with
  | |- context [sub_inline (k + 1) ?p ?st t] =>
      destruct (sub_inline_skip (k + 1) t p st) as [prev' Es];
        [rewrite Ht, length_app; cbn [length]; lia|]
  end.
  rewrite Es, Hskip.
  destruct (IH b ltac:(rewrite Ht in Hlen; cbn in Hlen;
                       rewrite length_app in Hlen; cbn in Hlen; lia)
               prev' _ (S c) Hok1)
    as (out2 & new2 & c2 & E2 & H2).
  match goal with
  | |- context [sub_inline 0 prev' ?st b] =>
      destruct (sub_inline 0 prev' st b) as [o2 st2] eqn:E2'
  end.
  pose proof (eq_trans (eq_sym E2') E2) as Eq.
  inversion Eq; subst o2 st2. clear Eq.
  exists (token R_MATH c ++ out2),
    ((token R_MATH c, firstn (k + 2) (ch :: t)) :: new2), c2.
  split; [now rewrite <- app_assoc|].
  intros A Hclean.
  assert (Hs : ch :: t = firstn (k + 2) (ch :: t) ++ b).
  { rewrite Hm, Ht. cbn [app]. now rewrite <- app_assoc. }
  rewrite Hs in Hclean.
  assert (HA : contains A MASK_PREFIX = false).
  { apply (contains_absent_part [] A (firstn (k + 2) (ch :: t) ++ b)).
    exact Hclean. }
  assert (Hb : contains ([] ++ b) MASK_PREFIX = false).
  { apply (contains_absent_part (A ++ firstn (k + 2) (ch :: t)) b []).
    now rewrite app_nil_r, <- app_assoc. }
  destruct (H2 [] Hb) as [_ Hun2]. cbn [app] in Hun2.
  split.
  - unfold unmask_content. cbn [fold_left fst snd].
    fold (unmask_content
            (replace (A ++ token R_MATH c ++ out2) (token R_MATH c)
                     (firstn (k + 2) (ch :: t))) new2).
    rewrite replace_nonempty by apply token_nonempty.
    rewrite replace_scan_at.
    + rewrite (unmatched_nil_absent _ _ out2)
        by (apply Hun2; [apply R_MATH_bracket_free | lia | now left]).
      rewrite Hs at 2. rewrite !app_assoc.
      apply H2. now rewrite <- app_assoc.
    + apply token_nonempty.
    + apply clean_piece_unmatched; auto using token_starts.
      right. rewrite token_unfold. cbn [app]. eauto.
  - intros h0 c0 R Hh0 Hc0 HR.
    apply unmatched_app; [|apply unmatched_app].
    + apply clean_piece_unmatched; auto using token_starts.
      right. rewrite token_unfold. cbn [app]. eauto.
    + apply other_token_unmatched;
        [exact Hh0 | apply R_MATH_bracket_free | lia].
    + apply Hun2; [exact Hh0 | lia | exact HR].
Qed.

(** X10. When the parser raises and the text contains neither two
    dollars in a row nor the reserved prefix, unmasking what the fallback
    returns gives back the text. *)
Theorem fallback_round_trip
  (get_latex_nodes : str -> option (list LatexNode)) (text : str) :
  get_latex_nodes text = None ->
  contains text (lit "$$") = false ->
  contains text MASK_PREFIX = false ->
  unmask_content (fst (mask_content get_latex_nodes text))
                 (snd (mask_content get_latex_nodes text))
  = text.
Proof.
  intros Hparse Hpair Hclean. unfold mask_content. rewrite Hparse.
  unfold mask_content_regex_fallback.
  rewrite sub_display_no_pair by exact Hpair.
  destruct (inline_round_trip (length text) text (le_n _) None [] 0
              table_ok_empty) as (out & new & c' & E & H).
  destruct (sub_inline 0 None _ text) as [o st] eqn:E'.
  inversion E; subst o st. cbn [fst snd app].
  now destruct (H [] Hclean) as [Hrt _].
Qed.

End FallbackRoundTrip.

Lemma fallback_round_trip_witness :
  let text := lit "cost \$5, $x$ and $y^2$." in
  fst (mask_content (fun _ => None) text)
  = lit "cost \$5, [MASK_R_MATH_0000] and [MASK_R_MATH_0001]." /\
  unmask_content (fst (mask_content (fun _ => None) text))
                 (snd (mask_content (fun _ => None) text))
  = text.
Proof.
  cbv zeta. split; [reflexivity|].
  apply (fallback_round_trip (fun _ => None)); reflexivity.
Defined.

(** ** The chunk segmenter: sizes and cut points *)

Section Chunks.

Lemma len_app (a b : str) : len (a ++ b) = (len a + len b)%Z.
Proof. unfold len. rewrite length_app. lia. Qed.

Lemma split_loop_fits (max_chars : Z) (pieces paras : list str) :
  forall st,
    (forall p, In p paras -> In p pieces) ->
    Forall (fits max_chars pieces) (chunks st) ->
    current_length st = len (concat (current_chunk st)) ->
    (current_chunk st = [] \/
     fits max_chars pieces (concat (current_chunk st))) ->
    let st' := fold_left (split_step max_chars) paras st in
    Forall (fits max_chars pieces) (chunks st') /\
    (current_chunk st' = [] \/
     fits max_chars pieces (concat (current_chunk st'))).
Proof.
  induction paras as [|para ps IH]; intros st Hin Hch Hlen Hcur;
    [now split|].
  cbn [fold_left]. apply IH.
  - intros p Hp. apply Hin. now right.
  - unfold split_step.
    destruct (_ && _) eqn:E; cbn [chunks]; [|exact Hch].
    apply andb_prop in E as [_ E].
    apply Forall_app. split; [exact Hch|].
    constructor; [|constructor].
    destruct Hcur as [Hcur | Hcur]; [|exact Hcur].
    rewrite Hcur in E. discriminate.
  - unfold split_step.
    destruct (_ && _); cbn [current_chunk current_length concat].
    + now rewrite app_nil_r.
    + rewrite concat_app, len_app, Hlen. cbn [concat].
      now rewrite app_nil_r.
  - right. unfold split_step.
    destruct (_ && _) eqn:E; cbn [current_chunk concat].
    + rewrite app_nil_r. right. apply Hin. now left.
    + rewrite concat_app. cbn [concat]. rewrite app_nil_r.
      apply andb_false_iff in E as [E | E].
      * left. rewrite len_app, <- Hlen. apply Z.ltb_ge in E. exact E.
      * destruct (current_chunk st); [|discriminate].
        right. apply Hin. now left.
Qed.

(** X11. A chunk of [smart_split] is longer than [max_chars] only when
    it is a single piece of the paragraph split (a paragraph, or a run
    of newlines) that is itself longer. *)
Theorem oversized_chunk_is_one_piece (text : str) (max_chars : Z) :
  Forall (fits max_chars (re_split_paragraphs [] text))
         (smart_split text max_chars).
Proof.
  unfold smart_split.
  destruct (split_loop_fits max_chars (re_split_paragraphs [] text)
              (re_split_paragraphs [] text) (mkSplitState [] [] 0%Z))
    as [Hch Hcur]; cbn [chunks current_chunk current_length concat];
    auto.
  destruct (current_chunk _) as [|x xs] eqn:E; cbn [nonempty];
    [exact Hch|].
  apply Forall_app. split; [exact Hch|].
  constructor; [|constructor].
  destruct Hcur as [Hcur | Hcur]; [discriminate | exact Hcur].
Qed.

Lemma endswith_app_r (a b suf : str) :
  endswith b suf = true -> endswith (a ++ b) suf = true.
Proof.
  unfold endswith. intros H. apply startswith_spec in H as [rest H].
  apply startswith_spec. exists (rest ++ rev a).
  now rewrite rev_app_distr, H, app_assoc.
Qed.

Lemma startswith_app_more (a b pre : str) :
  startswith a pre = true -> startswith (a ++ b) pre = true.
Proof.
  intros H. apply startswith_spec in H as [rest ->].
  apply startswith_spec. exists (rest ++ b). now rewrite app_assoc.
Qed.

Lemma blank_run_snoc (run : str) :
  blank_run run = true -> blank_run (run ++ [nl]) = true.
Proof.
  unfold blank_run. intros H. apply andb_prop in H as [H1 H2].
  apply andb_true_intro. split; [now apply startswith_app_more|].
  unfold endswith in *. rewrite rev_app_distr.
  apply startswith_spec in H2 as [rest H2]. rewrite H2.
  reflexivity.
Qed.

Lemma pieces_alternate_bounded (n : nat) :
  forall s, length s <= n ->
    (forall cur, alternating false (re_split_paragraphs cur s) = true) /\
    (forall run, blank_run run = true ->
                 alternating true (newline_run run s) = true).
Proof.
  induction n as [|n IH]; intros s Hlen.
  - destruct s; [|cbn in Hlen; lia].
    split; [reflexivity|]. intros run Hrun. cbn. now rewrite Hrun.
  - destruct s as [|c t].
    + split; [reflexivity|]. intros run Hrun. cbn. now rewrite Hrun.
    + cbn [length] in Hlen.
      destruct (IH t ltac:(lia)) as [IHp IHr].
      split.
      * intros cur. cbn [re_split_paragraphs].
        destruct (is_nl c) eqn:Ec; [|apply IHp].
        destruct t as [|c2 t2]; [reflexivity|].
        destruct (is_nl c2) eqn:Ec2; [|apply IHp].
        cbn [alternating negb andb].
        cbn [length] in Hlen.
        apply (proj2 (IH t2 ltac:(lia))).
        apply Ascii.eqb_eq in Ec, Ec2. subst c c2. reflexivity.
      * intros run Hrun. cbn [newline_run].
        destruct (is_nl c) eqn:Ec.
        -- apply IHr. apply Ascii.eqb_eq in Ec. subst c.
           now apply blank_run_snoc.
        -- cbn [alternating negb]. rewrite Hrun. apply IHp.
Qed.

Lemma pieces_alternate (text : str) :
  alternating false (re_split_paragraphs [] text) = true.
Proof.
  apply (proj1 (pieces_alternate_bounded (length text) text (le_n _))).
Qed.

Lemma cut_snoc (l : list str) (c : str) :
  cut_at_blank_lines l = true ->
  (forall l' c1, l = l' ++ [c1] -> meet_at_blank_line c1 c = true) ->
  cut_at_blank_lines (l ++ [c]) = true.
Proof.
  induction l as [|a l IH]; intros Hl Hlast; [reflexivity|].
  destruct l as [|a2 l2].
  - cbn [app cut_at_blank_lines]. rewrite (Hlast [] a eq_refl). reflexivity.
  - cbn [cut_at_blank_lines] in Hl. apply andb_prop in Hl as [Hm Hl].
    change ((a :: a2 :: l2) ++ [c]) with (a :: a2 :: (l2 ++ [c])).
    cbn [cut_at_blank_lines]. rewrite Hm. cbn [andb].
    change (a2 :: l2 ++ [c]) with ((a2 :: l2) ++ [c]).
    apply IH; [exact Hl|].
    intros l' c1 E. apply (Hlast (a :: l') c1). now rewrite E.
Qed.

Lemma split_loop_cuts (max_chars : Z) (paras : list str) :
  forall st b,
    alternating b paras = true ->
    cut_at_blank_lines (chunks st) = true ->
    (forall l c1, chunks st = l ++ [c1] ->
       meet_at_blank_line c1 (concat (current_chunk st)) = true) ->
    (chunks st <> [] -> current_chunk st <> []) ->
    (b = false ->
     current_chunk st = [] \/
     endswith (concat (current_chunk st)) BLANK_LINE = true) ->
    let st' := fold_left (split_step max_chars) paras st in
    cut_at_blank_lines (chunks st') = true /\
    (forall l c1, chunks st' = l ++ [c1] ->
       meet_at_blank_line c1 (concat (current_chunk st')) = true).
Proof.
  induction paras as [|para ps IH]; intros st b Halt Hcut Hlast Hne Hend;
    [now split|].
  cbn [fold_left]. cbn [alternating] in Halt.
  apply andb_prop in Halt as [Hpara Halt].
  apply (IH _ (negb b) Halt).
  - unfold split_step.
    destruct (_ && _); cbn [chunks]; [|exact Hcut].
    apply cut_snoc; [exact Hcut | exact Hlast].
  - intros l c1. unfold split_step.
    destruct (_ && _) eqn:E; cbn [chunks current_chunk concat].
    + intros El. apply app_inj_tail in El as [_ <-].
      rewrite app_nil_r. unfold meet_at_blank_line.
      apply andb_prop in E as [_ E].
      destruct b.
      * apply andb_prop in Hpara as [Hpara _]. rewrite Hpara.
        apply orb_true_r.
      * destruct (Hend eq_refl) as [H0 | H0].
        -- rewrite H0 in E. discriminate.
        -- now rewrite H0.
    + intros El. pose proof (Hlast l c1 El) as Hm.
      assert (Hcur : current_chunk st <> []).
      { apply Hne. rewrite El. now destruct l. }
      unfold meet_at_blank_line in *.
      apply orb_true_iff in Hm as [Hm | Hm]; [now rewrite Hm|].
      rewrite concat_app, (startswith_app_more _ _ _ Hm).
      apply orb_true_r.
  - unfold split_step.
    destruct (_ && _); cbn [chunks current_chunk]; intros _.
    + discriminate.
    + now destruct (current_chunk st).
  - intros Hb. right. destruct b; [|discriminate].
    apply andb_prop in Hpara as [_ Hpara].
    unfold split_step.
    destruct (_ && _); cbn [current_chunk concat].
    + now rewrite app_nil_r.
    + rewrite concat_app. cbn [concat]. rewrite app_nil_r.
      now apply endswith_app_r.
Qed.

(** X12. [smart_split] cuts only at blank lines: of two consecutive
    chunks, the first ends with two newlines or the second begins with
    two newlines, whatever [max_chars] is. *)
Theorem chunks_cut_at_blank_lines (text : str) (max_chars : Z) :
  cut_at_blank_lines (smart_split text max_chars) = true.
Proof.
  unfold smart_split.
  destruct (split_loop_cuts max_chars (re_split_paragraphs [] text)
              (mkSplitState [] [] 0%Z) false (pieces_alternate text))
    as [Hcut Hlast]; cbn [chunks current_chunk];
    try reflexivity; try (now left); try (intros [|? ?] ? ?; discriminate);
    try (intros H; now elim H).
  destruct (current_chunk _) as [|x xs] eqn:E; cbn [nonempty];
    [exact Hcut|].
  now apply cut_snoc.
Qed.

End Chunks.

(** ** The critic's answer inside a code fence *)

Section Fences.

Lemma split_scan_skip (sep : str) (k : nat) :
  forall s cur, k <= length s ->
    split_scan sep k cur s = split_scan sep 0 cur (skipn k s).
Proof.
  induction k as [|k IH]; intros s cur Hk; [reflexivity|].
  destruct s as [|c t]; cbn [length] in Hk; [lia|].
  cbn [split_scan skipn]. apply IH. lia.
Qed.

Lemma split_scan_pass (sep : str) :
  forall X R cur, unmatched sep X R ->
    split_scan sep 0 cur (X ++ R) = split_scan sep 0 (cur ++ X) R.
Proof.
  induction X as [|c X IH]; intros R cur H.
  - now rewrite app_nil_r.
  - destruct H as [H1 H2]. cbn [app] in *. cbn [split_scan].
    rewrite H1, IH by exact H2. now rewrite <- app_assoc.
Qed.

Lemma split_scan_hit (sep R cur : str) :
  sep <> [] ->
  split_scan sep 0 cur (sep ++ R) = cur :: split_scan sep 0 [] R.
Proof.
  intros Hsep. destruct sep as [|a sep']; [congruence|].
  cbn [app split_scan].
  change (a :: sep' ++ R) with ((a :: sep') ++ R).
  rewrite startswith_app. f_equal.
  replace (length (a :: sep') - 1) with (length sep')
    by (cbn [length]; lia).
  rewrite split_scan_skip by (rewrite length_app; lia).
  now rewrite skipn_app, skipn_all, Nat.sub_diag.
Qed.

Lemma split_scan_nonempty (sep : str) :
  forall s k cur, exists a rest, split_scan sep k cur s = a :: rest.
Proof.
  induction s as [|c t IH]; intros k cur; [cbn; eauto|].
  cbn [split_scan]. destruct k; [|apply IH].
  destruct (startswith (c :: t) sep); [eauto | apply IH].
Qed.

(** Where [sep] occurs, its first occurrence. *)
Lemma first_occurrence (sep : str) :
  sep <> [] ->
  forall s, contains s sep = true ->
    exists X R, s = X ++ sep ++ R /\ unmatched sep X (sep ++ R).
Proof.
  intros Hsep. induction s as [|c t IH]; intros H.
  - destruct sep; [congruence | discriminate].
  - cbn [contains] in H.
    destruct (startswith (c :: t) sep) eqn:E.
    + apply startswith_spec in E as [R E].
      exists [], R. split; [exact E | exact I].
    + cbn [orb] in H. destruct (IH H) as (X & R & Ht & Hu).
      exists (c :: X), R. split; [cbn [app]; now f_equal|].
      split; [|exact Hu]. cbn [app]. now rewrite <- Ht.
Qed.

(** A text in which [sep] occurs splits into two parts at least. *)
Lemma split_two_parts (s sep : str) :
  sep <> [] -> contains s sep = true ->
  exists a b rest, split s sep = a :: b :: rest.
Proof.
  intros Hsep H. destruct (first_occurrence sep Hsep s H) as (X & R & -> & Hu).
  unfold split. rewrite split_scan_pass by exact Hu.
  rewrite split_scan_hit by exact Hsep.
  destruct (split_scan_nonempty sep R 0 []) as (b & rest & ->).
  eauto.
Qed.

Lemma FENCE_JSON_nonempty : FENCE_JSON <> [].
Proof. discriminate. Qed.

Lemma FENCE_nonempty : FENCE <> [].
Proof. discriminate. Qed.

(** X13. The fence stripping of [critic_node] never raises: where an
    index into a split is taken, the guard before it makes the part
    exist. *)
Theorem unfence_never_raises (content : str) :
  exists body, unfence content = Some body.
Proof.
  unfold unfence.
  destruct (contains content FENCE_JSON) eqn:Ej.
  - destruct (split_two_parts _ _ FENCE_JSON_nonempty Ej)
      as (a & b & rest & ->).
    cbn [nth_error]. unfold split.
    destruct (split_scan_nonempty FENCE b 0 []) as (x & rest' & ->).
    cbn [nth_error]. eauto.
  - destruct (contains content FENCE) eqn:Ef; [|eauto].
    destruct (split_two_parts _ _ FENCE_nonempty Ef) as (a & b & rest & ->).
    cbn [nth_error]. eauto.
Qed.

(** A pattern without newline does not match across the end of a text
    that a newline follows. *)
Lemma startswith_before_newline (old : str) :
  ~ In nl old ->
  forall X R, startswith (X ++ nl :: R) old = true ->
              startswith X old = true.
Proof.
  induction old as [|a old IH]; intros Hnl X R H; [reflexivity|].
  destruct X as [|x X].
  - cbn [app] in H. apply startswith_head in H. subst a.
    exfalso. apply Hnl. now left.
  - cbn [app startswith] in *. apply andb_prop in H as [H1 H2].
    rewrite H1. cbn [andb]. apply (IH ltac:(intros Hin; apply Hnl; now right) X R H2).
Qed.

Lemma unmatched_before_newline (old X R : str) :
  ~ In nl old -> old <> [] ->
  contains X old = false ->
  unmatched old X (nl :: R).
Proof.
  intros Hnl Hold. induction X as [|c X IH]; intros H; [exact I|].
  apply contains_absent_cons in H as [H1 H2].
  split; [|now apply IH].
  destruct (startswith ((c :: X) ++ nl :: R) old) eqn:E; [|reflexivity].
  apply (startswith_before_newline old Hnl) in E. congruence.
Qed.

Lemma FENCE_no_newline : ~ In nl FENCE.
Proof.
  cbn. intros H. repeat (destruct H as [H | H]; [discriminate|]). exact H.
Qed.

Lemma FENCE_JSON_no_newline : ~ In nl FENCE_JSON.
Proof.
  cbn. intros H. repeat (destruct H as [H | H]; [discriminate|]). exact H.
Qed.

Lemma no_fence_no_json_fence (s : str) :
  contains s FENCE = false -> contains s FENCE_JSON = false.
Proof.
  intros H. destruct (contains s FENCE_JSON) eqn:E; [|reflexivity].
  apply contains_spec in E as (a & b & ->).
  exfalso. apply (proj1 (contains_absent _ _) H a (lit "json" ++ b)).
  reflexivity.
Qed.

Lemma unmatched_absent (old : str) :
  old <> [] ->
  forall X, unmatched old X [] -> contains X old = false.
Proof.
  intros Hold. induction X as [|c X IH]; intros H.
  - destruct old; [congruence | reflexivity].
  - destruct H as [H1 H2]. rewrite app_nil_r in H1.
    cbn [contains]. rewrite H1. cbn [orb]. now apply IH.
Qed.

(** After a fence-free body and a newline, the closing fence is the
    first one. *)
Lemma closing_fence_first (old body R : str) :
  ~ In nl old -> old <> [] ->
  contains body old = false ->
  unmatched old (body ++ [nl]) R.
Proof.
  intros Hnl Hold H. apply unmatched_app.
  - now apply unmatched_before_newline.
  - split; [|exact I]. cbn [app].
    destruct (startswith (nl :: R) old) eqn:E; [|reflexivity].
    destruct old as [|a old']; [congruence|].
    apply startswith_head in E. subst a. exfalso. apply Hnl. now left.
Qed.

Lemma split_at_closing_fence (body : str) :
  contains body FENCE = false ->
  split (body ++ nl :: FENCE) FENCE = [body ++ [nl]; []].
Proof.
  intros H. unfold split.
  replace (body ++ nl :: FENCE) with ((body ++ [nl]) ++ FENCE ++ [])
    by now rewrite <- app_assoc, app_nil_r.
  rewrite split_scan_pass
    by (apply closing_fence_first;
        auto using FENCE_no_newline, FENCE_nonempty).
  rewrite split_scan_hit by apply FENCE_nonempty.
  reflexivity.
Qed.

Lemma json_fence_absent_after (X : str) :
  contains X FENCE_JSON = false ->
  contains (X ++ nl :: FENCE) FENCE_JSON = false.
Proof.
  intros H. apply (unmatched_absent _ FENCE_JSON_nonempty).
  replace (X ++ nl :: FENCE) with ((X ++ [nl]) ++ FENCE)
    by now rewrite <- app_assoc.
  apply unmatched_app.
  - apply closing_fence_first;
      auto using FENCE_JSON_no_newline, FENCE_JSON_nonempty.
  - repeat split; reflexivity.
Qed.

(** Whitespace at the end does not survive [strip]. *)
Lemma strip_snoc_space (s : str) (c : ascii) :
  isspace c = true -> strip (s ++ [c]) = strip s.
Proof.
  intros Hc. unfold strip, rstrip.
  destruct (lstrip_decomp s) as (ws & Hs & Hws).
  destruct (lstrip_cases s) as [E | (d & t & E & Hd)].
  - rewrite E in *. rewrite app_nil_r in Hs. subst ws.
    rewrite (lstrip_all_space (s ++ [c])); [reflexivity|].
    apply Forall_app. split; [exact Hws | now repeat constructor].
  - assert (E2 : lstrip (s ++ [c]) = lstrip s ++ [c]).
    { rewrite Hs at 1. rewrite <- app_assoc.
      clear Hs. induction Hws as [|w ws Hw Hws IH].
      - cbn [app]. rewrite E. cbn [app]. now apply lstrip_nonspace.
      - cbn [app lstrip]. now rewrite Hw. }
    rewrite E2, rev_app_distr. cbn [rev app lstrip]. now rewrite Hc.
Qed.

Lemma strip_is_part (s : str) : exists a b, s = a ++ strip s ++ b.
Proof.
  destruct (lstrip_decomp s) as (ws & Hs & _).
  destruct (lstrip_decomp (rev (lstrip s))) as (ws2 & Hr & _).
  exists ws, (rev ws2). unfold strip, rstrip.
  rewrite <- rev_app_distr, <- Hr, rev_involutive. exact Hs.
Qed.

Lemma strip_keeps_ends (c d : ascii) (m : str) :
  isspace c = false -> isspace d = false ->
  strip (c :: m ++ [d]) = c :: m ++ [d].
Proof.
  intros Hc Hd. unfold strip, rstrip.
  rewrite (lstrip_nonspace c _ Hc).
  change (c :: m ++ [d]) with ((c :: m) ++ [d]).
  rewrite rev_app_distr. cbn [rev app].
  rewrite (lstrip_nonspace d _ Hd).
  change (d :: rev m ++ [c]) with ([d] ++ rev (c :: m)).
  now rewrite rev_app_distr, rev_involutive.
Qed.

Lemma unfence_bare (s : str) :
  contains s FENCE = false -> unfence s = Some s.
Proof.
  intros H. unfold unfence.
  now rewrite (no_fence_no_json_fence s H), H.
Qed.

Lemma unfence_json_fenced (body : str) :
  contains body FENCE = false ->
  unfence (FENCE_JSON ++ body ++ nl :: FENCE) = Some (strip body).
Proof.
  intros H. unfold unfence.
  assert (Hc : contains (FENCE_JSON ++ body ++ nl :: FENCE) FENCE_JSON
               = true).
  { apply contains_spec. exists [], (body ++ nl :: FENCE). reflexivity. }
  rewrite Hc. unfold split at 1.
  rewrite split_scan_hit by apply FENCE_JSON_nonempty.
  assert (Hrest : split_scan FENCE_JSON 0 [] (body ++ nl :: FENCE)
                  = [body ++ nl :: FENCE]).
  { rewrite <- (app_nil_r (body ++ nl :: FENCE)) at 1.
    rewrite split_scan_pass; [reflexivity|].
    replace (body ++ nl :: FENCE) with ((body ++ [nl]) ++ FENCE)
      by now rewrite <- app_assoc.
    apply unmatched_app.
    - apply closing_fence_first;
        auto using FENCE_JSON_no_newline, FENCE_JSON_nonempty,
                   no_fence_no_json_fence.
    - repeat split; reflexivity. }
  rewrite Hrest. cbn [nth_error].
  rewrite split_at_closing_fence by exact H. cbn [nth_error].
  now rewrite strip_snoc_space.
Qed.

Lemma unfence_plain_fenced (body : str) :
  contains body FENCE = false ->
  contains (FENCE ++ body) FENCE_JSON = false ->
  unfence (FENCE ++ body ++ nl :: FENCE) = Some (strip body).
Proof.
  intros H Hj. unfold unfence.
  rewrite app_assoc, (json_fence_absent_after _ Hj), <- app_assoc.
  assert (Hc : contains (FENCE ++ body ++ nl :: FENCE) FENCE = true).
  { apply contains_spec. exists [], (body ++ nl :: FENCE). reflexivity. }
  rewrite Hc. unfold split.
  rewrite split_scan_hit by apply FENCE_nonempty.
  fold (split (body ++ nl :: FENCE) FENCE).
  rewrite split_at_closing_fence by exact H. cbn [nth_error].
  now rewrite strip_snoc_space.
Qed.

(** X14. A critic answer wrapped in a code fence is judged as the bare
    answer is: for a fence-free [body], the answers
    [```json body \n ```] and (when it does not read as the former)
    [``` body \n ```] give [critic_node] the same errors and log as
    [body] itself. *)
Theorem fenced_answer_judged_as_bare
  (json_loads : str -> option json) (body : str) :
  contains body FENCE = false ->
  critique json_loads (Some (FENCE_JSON ++ body ++ nl :: FENCE))
  = critique json_loads (Some body) /\
  (contains (FENCE ++ body) FENCE_JSON = false ->
   critique json_loads (Some (FENCE ++ body ++ nl :: FENCE))
   = critique json_loads (Some body)).
Proof.
  intros H.
  assert (Hbare : unfence (strip body) = Some (strip body)).
  { apply unfence_bare. destruct (strip_is_part body) as (a & b & E).
    rewrite E in H. now apply contains_absent_part in H. }
  assert (Hends : forall m : str,
            strip ("`"%char :: m ++ nl :: FENCE)
            = "`"%char :: m ++ nl :: FENCE).
  { intros m.
    replace ("`"%char :: m ++ nl :: FENCE)
      with ("`"%char :: (m ++ nl :: lit "``") ++ ["`"%char])
      by (now rewrite <- app_assoc).
    now apply strip_keeps_ends. }
  split; [|intros Hj]; unfold critique.
  - change (FENCE_JSON ++ body ++ nl :: FENCE)
      with ("`"%char :: (lit "``json" ++ body) ++ nl :: FENCE).
    rewrite Hends.
    change ("`"%char :: (lit "``json" ++ body) ++ nl :: FENCE)
      with (FENCE_JSON ++ body ++ nl :: FENCE).
    now rewrite (unfence_json_fenced body H), Hbare.
  - change (FENCE ++ body ++ nl :: FENCE)
      with ("`"%char :: (lit "``" ++ body) ++ nl :: FENCE).
    rewrite Hends.
    change ("`"%char :: (lit "``" ++ body) ++ nl :: FENCE)
      with (FENCE ++ body ++ nl :: FENCE).
    now rewrite (unfence_plain_fenced body H Hj), Hbare.
Qed.

End Fences.

(** ** The project walker *)

Import Walker WalkerVocabulary WalkerScenarios.

Section WalkerChecks.

Example walk_of_a_cycle :
  let run := walk_and_process toy_join toy_dirname toy_normpath keep
                              (lit "proj") main_path toy_fs 5 in
  processed (fst run) = [main_path; intro_path] /\ snd run = true.
Proof. vm_compute. split; reflexivity. Qed.

Example includes_found :
  find_includes (lit "\input{a} \input{} \include  {b c}\inputx{d} \input{e")
  = [lit "a"; lit "b c"].
Proof. vm_compute. reflexivity. Qed.

Example main_preferred_to_first :
  find_main_tex toy_join toy_basename toy_walk toy_fs (lit "proj")
  = Some (Some main_path).
Proof. vm_compute. reflexivity. Qed.

End WalkerChecks.

Section MainFile.

Variable path_join : str -> str -> str.
Variable basename : str -> str.
Variable os_walk : FS -> str -> list (str * list str).

Lemma scan_files_some (f : FS) (root : str) (files : list str) :
  forall acc cands,
    scan_files path_join f root files acc = Some cands ->
    forall c, In c cands <->
      In c acc \/
      exists name content,
        In name files /\ endswith name TEX = true /\
        c = path_join root name /\
        read f c = Some content /\ contains content DOCUMENTCLASS = true.
Proof.
  induction files as [|name rest IH]; intros acc cands H c.
  - injection H as <-. split; [now left|].
    intros [Hc | (n & ? & [] & _)]. exact Hc.
  - cbn [scan_files] in H.
    destruct (endswith name TEX) eqn:Ee.
    + destruct (read f (path_join root name)) as [content|] eqn:Er;
        [|discriminate].
      rewrite (IH _ _ H c). split.
      * intros [Hc | (n & ct & Hn & Hrest)].
        -- destruct (contains content DOCUMENTCLASS) eqn:Ed;
             [|now left].
           apply in_app_or in Hc as [Hc | [<- | []]]; [now left|].
           right. exists name, content. cbn [In]. auto 10.
        -- right. exists n, ct. cbn [In]. tauto.
      * intros [Hc | (n & ct & [<- | Hn] & He & -> & Hr & Hd)].
        -- left. destruct (contains content DOCUMENTCLASS);
             [apply in_or_app|]; auto.
        -- left. rewrite Er in Hr. injection Hr as ->. rewrite Hd.
           apply in_or_app. right. now left.
        -- right. exists n, ct. auto 10.
    + rewrite (IH _ _ H c). split.
      * intros [Hc | (n & ct & Hn & Hrest)]; [now left|].
        right. exists n, ct. cbn [In]. tauto.
      * intros [Hc | (n & ct & [<- | Hn] & He & Hrest)]; [now left | |].
        -- congruence.
        -- right. exists n, ct. auto.
Qed.

Lemma scan_files_none (f : FS) (root : str) (files : list str) :
  forall acc,
    scan_files path_join f root files acc = None ->
    exists name, In name files /\ endswith name TEX = true /\
                 read f (path_join root name) = None.
Proof.
  induction files as [|name rest IH]; intros acc H; [discriminate|].
  cbn [scan_files] in H.
  destruct (endswith name TEX) eqn:Ee.
  - destruct (read f (path_join root name)) as [content|] eqn:Er.
    + destruct (IH _ H) as (n & Hn & Hrest). exists n. cbn [In]. tauto.
    + exists name. cbn [In]. auto.
  - destruct (IH _ H) as (n & Hn & Hrest). exists n. cbn [In]. tauto.
Qed.

Lemma scan_walk_some (f : FS) (walk : list (str * list str)) :
  forall acc cands,
    scan_walk path_join f walk acc = Some cands ->
    forall c, In c cands <-> In c acc \/ is_candidate path_join walk f c.
Proof.
  induction walk as [|[root files] rest IH]; intros acc cands H c.
  - injection H as <-. split; [now left|].
    intros [Hc | (? & ? & ? & ? & [] & _)]. exact Hc.
  - cbn [scan_walk] in H.
    destruct (scan_files path_join f root files acc) as [acc'|] eqn:Es;
      [|discriminate].
    rewrite (IH _ _ H c), (scan_files_some _ _ _ _ _ Es c).
    unfold is_candidate. split.
    + intros [[Hc | (n & ct & Hn & Hrest)] | (r & fl & n & ct & Hw & Hrest)].
      * now left.
      * right. exists root, files, n, ct. cbn [In]. tauto.
      * right. exists r, fl, n, ct. cbn [In]. tauto.
    + intros [Hc | (r & fl & n & ct & [[= <- <-] | Hw] & Hrest)].
      * left. now left.
      * left. right. exists n, ct. tauto.
      * right. exists r, fl, n, ct. tauto.
Qed.

Lemma scan_walk_none (f : FS) (walk : list (str * list str)) :
  forall acc,
    scan_walk path_join f walk acc = None ->
    exists root files name,
      In (root, files) walk /\ In name files /\
      endswith name TEX = true /\ read f (path_join root name) = None.
Proof.
  induction walk as [|[root files] rest IH]; intros acc H; [discriminate|].
  cbn [scan_walk] in H.
  destruct (scan_files path_join f root files acc) as [acc'|] eqn:Es.
  - destruct (IH _ H) as (r & fl & n & Hw & Hrest).
    exists r, fl, n. cbn [In]. tauto.
  - destruct (scan_files_none _ _ _ _ Es) as (n & Hrest).
    exists root, files, n. cbn [In]. tauto.
Qed.

Lemma first_named_some (p : str) (cands : list str) (c : str) :
  first_named basename p cands = Some c ->
  In c cands /\ lower (basename c) = p.
Proof.
  induction cands as [|x rest IH]; [discriminate|].
  cbn [first_named]. destruct (str_eqb (lower (basename x)) p) eqn:E.
  - intros [= <-]. apply str_eqb_eq in E. split; [now left | exact E].
  - intros H. destruct (IH H). split; [now right | assumption].
Qed.

Lemma first_named_none (p : str) (cands : list str) :
  first_named basename p cands = None ->
  forall c, In c cands -> str_eqb (lower (basename c)) p = false.
Proof.
  induction cands as [|x rest IH]; intros H c Hc; [destruct Hc|].
  cbn [first_named] in H.
  destruct (str_eqb (lower (basename x)) p) eqn:E; [discriminate|].
  destruct Hc as [<- | Hc]; [exact E | now apply IH].
Qed.

Lemma rank_in_le (ps : list str) (name : str) : rank_in ps name <= length ps.
Proof.
  induction ps as [|p rest IH]; cbn [rank_in length]; [lia|].
  destruct (str_eqb name p); lia.
Qed.

Lemma by_priority_some (ps cands : list str) (c : str) :
  by_priority basename ps cands = Some c ->
  In c cands /\
  forall c', In c' cands ->
    rank_in ps (lower (basename c)) <= rank_in ps (lower (basename c')).
Proof.
  revert c. induction ps as [|p rest IH]; intros c H; [discriminate|].
  cbn [by_priority] in H.
  destruct (first_named basename p cands) as [x|] eqn:E.
  - injection H as ->. apply first_named_some in E as [Hin Hname].
    split; [exact Hin|]. intros c' _. cbn [rank_in].
    rewrite Hname, str_eqb_refl. lia.
  - destruct (IH _ H) as [Hin Hle]. split; [exact Hin|].
    intros c' Hc'. cbn [rank_in].
    rewrite (first_named_none _ _ E c Hin), (first_named_none _ _ E c' Hc').
    apply le_n_S. now apply Hle.
Qed.

Lemma by_priority_none (ps cands : list str) :
  by_priority basename ps cands = None ->
  forall c, In c cands -> rank_in ps (lower (basename c)) = length ps.
Proof.
  induction ps as [|p rest IH]; intros H c Hc; [reflexivity|].
  cbn [by_priority] in H.
  destruct (first_named basename p cands) as [x|] eqn:E; [discriminate|].
  cbn [rank_in length]. rewrite (first_named_none _ _ E c Hc).
  f_equal. now apply IH.
Qed.

(** X15. What [find_main_tex] returns: a [.tex] file of the walk that
    holds [\documentclass] and whose name comes first in the order
    [main.tex], [paper.tex], [article.tex], any other name (compared in
    lower case); [None] exactly when there is no such file; and it
    raises only when a [.tex] file of the walk cannot be read. *)
Theorem find_main_tex_picks_best (f : FS) (sandbox_dir : str) :
  let found := is_candidate path_join (os_walk f sandbox_dir) f in
  match find_main_tex path_join basename os_walk f sandbox_dir with
  | Some (Some r) =>
      found r /\ forall c, found c -> rank basename r <= rank basename c
  | Some None => forall c, ~ found c
  | None =>
      exists root files name,
        In (root, files) (os_walk f sandbox_dir) /\ In name files /\
        endswith name TEX = true /\ read f (path_join root name) = None
  end.
Proof.
  cbv zeta. unfold find_main_tex.
  destruct (scan_walk path_join f (os_walk f sandbox_dir) [])
    as [cands|] eqn:Es; [|now apply scan_walk_none in Es].
  pose proof (scan_walk_some _ _ _ _ Es) as Hc.
  assert (Hin : forall c, In c cands <->
                  is_candidate path_join (os_walk f sandbox_dir) f c).
  { intros c. rewrite Hc. cbn [In]. tauto. }
  destruct cands as [|x xs]; cbn [nonempty negb].
  - intros c Hcand. now apply Hin in Hcand.
  - unfold rank.
    destruct (by_priority basename priorities (x :: xs)) as [r|] eqn:Ep.
    + apply by_priority_some in Ep as [Hr Hle].
      split; [now apply Hin|]. intros c Hcand. apply Hle. now apply Hin.
    + cbn [hd_error]. split; [apply Hin; now left|].
      intros c Hcand. apply Hin in Hcand.
      rewrite (by_priority_none _ _ Ep c Hcand). apply rank_in_le.
Qed.

End MainFile.

Section Walk.

Variable path_join : str -> str -> str.
Variable dirname : str -> str.
Variable normpath : str -> str.
Variable process_callback : nat -> str -> FS -> FS.
Variable sandbox_dir : str.

Lemma extends_refl (w : WalkState) : extends w w.
Proof. split; [auto|]. exists []. now rewrite app_nil_r. Qed.

Lemma extends_trans (w1 w2 w3 : WalkState) :
  extends w1 w2 -> extends w2 w3 -> extends w1 w3.
Proof.
  intros [H1 [m1 E1]] [H2 [m2 E2]]. split; [auto|].
  exists (m1 ++ m2). now rewrite E2, E1, app_assoc.
Qed.

Lemma visit_includes_extends
  (visit : str -> WalkState -> WalkState * bool) (current_path : str) :
  (forall p w, extends w (fst (visit p w))) ->
  forall includes w,
    extends w (fst (visit_includes path_join dirname normpath sandbox_dir
                                   visit current_path includes w)).
Proof.
  intros Hvisit. induction includes as [|inc rest IH]; intros w.
  - apply extends_refl.
  - cbn [visit_includes].
    destruct (resolve_path _ _ _ _ _ _ _) as [p|]; [|apply IH].
    pose proof (Hvisit p w) as Hp.
    destruct (visit p w) as [w' ok]. cbn [fst] in Hp.
    destruct ok; [|exact Hp].
    eapply extends_trans; [exact Hp | apply IH].
Qed.

Lemma first_visit_extends (w : WalkState) (p : str) (f : FS) :
  mem p (visited w) = false ->
  extends w (mkWalkState (visited w ++ [p]) f (processed w ++ [p])).
Proof.
  intros Hp. split; [|now exists [p]].
  intros [Hnd Hsub]. split; cbn [processed visited].
  - apply NoDup_app; [exact Hnd | repeat constructor; auto |].
    intros x Hx [<- | []]. apply Hsub, mem_In in Hx. congruence.
  - intros x Hx. apply in_or_app.
    apply in_app_or in Hx as [Hx | Hx]; [left; now apply Hsub | now right].
Qed.

Lemma dfs_extends (depth : nat) :
  forall p w,
    extends w (fst (dfs path_join dirname normpath process_callback
                        sandbox_dir depth p w)).
Proof.
  induction depth as [|d IH]; intros p w; [apply extends_refl|].
  cbn [dfs]. destruct (mem p (visited w)) eqn:Em; [apply extends_refl|].
  pose proof (first_visit_extends w p
                (process_callback (length (processed w)) p (fs w)) Em) as H1.
  cbn [fs].
  destruct (process_callback (length (processed w)) p (fs w) p)
    as [[content|]|]; try exact H1.
  eapply extends_trans; [exact H1|].
  now apply visit_includes_extends.
Qed.

(** X16. [walk_and_process] calls the callback on the entry file first
    and on no path twice, whatever the files include and whatever the
    callback does to them. *)
Theorem walk_processes_each_file_once
  (entry_file : str) (f : FS) (depth : nat) :
  let w := fst (walk_and_process path_join dirname normpath process_callback
                                 sandbox_dir entry_file f (S depth)) in
  NoDup (processed w) /\ exists rest, processed w = entry_file :: rest.
Proof.
  cbv zeta. unfold walk_and_process. split.
  - apply (dfs_extends (S depth) entry_file (mkWalkState [] f [])).
    split; [constructor | intros p []].
  - cbn [dfs mem existsb visited processed fs length app].
    set (w1 := mkWalkState [entry_file] _ [entry_file]).
    destruct (process_callback 0 entry_file f entry_file)
      as [[content|]|]; try (now exists []).
    destruct (visit_includes_extends
                (dfs path_join dirname normpath process_callback
                     sandbox_dir depth)
                entry_file (dfs_extends depth) (find_includes content) w1)
      as [_ [more E]].
    rewrite E. now exists more.
Qed.

(** *** The walk ends *)

Lemma unseen_shrinks (universe seen seen' : list str) :
  incl seen seen' ->
  length (unseen universe seen') <= length (unseen universe seen).
Proof.
  intros Hi. unfold unseen.
  induction universe as [|x u IH]; cbn [filter]; [lia|].
  destruct (mem x seen') eqn:E'; destruct (mem x seen) eqn:E;
    cbn [negb length]; try lia.
  apply mem_In, Hi, mem_In in E. congruence.
Qed.

Lemma unseen_drops (universe seen : list str) (p : str) :
  In p universe -> mem p seen = false ->
  length (unseen universe (seen ++ [p])) < length (unseen universe seen).
Proof.
  intros Hp Hs. unfold unseen.
  induction universe as [|x u IH]; [destruct Hp|].
  pose proof (unseen_shrinks u seen (seen ++ [p])
                ltac:(intros y Hy; apply in_or_app; now left)) as Hle.
  unfold unseen in Hle. cbn [filter].
  destruct Hp as [-> | Hp].
  - rewrite Hs.
    replace (mem p (seen ++ [p])) with true
      by (symmetry; apply mem_In, in_or_app; right; now left).
    cbn [negb length]. lia.
  - specialize (IH Hp).
    destruct (mem x (seen ++ [p])) eqn:E'; destruct (mem x seen) eqn:E;
      cbn [negb length]; try lia.
    assert (In x (seen ++ [p])) by (apply in_or_app; left; now apply mem_In).
    apply mem_In in H. congruence.
Qed.

Section Bounded.

(** The paths of the project, and what the callback keeps true of the
    file system. *)
Variable universe : list str.
Variable kept : FS -> Prop.

Hypothesis callback_keeps :
  forall n p f, kept f -> kept (process_callback n p f).
Hypothesis includes_inside :
  forall f current inc p,
    kept f ->
    resolve_path path_join dirname normpath f sandbox_dir current inc
    = Some p ->
    In p universe.
Hypothesis files_readable :
  forall f p, kept f -> In p universe -> f p <> Some Dir.

Lemma visit_includes_ends
  (visit : str -> WalkState -> WalkState * bool) (d : nat)
  (current_path : str) :
  (forall p w, In p universe -> kept (fs w) ->
               length (unseen universe (visited w)) < d ->
               let r := visit p w in
               snd r = true /\ kept (fs (fst r)) /\
               length (unseen universe (visited (fst r))) < d /\
               ((forall q, In q (processed w) -> In q universe) ->
                forall q, In q (processed (fst r)) -> In q universe)) ->
  forall includes w,
    kept (fs w) -> length (unseen universe (visited w)) < d ->
    let r := visit_includes path_join dirname normpath sandbox_dir
                            visit current_path includes w in
    snd r = true /\ kept (fs (fst r)) /\
    length (unseen universe (visited (fst r))) < d /\
    ((forall q, In q (processed w) -> In q universe) ->
     forall q, In q (processed (fst r)) -> In q universe).
Proof.
  intros Hvisit. induction includes as [|inc rest IH]; intros w Hk Hd.
  - cbn. auto.
  - cbn [visit_includes].
    destruct (resolve_path _ _ _ _ _ _ _) as [p|] eqn:Er; [|now apply IH].
    pose proof (Hvisit p w (includes_inside _ _ _ _ Hk Er) Hk Hd)
      as (Hok & Hk' & Hd' & Hin').
    destruct (visit p w) as [w' ok]. cbn [fst snd] in *. subst ok.
    destruct (IH w' Hk' Hd') as (Hok2 & Hk2 & Hd2 & Hin2).
    repeat (split; [assumption|]). auto.
Qed.

Lemma dfs_ends (d : nat) :
  forall p w,
    In p universe -> kept (fs w) ->
    length (unseen universe (visited w)) < d ->
    let r := dfs path_join dirname normpath process_callback sandbox_dir
                 d p w in
    snd r = true /\ kept (fs (fst r)) /\
    length (unseen universe (visited (fst r))) < d /\
    ((forall q, In q (processed w) -> In q universe) ->
     forall q, In q (processed (fst r)) -> In q universe).
Proof.
  induction d as [|d IH]; intros p w Hp Hk Hd; [lia|].
  cbn [dfs]. destruct (mem p (visited w)) eqn:Em; [cbn; auto|].
  set (f1 := process_callback (length (processed w)) p (fs w)).
  assert (Hk1 : kept f1) by now apply callback_keeps.
  assert (Hd1 : length (unseen universe (visited w ++ [p])) < d).
  { pose proof (unseen_drops universe (visited w) p Hp Em). lia. }
  assert (Hin1 : (forall q, In q (processed w) -> In q universe) ->
                 forall q, In q (processed w ++ [p]) -> In q universe).
  { intros H q Hq. apply in_app_or in Hq as [Hq | [<- | []]]; auto. }
  cbn [fs].
  destruct (f1 p) as [[content|]|] eqn:Ef.
  - destruct (visit_includes_ends
                (dfs path_join dirname normpath process_callback
                     sandbox_dir d)
                d p (fun p' w' Hp' Hk' Hd' => IH p' w' Hp' Hk' Hd')
                (find_includes content)
                (mkWalkState (visited w ++ [p]) f1 (processed w ++ [p]))
                Hk1 Hd1)
      as (Hok & Hk2 & Hd2 & Hin2).
    cbn [processed] in Hin2.
    repeat (split; [assumption || lia|]). auto.
  - exfalso. now apply (files_readable f1 p Hk1 Hp).
  - cbn [fst snd visited fs processed].
    repeat (split; [assumption || lia || reflexivity|]). exact Hin1.
Qed.

End Bounded.

(** X17. The walk ends, include cycles or not: when the paths that
    includes resolve to stay within [universe] and can be read, a
    nesting depth of one more than the number of those paths is enough
    for [walk_and_process] to return, and every path it processes is
    one of them. *)
Theorem walk_ends_within_project
  (universe : list str) (kept : FS -> Prop) (entry_file : str) (f : FS) :
  (forall n p f', kept f' -> kept (process_callback n p f')) ->
  (forall f' current inc p,
     kept f' ->
     resolve_path path_join dirname normpath f' sandbox_dir current inc
     = Some p ->
     In p universe) ->
  (forall f' p, kept f' -> In p universe -> f' p <> Some Dir) ->
  In entry_file universe ->
  kept f ->
  let r := walk_and_process path_join dirname normpath process_callback
                            sandbox_dir entry_file f
                            (S (length universe)) in
  snd r = true /\ forall p, In p (processed (fst r)) -> In p universe.
Proof.
  intros Hcb Hinc Hread Hentry Hk. cbv zeta. unfold walk_and_process.
  destruct (dfs_ends universe kept Hcb Hinc Hread (S (length universe))
              entry_file (mkWalkState [] f []) Hentry Hk)
    as (Hok & _ & _ & Hin).
  - cbn [visited]. unfold unseen.
    pose proof (filter_length_le (fun p => negb (mem p [])) universe). lia.
  - split; [exact Hok|]. apply Hin. intros q [].
Qed.

End Walk.

Lemma toy_fs_paths (q : str) :
  path_exists toy_fs q = true -> In q toy_universe.
Proof.
  unfold path_exists, toy_fs, toy_universe.
  destruct (str_eqb q main_path) eqn:E1;
    [apply str_eqb_eq in E1; cbn [In]; auto|].
  destruct (str_eqb q intro_path) eqn:E2;
    [apply str_eqb_eq in E2; cbn [In]; auto|].
  destruct (str_eqb q notes_path) eqn:E3;
    [apply str_eqb_eq in E3; cbn [In]; auto|].
  discriminate.
Qed.

Lemma toy_includes_inside (f : FS) (current inc p : str) :
  as_toy_fs f ->
  resolve_path toy_join toy_dirname toy_normpath f (lit "proj") current inc
  = Some p ->
  In p toy_universe.
Proof.
  intros Hf. unfold resolve_path, toy_normpath, path_exists.
  rewrite !Hf.
  match goal with
  | |- context [toy_fs ?q] =>
      pose proof (toy_fs_paths q) as H1; unfold path_exists in H1;
        destruct (toy_fs q)
  end.
  - intros [= <-]. now apply H1.
  - match goal with
    | |- context [match toy_fs ?q with _ => _ end] =>
        pose proof (toy_fs_paths q) as H2; unfold path_exists in H2;
          destruct (toy_fs q)
    end; [|discriminate].
    intros [= <-]. now apply H2.
Qed.

Lemma toy_files_readable (f : FS) (p : str) :
  as_toy_fs f -> In p toy_universe -> f p <> Some Dir.
Proof.
  intros Hf _. rewrite Hf. unfold toy_fs.
  repeat (match goal with |- context [if ?b then _ else _] => destruct b end;
          try discriminate).
Qed.

Lemma walk_ends_within_project_witness :
  let r := walk_and_process toy_join toy_dirname toy_normpath keep
                            (lit "proj") main_path toy_fs 4 in
  snd r = true /\ forall p, In p (processed (fst r)) -> In p toy_universe.
Proof.
  apply (walk_ends_within_project toy_join toy_dirname toy_normpath keep
           (lit "proj") toy_universe as_toy_fs main_path toy_fs).
  - intros n p f' Hf. exact Hf.
  - apply toy_includes_inside.
  - apply toy_files_readable.
  - now left.
  - intros p. reflexivity.
Defined.

Lemma fenced_answer_judged_as_bare_witness :
  critique loads (Some (FENCE_JSON ++ (nl :: answer_fail) ++ nl :: FENCE))
  = critique loads (Some (nl :: answer_fail)) /\
  critique loads (Some (FENCE ++ (nl :: answer_fail) ++ nl :: FENCE))
  = critique loads (Some (nl :: answer_fail)).
Proof.
  destruct (fenced_answer_judged_as_bare loads (nl :: answer_fail))
    as [H1 H2]; [reflexivity|].
  split; [exact H1 | apply H2; reflexivity].
Defined.
